(** * ame: JMA nowcast / GSI map viewer — tile cache, fetch jobs, view helpers

    A shallow embedding of the non-GUI logic of [Source.cpp]:
    the tile cache ([gCache], [PurgeOldTiles], [GetOrFetchBitmap] and the
    fetch job it enqueues), the HTTP read loop ([HttpGet]), the overlay zoom
    selection and cross-fade of [DrawScene], and the Web-Mercator helpers.

    Conventions.
    - [std::chrono::steady_clock::time_point] is a tick count in [Z]
      (nanoseconds); each call that reads the clock takes [now] as an argument.
    - [std::wstring] keys are [string]; [std::vector<BYTE>] is [list BYTE].
    - A nullable [ID2D1Bitmap*] is [option ID2D1Bitmap].
    - The Win32 collaborators (WinHTTP, WIC) are inputs: the decoder is a
      section variable, a network exchange is a value of [WinHttp].
    - The externally visible actions of the cache code (decoder calls, COM
      releases, jobs handed to the pool, posted window messages) are appended
      to [gLog] in program order.
    - [float] arithmetic (the cross-fade) rounds every result to single
      precision; [double] arithmetic (the map view, the Web-Mercator helpers)
      is taken over the reals, and over the rationals where it is exact. *)

From Stdlib Require Import ZArith QArith Qround Qminmax Qpower Reals Psatz.
From stdpp Require Import gmap strings list sorting pretty.

(** ** Constants *)

Definition TILE_SIZE : Z := 256.
Definition MIN_MAP_ZOOM : Z := 2.
Definition MAX_MAP_ZOOM : Z := 18.
Definition MIN_DL_ZOOM : Z := 4.
Definition MAX_DL_ZOOM : Z := 13.
Definition WORKER_THREADS : nat := 4.
Definition kCacheLimit : nat := 256.

(** ** Types of the overlay cache *)

(** [BYTE] *)
Definition BYTE := Byte.byte.

Definition time_point := Z.
Bind Scope Z_scope with time_point.

(** A live Direct2D bitmap, named by its (non-null) address. *)
Inductive ID2D1Bitmap := D2DBitmap (addr : positive).

Record Img := mkImg {
  bytes : list BYTE;
  bmp : option ID2D1Bitmap;
  lastUsed : time_point
}.

(** The closure handed to [ThreadPool::enqueue] captures [key] and
    [isOverlay]. *)
Record job := mkJob { job_key : string; job_isOverlay : bool }.

(** [tasks] is the FIFO queue; [workers] holds, per worker thread, the task
    it has taken from the queue and not finished yet. *)
Record ThreadPool := mkPool {
  workers : list (option job);
  tasks : list job
}.

(** What the cache code does to its collaborators: a call of
    [LoadPngToD2D], a [Release] of a bitmap, a job given to
    [ThreadPool::enqueue], a [PostMessage] of [WM_TILE_READY]. *)
Inductive effect :=
| Decode (png : list BYTE)
| Release (b : ID2D1Bitmap)
| Enqueue (j : job)
| PostTileReady.

(** The globals the cache code touches; [hwnd] tells whether [g.hwnd] is
    set. *)
Record Globals := mkGlobals {
  gCache : gmap string Img;
  gPool : option ThreadPool;
  hwnd : bool;
  gLog : list effect
}.

Definition with_cache (s : Globals) (c : gmap string Img) : Globals :=
  mkGlobals c (gPool s) (hwnd s) (gLog s).

Definition emit (s : Globals) (es : list effect) : Globals :=
  mkGlobals (gCache s) (gPool s) (hwnd s) (gLog s ++ es).

(** [ThreadPool(n)]: [n] idle workers and an empty queue. *)
Definition new_ThreadPool (n : nat) : ThreadPool := mkPool (replicate n None) [].

Definition enqueue (j : job) (p : ThreadPool) : ThreadPool :=
  mkPool (workers p) (tasks p ++ [j]).

(** ** Network: the read loop of [HttpGet] *)

(** One round of the [do ... while (true)] loop, as answered by WinHTTP:
    - [QueryFailed]: [WinHttpQueryDataAvailable] returns [FALSE];
    - [ReadFailed sz]: [sz] bytes are announced and [WinHttpReadData] returns
      [FALSE] (the tail added by [resize] is taken to stay zero);
    - [Chunk sz data]: [sz] bytes are announced and [WinHttpReadData] stores
      [data], so [dw] is its length (at most [sz]). *)
Inductive net_read :=
| QueryFailed
| ReadFailed (sz : nat)
| Chunk (sz : nat) (data : list BYTE).

(** One exchange: whether [WinHttpOpen], [WinHttpConnect] and
    [WinHttpOpenRequest] gave a handle, whether [WinHttpSendRequest] and
    [WinHttpReceiveResponse] succeeded, the value of [status] after
    [WinHttpQueryHeaders] (0 when that call fails), and the answers to the
    successive rounds of the read loop; when [net_body] is used up,
    [WinHttpQueryDataAvailable] reports [sz = 0] (end of the response). *)
Record WinHttp := mkWinHttp {
  net_open : bool;
  net_connect : bool;
  net_request : bool;
  net_send : bool;
  net_receive : bool;
  net_status : Z;
  net_body : list net_read
}.

Fixpoint read_loop (rounds : list net_read) (out : list BYTE) : bool * list BYTE :=
  match rounds with
  | [] => (true, out)
  | QueryFailed :: _ => (false, out)
  | ReadFailed sz :: _ =>
      if Nat.eqb sz 0 then (true, out) else (false, out ++ replicate sz Byte.x00)
  | Chunk sz data :: rest =>
      if Nat.eqb sz 0 then (true, out)
      else
        let old := length out in
        let got := take sz data in
        let dw := length got in
        let buf := out ++ got ++ replicate (sz - dw) Byte.x00 in
        read_loop rest (if Nat.ltb dw sz then take (old + dw) buf else buf)
  end.

Definition HttpGet (net : WinHttp) (out : list BYTE) : bool * list BYTE :=
  if negb (net_open net) then (false, out)
  else if negb (net_connect net) then (false, out)
  else if negb (net_request net) then (false, out)
  else
    let '(ok, out') :=
      if net_send net && net_receive net then
        if Z.eqb (net_status net) 200 then read_loop (net_body net) out
        else (false, out)
      else (false, out) in
    (ok && negb (bool_decide (out' = [])), out').

(** ** Cache and decode *)

(** The comparator given to [std::sort]. *)
Definition older (a b : string * time_point) : bool := Z.ltb a.2 b.2.

Fixpoint sort_insert (a : string * time_point) (v : list (string * time_point))
  : list (string * time_point) :=
  match v with
  | [] => [a]
  | b :: v' => if older b a then b :: sort_insert a v' else a :: b :: v'
  end.

(** [std::sort(v.begin(), v.end(), older)].  The standard leaves the order of
    equivalent elements open; this is one admissible result. *)
Definition std_sort (v : list (string * time_point)) : list (string * time_point) :=
  foldr sort_insert [] v.

(** [SAFE_RELEASE(p)] *)
Definition SAFE_RELEASE (p : option ID2D1Bitmap) : list effect :=
  match p with Some b => [Release b] | None => [] end.

(** Body of the removal loop of [PurgeOldTiles] for [v[i].first = k]. *)
Definition purge_one (s : Globals) (k : string) : Globals :=
  match gCache s !! k with
  | Some it => emit (with_cache s (delete k (gCache s))) (SAFE_RELEASE (bmp it))
  | None => s
  end.

(** The vector [v] of [PurgeOldTiles] after the sort.  The iteration order of
    the [unordered_map] is the one of [map_to_list]. *)
Definition purge_order (c : gmap string Img) : list (string * time_point) :=
  std_sort ((λ kv, (kv.1, lastUsed kv.2)) <$> map_to_list c).

Definition PurgeOldTiles (s : Globals) : Globals :=
  if decide (size (gCache s) ≤ kCacheLimit) then s
  else
    let v := purge_order (gCache s) in
    let removeCount := length v - kCacheLimit in
    foldl purge_one s ((take removeCount v).*1).

Section Cache.

(** [LoadPngToD2D]: the WIC decoder; [None] is the null pointer it returns
    on any failure. *)
Variable LoadPngToD2D : list BYTE → option ID2D1Bitmap.

(** The entry found by [GetOrFetchBitmap], after the call. *)
Definition touch (now : time_point) (it : Img) : Img * list effect :=
  if bool_decide (bmp it = None) && negb (bool_decide (bytes it = [])) then
    (mkImg [] (LoadPngToD2D (bytes it)) now, [Decode (bytes it)])
  else (mkImg (bytes it) (bmp it) now, []).

(** [GetOrFetchBitmap(key, &outBmp, isOverlay)] at clock reading [now];
    the result is [( *outBmp, return value)]. *)
Definition GetOrFetchBitmap (key : string) (now : time_point) (isOverlay : bool)
    (s : Globals) : Globals * (option ID2D1Bitmap * bool) :=
  match gCache s !! key with
  | Some it =>
      let '(it', es) := touch now it in
      (emit (with_cache s (<[key := it']> (gCache s))) es,
       (bmp it', bool_decide (bmp it' ≠ None)))
  | None =>
      let im := mkImg [] None now in
      let s1 := PurgeOldTiles (with_cache s (<[key := im]> (gCache s))) in
      let s2 :=
        match gPool s1 with
        | Some p =>
            let j := mkJob key isOverlay in
            mkGlobals (gCache s1) (Some (enqueue j p)) (hwnd s1) (gLog s1 ++ [Enqueue j])
        | None => s1
        end in
      (s2, (None, false))
  end.

End Cache.

(** The second, locked half of the fetch job: [ok] and [buf] are what
    [HttpGet] gave. *)
Definition commit_fetch (key : string) (ok : bool) (buf : list BYTE) (s : Globals)
  : Globals :=
  match gCache s !! key with
  | Some it =>
      if ok then
        emit (with_cache s (<[key := mkImg buf (bmp it) (lastUsed it)]> (gCache s)))
             (if hwnd s then [PostTileReady] else [])
      else with_cache s (delete key (gCache s))
  | None => s
  end.

(** The job enqueued by [GetOrFetchBitmap]: [net] is the exchange with the
    host picked by [isOverlay] for the path [key]. *)
Definition fetch_job (j : job) (net : WinHttp) (s : Globals) : Globals :=
  let '(ok, buf) := HttpGet net [] in
  commit_fetch (job_key j) ok buf s.

(** ** The foreground thread and the workers, interleaved

    Every access to [gCache] happens under [gCacheMtx], so a run of the
    program is a sequence of atomic steps: a call of [GetOrFetchBitmap] on the
    foreground thread, a worker taking the front task of the queue
    ([WorkerLoop]), or a worker finishing its task: the unlocked [HttpGet]
    followed by the locked commit. *)

Inductive event :=
| Call (key : string) (now : time_point) (isOverlay : bool)
| WorkerTake (w : nat)
| WorkerFinish (w : nat) (net : WinHttp).

Definition with_pool (s : Globals) (p : ThreadPool) : Globals :=
  mkGlobals (gCache s) (Some p) (hwnd s) (gLog s).

Definition worker_take (w : nat) (s : Globals) : Globals :=
  match gPool s with
  | Some p =>
      match workers p !! w, tasks p with
      | Some None, j :: rest => with_pool s (mkPool (<[w := Some j]> (workers p)) rest)
      | _, _ => s
      end
  | None => s
  end.

Definition worker_finish (w : nat) (net : WinHttp) (s : Globals) : Globals :=
  match gPool s with
  | Some p =>
      match workers p !! w with
      | Some (Some j) =>
          fetch_job j net (with_pool s (mkPool (<[w := None]> (workers p)) (tasks p)))
      | _ => s
      end
  | None => s
  end.

Section Run.

Variable LoadPngToD2D : list BYTE → option ID2D1Bitmap.

Definition step (s : Globals) (e : event) : Globals :=
  match e with
  | Call key now isOverlay => (GetOrFetchBitmap LoadPngToD2D key now isOverlay s).1
  | WorkerTake w => worker_take w s
  | WorkerFinish w net => worker_finish w net s
  end.

Definition run (s : Globals) (evs : list event) : Globals := foldl step s evs.

(** [n] further calls for [key], at the clock readings [ts]; the results are
    returned in call order. *)
Fixpoint poll (key : string) (isOverlay : bool) (ts : list time_point) (s : Globals)
  : Globals * list (option ID2D1Bitmap * bool) :=
  match ts with
  | [] => (s, [])
  | now :: ts' =>
      let '(s1, r) := GetOrFetchBitmap LoadPngToD2D key now isOverlay s in
      let '(s2, rs) := poll key isOverlay ts' s1 in
      (s2, r :: rs)
  end.

End Run.

(** The program state once [WM_CREATE] has been handled: an empty cache and a
    fresh pool. *)
Definition startup (h : bool) : Globals :=
  mkGlobals ∅ (Some (new_ThreadPool WORKER_THREADS)) h [].

Definition is_Enqueue_for (key : string) (e : effect) : bool :=
  match e with
  | Enqueue j => bool_decide (job_key j = key)
  | _ => false
  end.

Definition is_Decode (e : effect) : bool :=
  match e with Decode _ => true | _ => false end.

(** Number of fetch jobs handed to the pool for [key] so far. *)
Definition scheduled (key : string) (s : Globals) : nat :=
  length (filter (λ e, is_Enqueue_for key e = true) (gLog s)).

(** Number of decoder calls so far. *)
Definition decodes (s : Globals) : nat :=
  length (filter (λ e, is_Decode e = true) (gLog s)).

(** Along the run [evs] from [s], every call for [key] finds an entry for
    [key] in the cache. *)
Fixpoint present_at_calls (LoadPngToD2D : list BYTE → option ID2D1Bitmap)
    (key : string) (evs : list event) (s : Globals) : Prop :=
  match evs with
  | [] => True
  | e :: evs' =>
      match e with
      | Call k _ _ => k = key → is_Some (gCache s !! key)
      | _ => True
      end ∧ present_at_calls LoadPngToD2D key evs' (step LoadPngToD2D s e)
  end.

(** The keys erased by [PurgeOldTiles] when the cache is over the limit. *)
Definition purged (c : gmap string Img) : list string :=
  (take (size c - kCacheLimit) (purge_order c)).*1.

(** The order [std::sort] establishes. *)
Definition by_lastUsed (a b : string * time_point) : Prop := (a.2 ≤ b.2)%Z.

(** Tile paths, as [swprintf_s] builds them. *)
Definition gsi_tile_path (z x y : Z) : string :=
  "/xyz/std/" +:+ pretty z +:+ "/" +:+ pretty x +:+ "/" +:+ pretty y +:+ ".png".

Definition jma_tile_path (T : string * string) (z x y : Z) : string :=
  "/bosai/jmatile/data/nowc/" +:+ T.1 +:+ "/none/" +:+ T.2 +:+ "/surf/hrpns/"
    +:+ pretty z +:+ "/" +:+ pretty x +:+ "/" +:+ pretty y +:+ ".png".

(** ** Overlay zoom selection ([drawJmaOverlay])

    [g.zoom] is a finite [double], that is a rational; on the values it takes
    (multiples of 0.25 in [2, 18]) [std::floor], the conversion to [int], the
    conversion of [current_floor_zoom] back to [double] and [==] are exact. *)

(** [std::clamp] on [int]. *)
Definition clamp_int (v lo hi : Z) : Z :=
  if Z.ltb v lo then lo else if Z.ltb hi v then hi else v.

Definition GetJmaZoomLevel (zCurrent : Z) : Z :=
  clamp_int zCurrent MIN_DL_ZOOM MAX_DL_ZOOM.

Definition zJMA_candidate (zoom : Q) : Z :=
  let current_floor_zoom := Qfloor zoom in
  if Qeq_bool zoom (inject_Z current_floor_zoom) then (current_floor_zoom - 1)%Z
  else current_floor_zoom.

Definition zJMA (zoom : Q) : Z := GetJmaZoomLevel (zJMA_candidate zoom).

(** The rule in the words of the specification, for comparison. *)
Definition spec_overlay_zoom (Z0 : Q) : Z :=
  let f := Qfloor Z0 in
  let candidate := if Qeq_dec Z0 (inject_Z f) then (f - 1)%Z else f in
  Z.min (Z.max candidate 4) 13.

(** ** Time series and cross-fade

    A [float] is the rational it denotes, and every [float] operation rounds
    its exact result to single precision ([float_round] below).  The clock
    readings are 64-bit tick counts, so no value here comes near the overflow
    threshold of the format, which is left out. *)

Record NowcTime := mkNowcTime { basetime : string; validtime : string }.

Record TimeCtl := mkTimeCtl {
  gTimes : list NowcTime;
  gTimeIndex : Z;
  gAnimPlaying : bool;
  gAnimStart : time_point;
  gAnimFrom : Z;
  gAnimTo : Z;
  gAnimT : Q
}.

(** [a < b] on [float] and [double]. *)
Definition Qltb (a b : Q) : bool := negb (Qle_bool b a).

(** IEEE 754 binary32: 24 bits of significand; the least subnormal is
    [2 ^ -149]. *)
Definition float_prec : Z := 24.
Definition float_emin : Z := -149.

(** The integer part of the binary logarithm of [|x|], for [x] other than
    0. *)
Definition Qlog2 (x : Q) : Z :=
  let k := (Z.log2 (Z.abs (Qnum x)) - Z.log2 (Zpos (Qden x)))%Z in
  if Qle_bool (2 ^ k) (Z.abs (Qnum x) # Qden x) then k else (k - 1)%Z.

(** The integer nearest to [m]; of two that are equally near, the even
    one. *)
Definition round_half_even (m : Q) : Z :=
  let f := Qfloor m in
  let r := (m - inject_Z f)%Q in
  if Qltb r (1 # 2) then f
  else if Qltb (1 # 2) r then (f + 1)%Z
  else if Z.even f then f else (f + 1)%Z.

(** The exponent of the last bit of the [float]s around [x]. *)
Definition float_exponent (x : Q) : Z :=
  Z.max (Qlog2 x - (float_prec - 1)) float_emin.

(** The [float] nearest to [x] (round to nearest, ties to even), in lowest
    terms. *)
Definition float_round (x : Q) : Q :=
  if Qeq_bool x 0 then 0%Q
  else
    let e := float_exponent x in
    Qred (inject_Z (round_half_even (x / 2 ^ e)) * 2 ^ e).

(** [(float)z] of an integer, and [a - b], [a * b], [a / b] on [float]. *)
Definition float_of_Z (z : Z) : Q := float_round (inject_Z z).
Definition float_sub (a b : Q) : Q := float_round (a - b).
Definition float_mul (a b : Q) : Q := float_round (a * b).
Definition float_div (a b : Q) : Q := float_round (a / b).

(** [0.90f] and [0.65f]: the [float]s nearest to 0.9 and 0.65. *)
Definition kOverlayAlpha : Q := Eval vm_compute in float_round (9 # 10).
Definition kAnimDurationSec : Q := Eval vm_compute in float_round (65 # 100).

(** Ticks of [steady_clock] per second ([std::nano] period). *)
Definition ticks_per_second : Z := 1000000000.

(** [Clamp(v, lo, hi) = std::min(std::max(v, lo), hi)]. *)
Definition std_max (a b : Q) : Q := if Qltb a b then b else a.
Definition std_min (a b : Q) : Q := if Qltb b a then b else a.
Definition Clamp (v lo hi : Q) : Q := std_min (std_max v lo) hi.

Definition StartAnimTo (toIndex : Z) (now : time_point) (c : TimeCtl) : TimeCtl :=
  if (Z.ltb toIndex 0 || Z.leb (Z.of_nat (length (gTimes c))) toIndex
      || Z.eqb toIndex (gTimeIndex c))%bool
  then c
  else mkTimeCtl (gTimes c) (gTimeIndex c) true now (gTimeIndex c) toIndex (gAnimT c).

(** [duration<float>(now - gAnimStart).count() / kAnimDurationSec].  The
    conversion to [duration<float>] is the [duration_cast] of the tick count:
    [(float)count / (float)1000000000], computed in [float]. *)
Definition anim_t (now : time_point) (c : TimeCtl) : Q :=
  float_div (float_div (float_of_Z (now - gAnimStart c)) (float_of_Z ticks_per_second))
            kAnimDurationSec.

(** Step 2 of [DrawScene] at clock reading [now]: the new state and the
    calls [drawJmaOverlay(timeIndex, alpha)] it makes, in order.  [Clamp]
    works on [double]: it returns [t] or a bound, so the conversions of [t]
    to [double] and of the result to [float] are exact. *)
Definition DrawScene_overlay (now : time_point) (c : TimeCtl)
  : TimeCtl * list (Z * Q) :=
  if gAnimPlaying c then
    let t := anim_t now c in
    let T := Clamp t 0%Q 1%Q in
    let calls :=
      [(gAnimFrom c, float_mul (float_sub 1 T) kOverlayAlpha);
       (gAnimTo c, float_mul T kOverlayAlpha)] in
    if Qle_bool 1%Q t then
      (mkTimeCtl (gTimes c) (gAnimTo c) false (gAnimStart c) (gAnimFrom c) (gAnimTo c) T,
       calls)
    else
      (mkTimeCtl (gTimes c) (gTimeIndex c) true (gAnimStart c) (gAnimFrom c) (gAnimTo c) T,
       calls)
  else (c, [(gTimeIndex c, kOverlayAlpha)]).

(** ** Web-Mercator helpers

    [double] arithmetic is taken over the reals and [M_PI] is [PI];
    [1 << z] is [2 ^ z] (no overflow for the zooms in use, [2 .. 18]). *)

(** [std::clamp] on [double]. *)
Definition clamp_double (v lo hi : R) : R :=
  if Rlt_dec v lo then lo else if Rlt_dec hi v then hi else v.

Definition LonLatToWorldX (lon : R) (z : Z) : R :=
  (IZR (TILE_SIZE * 2 ^ z) * ((lon + 180) / 360))%R.

Definition LonLatToWorldY (lat_deg : R) (z : Z) : R :=
  let s := IZR (TILE_SIZE * 2 ^ z) in
  let lat := clamp_double lat_deg (-85.05112878)%R 85.05112878%R in
  let rad := (lat * PI / 180)%R in
  let sy := ln (tan (PI / 4 + rad / 2)) in
  (s * (1 - sy / PI) / 2)%R.

Definition WorldXToLon (wx : R) (z : Z) : R :=
  (wx / IZR (TILE_SIZE * 2 ^ z) * 360 - 180)%R.

Definition WorldYToLat (wy : R) (z : Z) : R :=
  let s := IZR (TILE_SIZE * 2 ^ z) in
  let y := (2 * (1 - wy / s))%R in
  (180 / PI * atan (sinh (y * PI)))%R.

(** ** Sample data *)

(** The first bytes of a PNG file, and a truncated one. *)
Definition png_header : list BYTE :=
  [Byte.x89; Byte.x50; Byte.x4e; Byte.x47; Byte.x0d; Byte.x0a; Byte.x1a; Byte.x0a].
Definition junk_bytes : list BYTE := [Byte.x3c; Byte.x68; Byte.x31; Byte.x3e].

(** A decoder that accepts what starts like a PNG and nothing else. *)
Definition sample_decoder (png : list BYTE) : option ID2D1Bitmap :=
  match png with
  | Byte.x89 :: Byte.x50 :: _ => Some (D2DBitmap (Pos.of_nat (length png)))
  | _ => None
  end.

(** The base-map tile over Tokyo station at zoom 6, and its neighbour. *)
Definition tokyo_tile : string := gsi_tile_path 6 56 25.
Definition next_tile : string := gsi_tile_path 6 57 25.

(** A cache of [n] tiles of one row, tile [i] last used at tick [i]; the
    even ones are decoded. *)
Definition row_cache (n : nat) : gmap string Img :=
  list_to_map
    ((λ i, (gsi_tile_path 9 (Z.of_nat i) 200,
            mkImg [] (if Nat.even i then Some (D2DBitmap (Pos.of_nat (S i))) else None)
                  (Z.of_nat i)))
       <$> seq 0 n).

Definition sample_globals (c : gmap string Img) : Globals :=
  mkGlobals c (Some (new_ThreadPool WORKER_THREADS)) true [].

(** Exchanges: a 404, a 200 whose body is empty, a 200 with a body. *)
Definition http_404 : WinHttp := mkWinHttp true true true true true 404%Z [].
Definition http_200_empty : WinHttp := mkWinHttp true true true true true 200%Z [].
Definition http_200_png : WinHttp :=
  mkWinHttp true true true true true 200%Z [Chunk 8 png_header].

(** An animation from index 3 to index 4 started at tick 0. *)
Definition sample_anim : TimeCtl :=
  mkTimeCtl (replicate 6 (mkNowcTime "20240101000000" "20240101000000"))
            3%Z true 0%Z 3%Z 4%Z 0%Q.

(** ** Request sequences and the job history *)

(** A frame asking for the tiles [reqs], each at its clock reading. *)
Definition requests (isOverlay : bool) (reqs : list (string * time_point))
  : list event :=
  (λ r, Call r.1 r.2 isOverlay) <$> reqs.

(** The jobs given to [ThreadPool::enqueue] so far, oldest first. *)
Definition enqueued (s : Globals) : list job :=
  omap (λ e, match e with Enqueue j => Some j | _ => None end) (gLog s).

(** The tasks the workers hold. *)
Definition in_flight (p : ThreadPool) : list job := omap (λ t, t) (workers p).

(** The cache that holds one pending placeholder per request of [reqs]. *)
Definition placeholders (reqs : list (string * time_point)) : gmap string Img :=
  list_to_map ((λ r, (r.1, mkImg [] None r.2)) <$> reqs).

(** [a] is requested at an earlier clock reading than [b]. *)
Definition requested_before (a b : string * time_point) : Prop := (a.2 < b.2)%Z.

(** The pool of a running program: the fixed number of workers; the queue is
    the tail of the history of enqueued jobs, in order; what the workers hold
    was taken from the front part. *)
Definition pool_in_order (s : Globals) : Prop :=
  ∃ p taken,
    gPool s = Some p ∧
    length (workers p) = WORKER_THREADS ∧
    enqueued s = taken ++ tasks p ∧
    ∀ j, j ∈ in_flight p → j ∈ taken.

(** ** Bodies made of chunks *)

(** The rounds in which WinHTTP announces and delivers the chunks
    [(sz, data)], and the bytes they deliver ([WinHttpReadData] writes at most
    [sz] bytes). *)
Definition chunk_rounds (chunks : list (nat * list BYTE)) : list net_read :=
  (λ c, Chunk c.1 c.2) <$> chunks.

Definition chunk_bytes (chunks : list (nat * list BYTE)) : list BYTE :=
  chunks ≫= λ c, take c.1 c.2.

(** The round that stops a transfer short: a failed query, or a failed read
    of announced bytes. *)
Definition is_failed_round (r : net_read) : bool :=
  match r with
  | QueryFailed => true
  | ReadFailed sz => negb (Nat.eqb sz 0)
  | Chunk _ _ => false
  end.

(** The round that ends a transfer: no byte announced. *)
Definition is_end_round (r : net_read) : bool :=
  match r with
  | QueryFailed => false
  | ReadFailed sz | Chunk sz _ => Nat.eqb sz 0
  end.
(** ** Tile indices of [DrawScene] *)

(** [(tx % maxT + maxT) % maxT]; [%] on [int] truncates toward zero
    ([Z.rem]). *)
Definition tile_nx (tx maxT : Z) : Z := Z.rem (Z.rem tx maxT + maxT) maxT.

(** [std::clamp(ty, 0, maxT - 1)] *)
Definition tile_ny (ty maxT : Z) : Z := clamp_int ty 0 (maxT - 1).

(** The zoom of the base-map tiles: [floor(g.zoom)] clamped to the map
    range. *)
Definition zDL (zoom : Q) : Z := clamp_int (Qfloor zoom) MIN_MAP_ZOOM MAX_MAP_ZOOM.

(** ** The time list: [FetchTimes]

    The response is the byte string [js]; [std::string::npos] is [None]. *)

Definition quote : BYTE := Byte.x22.

(** The two search keys, with their quotes: 10 and 11 bytes. *)
Definition key_basetime : list BYTE :=
  Eval cbv in quote :: String.list_byte_of_string "basetime" ++ [quote].
Definition key_validtime : list BYTE :=
  Eval cbv in quote :: String.list_byte_of_string "validtime" ++ [quote].

Fixpoint starts_with (pat s : list BYTE) : bool :=
  match pat, s with
  | [], _ => true
  | p :: pat', c :: s' => Byte.eqb p c && starts_with pat' s'
  | _ :: _, [] => false
  end.

(** First occurrence of [pat] in [s], counted from [off]. *)
Fixpoint find_sub (pat s : list BYTE) (off : nat) : option nat :=
  if starts_with pat s then Some off
  else match s with
       | [] => None
       | _ :: s' => find_sub pat s' (S off)
       end.

(** [js.find(pat, pos)] *)
Definition find (js pat : list BYTE) (pos : nat) : option nat :=
  if Nat.leb pos (length js) then find_sub pat (drop pos js) pos else None.

(** [i + 1] on [size_t]: [npos + 1] wraps to 0. *)
Definition next_index (i : option nat) : nat :=
  match i with Some i => S i | None => 0 end.

(** [js.substr(pos, n)] for [pos] within the string. *)
Definition substr (js : list BYTE) (pos n : nat) : list BYTE := take n (drop pos js).

(** The [while (true)] loop of [FetchTimes]; every round either leaves the
    loop or appends an entry, and the loop is left once 121 entries are
    there, so [fuel] only has to be 121. *)
Fixpoint FetchTimes_loop (fuel : nat) (js : list BYTE) (pos : nat)
    (out : list NowcTime) : list NowcTime :=
  match fuel with
  | 0 => out
  | S fuel' =>
      match find js key_basetime pos, find js key_validtime pos with
      | Some b, Some v =>
          let bq1 := find js [quote] (b + 10) in
          let bq2 := find js [quote] (next_index bq1) in
          let vq1 := find js [quote] (v + 11) in
          let vq2 := find js [quote] (next_index vq1) in
          match bq1, bq2, vq1, vq2 with
          | Some bq1, Some bq2, Some vq1, Some vq2 =>
              let bs := substr js (bq1 + 1) (bq2 - bq1 - 1) in
              let vs := substr js (vq1 + 1) (vq2 - vq1 - 1) in
              let out' :=
                out ++ [mkNowcTime (String.string_of_list_byte bs) (String.string_of_list_byte vs)] in
              if Nat.ltb 120 (length out') then out'
              else FetchTimes_loop fuel' js (vq2 + 1) out'
          | _, _, _, _ => out
          end
      | _, _ => out
      end
  end.

(** [FetchTimes(forecast, out)]; [net] is the exchange for the path that
    [forecast] selects.  [out] is only cleared once [HttpGet] succeeded. *)
Definition FetchTimes (net : WinHttp) (out : list NowcTime) : bool * list NowcTime :=
  let '(ok, buf) := HttpGet net [] in
  if negb ok then (false, out)
  else
    let out' := FetchTimes_loop 121 buf 0 [] in
    (negb (bool_decide (out' = [])), out').

(** ** Stepping through the time list *)

(** The time globals together with [gUseForecast]. *)
Record Viewer := mkViewer { nowc : TimeCtl; gUseForecast : bool }.

Definition SwitchTimes (forecast : bool) (net : WinHttp) (c : Viewer) : Viewer :=
  let '(ok, t) := FetchTimes net [] in
  if ok then
    mkViewer (mkTimeCtl t 0 false (gAnimStart (nowc c)) (gAnimFrom (nowc c))
                        (gAnimTo (nowc c)) (gAnimT (nowc c)))
             forecast
  else mkViewer (nowc c) forecast.

(** [(int)] of a [double]: truncation toward zero. *)
Definition to_int (q : Q) : Z := Z.quot (Qnum q) (Zpos (Qden q)).

Definition StepTime (delta : Z) (now : time_point) (c : TimeCtl) : TimeCtl :=
  match gTimes c with
  | [] => c
  | _ :: _ =>
      let to := to_int (Clamp (inject_Z (gTimeIndex c + delta)) 0
                              (inject_Z (Z.of_nat (length (gTimes c))) - 1)) in
      if Z.eqb to (gTimeIndex c) then c else StartAnimTo to now c
  end.

(** The messages of [WndProc] that touch the time globals: the keys [1], [2],
    left and right, the timer and a repaint. *)
Inductive message :=
| Key_1 (net : WinHttp)
| Key_2 (net : WinHttp)
| Key_LEFT (now : time_point)
| Key_RIGHT (now : time_point)
| WM_TIMER (now : time_point)
| WM_PAINT (now : time_point).

Definition on_nowc (f : TimeCtl → TimeCtl) (c : Viewer) : Viewer :=
  mkViewer (f (nowc c)) (gUseForecast c).

Definition WndProc (c : Viewer) (m : message) : Viewer :=
  match m with
  | Key_1 net => SwitchTimes false net c
  | Key_2 net => SwitchTimes true net c
  | Key_LEFT now => on_nowc (StepTime (-1) now) c
  | Key_RIGHT now => on_nowc (StepTime 1 now) c
  | WM_TIMER now =>
      if gAnimPlaying (nowc c) then c else on_nowc (StepTime 1 now) c
  | WM_PAINT now => on_nowc (λ t, (DrawScene_overlay now t).1) c
  end.

(** The globals at program start, and [WM_CREATE], which loads the list of
    the initial mode. *)
Definition initial_viewer : Viewer :=
  mkViewer (mkTimeCtl [] 0 false 0 0 0 0%Q) false.

Definition WM_CREATE (net : WinHttp) : Viewer :=
  SwitchTimes (gUseForecast initial_viewer) net initial_viewer.

(** The indices the time globals may hold: with an empty list nothing plays
    and the index is 0; otherwise the index is in range and, while an
    animation plays, it runs from the current index to another one in
    range. *)
Definition indices_in_range (c : TimeCtl) : Prop :=
  let n := Z.of_nat (length (gTimes c)) in
  match gTimes c with
  | [] => gTimeIndex c = 0%Z ∧ gAnimPlaying c = false
  | _ :: _ =>
      (0 ≤ gTimeIndex c < n)%Z ∧
      (gAnimPlaying c = true →
       gAnimFrom c = gTimeIndex c ∧ (0 ≤ gAnimTo c < n)%Z ∧ gAnimTo c ≠ gTimeIndex c)
  end.

(** ** Time lists as the server writes them *)

Definition is_digit (c : BYTE) : bool :=
  Nat.leb 48 (Byte.to_nat c) && Nat.leb (Byte.to_nat c) 57.

(** In [l] every quote is followed, inside [l], by a byte other than [c2]:
    no key that begins with a quote and [c2] can begin in [l]. *)
Fixpoint plain_for (c2 : BYTE) (l : list BYTE) : bool :=
  match l with
  | [] => true
  | c :: l' =>
      (if Byte.eqb c quote then
         match l' with
         | c' :: _ => negb (Byte.eqb c' c2)
         | [] => false
         end
       else true) && plain_for c2 l'
  end.

(** Text between two entries: neither key can begin in it. *)
Definition filler (l : list BYTE) : bool :=
  plain_for Byte.x62 l && plain_for Byte.x76 l.

(** One entry, from the quote that opens the [basetime] key to the quote that
    closes the [validtime] value. *)
Definition json_entry (B V : list BYTE) : list BYTE :=
  key_basetime ++ [Byte.x3a; quote] ++ B ++ [quote; Byte.x2c]
    ++ key_validtime ++ [Byte.x3a; quote] ++ V ++ [quote].

(** A time stamp pair with the text that follows its entry. *)
Record time_item := mkItem {
  item_base : list BYTE;
  item_valid : list BYTE;
  item_after : list BYTE
}.

Fixpoint json_entries (items : list time_item) : list BYTE :=
  match items with
  | [] => []
  | it :: rest =>
      json_entry (item_base it) (item_valid it) ++ item_after it ++ json_entries rest
  end.

Definition item_ok (it : time_item) : bool :=
  forallb is_digit (item_base it) && forallb is_digit (item_valid it)
    && filler (item_after it).

Definition item_time (it : time_item) : NowcTime :=
  mkNowcTime (String.string_of_list_byte (item_base it))
             (String.string_of_list_byte (item_valid it)).

(** The text that ends an entry of the JMA list and opens the next one, the
    same with the closing bracket after the last entry, and a list of two
    entries. *)
Definition elements_field : list BYTE :=
  [Byte.x2c; quote] ++ String.list_byte_of_string "elements"
    ++ [quote; Byte.x3a; Byte.x5b; quote] ++ String.list_byte_of_string "hrpns"
    ++ [quote; Byte.x2c; quote] ++ String.list_byte_of_string "hrpns_nd"
    ++ [quote; Byte.x5d; Byte.x7d].

Definition sample_items : list time_item :=
  [mkItem (String.list_byte_of_string "20240520021000")
          (String.list_byte_of_string "20240520021000")
          (elements_field ++ [Byte.x2c; Byte.x7b]);
   mkItem (String.list_byte_of_string "20240520020500")
          (String.list_byte_of_string "20240520020500")
          (elements_field ++ [Byte.x5d])].

Definition sample_time_list : list BYTE :=
  [Byte.x5b; Byte.x7b] ++ json_entries sample_items.

Definition http_200_times : WinHttp :=
  mkWinHttp true true true true true 200
            [Chunk (length sample_time_list) sample_time_list].

(** A run that ends with two workers holding a job for the Tokyo tile: the
    tile is requested, 256 other tiles push its pending entry out, it is
    requested again; worker 0 takes the first job, worker 1 works off the 256
    others (all answered 404) and takes the second. *)
Definition duplicate_fetch_run : list event :=
  [Call tokyo_tile 1 false]
    ++ requests false ((λ i, (gsi_tile_path 9 (Z.of_nat i) 200, Z.of_nat (2 + i))) <$> seq 0 256)
    ++ [Call tokyo_tile 300 false; WorkerTake 0]
    ++ mjoin (replicate 256 [WorkerTake 1; WorkerFinish 1 http_404])
    ++ [WorkerTake 1].

(** ** The time shown in the title and in the scene *)

(** [s.substr(pos, n)] on a [wstring]: [None] stands for the
    [std::out_of_range] it throws when [pos] is beyond the end. *)
Definition wsubstr (pos n : nat) (s : string) : option string :=
  if Nat.leb pos (String.length s) then Some (String.substring pos n s) else None.

(** [t.substr(4, 2) + L"/" + t.substr(6, 2) + L" " + t.substr(8, 2) + L":"
    + t.substr(10, 2)] *)
Definition format_validtime (t : string) : option string :=
  m ← wsubstr 4 2 t; d ← wsubstr 6 2 t; h ← wsubstr 8 2 t; mi ← wsubstr 10 2 t;
  Some (m +:+ "/" +:+ d +:+ " " +:+ h +:+ ":" +:+ mi).

(** [timeStr] of [UpdateTitle]. *)
Definition UpdateTitle_timeStr (c : TimeCtl) : option string :=
  if negb (bool_decide (gTimes c = [])) && Z.leb 0 (gTimeIndex c)
     && Z.ltb (gTimeIndex c) (Z.of_nat (length (gTimes c)))
  then
    match gTimes c !! Z.to_nat (gTimeIndex c) with
    | Some t => (λ l, " | Time: " +:+ l) <$> format_validtime (validtime t)
    | None => Some ""
    end
  else Some "".

(** ** The map view

    The view fields of [struct App]; [double] arithmetic is taken over the
    reals, as for the Web-Mercator helpers.  [(int)std::floor(x)] is
    [Int_part x], [std::pow(2.0, x)] is [Rpower 2 x] and [std::ldexp(1.0, n)]
    is [powerRZ 2 n]. *)
Definition DEFAULT_ZOOM : Z := 6.
Definition JAPAN_MIN_LON : R := 122.
Definition JAPAN_MAX_LON : R := 154.
Definition JAPAN_MIN_LAT : R := 20.
Definition JAPAN_MAX_LAT : R := 46.

Record App := mkApp {
  clientW : Z;
  clientH : Z;
  zoom : R;
  originWX : R;
  originWY : R;
  dragging : bool;
  dragStart : Z * Z;
  dragStartWX : R;
  dragStartWY : R
}.

Definition with_origin (g : App) (wx wy : R) : App :=
  mkApp (clientW g) (clientH g) (zoom g) wx wy
        (dragging g) (dragStart g) (dragStartWX g) (dragStartWY g).

Definition ClampViewToJapan (g : App) : App :=
  let z := Int_part (zoom g) in
  let sc := Rpower 2 (zoom g - IZR z) in
  let wxMin := LonLatToWorldX JAPAN_MIN_LON z in
  let wxMax := LonLatToWorldX JAPAN_MAX_LON z in
  let wyMin := LonLatToWorldY JAPAN_MAX_LAT z in
  let wyMax := LonLatToWorldY JAPAN_MIN_LAT z in
  let viewW := (IZR (clientW g) / sc)%R in
  let viewH := (IZR (clientH g) / sc)%R in
  let mapW := (wxMax - wxMin)%R in
  let mapH := (wyMax - wyMin)%R in
  with_origin g
    (if Rge_dec viewW mapW then ((wxMin + wxMax - viewW) / 2)%R
     else clamp_double (originWX g) wxMin (wxMax - viewW))
    (if Rge_dec viewH mapH then ((wyMin + wyMax - viewH) / 2)%R
     else clamp_double (originWY g) wyMin (wyMax - viewH)).

Definition CenterOnLonLat (lon lat : R) (g : App) : App :=
  let z := Int_part (zoom g) in
  let wx := LonLatToWorldX lon z in
  let wy := LonLatToWorldY lat z in
  let sc := Rpower 2 (zoom g - IZR z) in
  with_origin g (wx - IZR (clientW g) / (2 * sc))%R
                (wy - IZR (clientH g) / (2 * sc))%R.

(** The centre of the view that [UpdateTitle] turns into the longitude and
    latitude of the title. *)
Definition UpdateTitle_center (g : App) : R * R :=
  let zi := Int_part (zoom g) in
  let sc := Rpower 2 (zoom g - IZR zi) in
  ((originWX g + IZR (clientW g) / (2 * sc))%R,
   (originWY g + IZR (clientH g) / (2 * sc))%R).

Definition UpdateTitle_lon (g : App) : R :=
  WorldXToLon (fst (UpdateTitle_center g)) (Int_part (zoom g)).

Definition UpdateTitle_lat (g : App) : R :=
  WorldYToLat (snd (UpdateTitle_center g)) (Int_part (zoom g)).

(** [ZoomAtCenter] up to its call of [ClampViewToJapan]: the new zoom, and
    the origin that keeps the world point under the pixel
    [(clientW / 2, clientH / 2)] in place. *)
Definition ZoomAtCenter_rescale (delta : R) (g : App) : App :=
  let old := zoom g in
  let nz := clamp_double (old + delta) (IZR MIN_MAP_ZOOM) (IZR MAX_MAP_ZOOM) in
  let zOld := Int_part old in
  let zNew := Int_part nz in
  let cx := Z.quot (clientW g) 2 in
  let cy := Z.quot (clientH g) 2 in
  let sOld := Rpower 2 (old - IZR zOld) in
  let wx := (originWX g + IZR cx / sOld)%R in
  let wy := (originWY g + IZR cy / sOld)%R in
  let b := powerRZ 2 (zNew - zOld) in
  let wx := if Z.eq_dec zNew zOld then wx else (wx * b)%R in
  let wy := if Z.eq_dec zNew zOld then wy else (wy * b)%R in
  let sNew := Rpower 2 (nz - IZR zNew) in
  mkApp (clientW g) (clientH g) nz
        (wx - IZR cx / sNew)%R (wy - IZR cy / sNew)%R
        (dragging g) (dragStart g) (dragStartWX g) (dragStartWY g).

Definition ZoomAtCenter (delta : R) (g : App) : App :=
  ClampViewToJapan (ZoomAtCenter_rescale delta g).

(** The messages of [WndProc] that move the view: the new client size, the
    mouse position, the wheel delta, and the key [R]. *)
Inductive view_message :=
  | WM_SIZE (w h : Z)
  | WM_LBUTTONDOWN (x y : Z)
  | WM_MOUSEMOVE (sx sy : Z)
  | WM_LBUTTONUP
  | WM_MOUSEWHEEL (delta : Z)
  | Key_R.

Definition WndProc_view (g : App) (m : view_message) : App :=
  match m with
  | WM_SIZE w h =>
      ClampViewToJapan
        (mkApp w h (zoom g) (originWX g) (originWY g)
               (dragging g) (dragStart g) (dragStartWX g) (dragStartWY g))
  | WM_LBUTTONDOWN x y =>
      mkApp (clientW g) (clientH g) (zoom g) (originWX g) (originWY g)
            true (x, y) (originWX g) (originWY g)
  | WM_MOUSEMOVE sx sy =>
      if dragging g then
        let z := Int_part (zoom g) in
        let sc := Rpower 2 (zoom g - IZR z) in
        ClampViewToJapan
          (with_origin g (dragStartWX g - IZR (sx - fst (dragStart g)) / sc)%R
                         (dragStartWY g - IZR (sy - snd (dragStart g)) / sc)%R)
      else g
  | WM_LBUTTONUP =>
      mkApp (clientW g) (clientH g) (zoom g) (originWX g) (originWY g)
            false (dragStart g) (dragStartWX g) (dragStartWY g)
  | WM_MOUSEWHEEL delta =>
      ZoomAtCenter (if Z.ltb 0 delta then 0.25%R else (-0.25)%R) g
  | Key_R => ZoomAtCenter 0 (CenterOnLonLat 139.767125 35.681236 g)
  end.

(** The view when the message loop starts: [UpdateClientSize] with the client
    rectangle, then the view is centred on Tokyo station and clamped. *)
Definition wWinMain_view (w h : Z) : App :=
  ClampViewToJapan
    (CenterOnLonLat 139.767125 35.681236
       (mkApp w h (IZR DEFAULT_ZOOM) 0 0 false (0%Z, 0%Z) 0 0)).

(** One axis of the view against the same axis of the box of Japan: a view of
    length [len] from [a] lies inside [lo, hi] when it is shorter, and shares
    its middle otherwise. *)
Definition fits (lo hi a len : R) : Prop :=
  (len < hi - lo → lo <= a ∧ a + len <= hi)%R ∧
  (hi - lo <= len → a + len / 2 = (lo + hi) / 2)%R.

Definition view_in_japan (g : App) : Prop :=
  let z := Int_part (zoom g) in
  let sc := Rpower 2 (zoom g - IZR z) in
  fits (LonLatToWorldX JAPAN_MIN_LON z) (LonLatToWorldX JAPAN_MAX_LON z)
       (originWX g) (IZR (clientW g) / sc) ∧
  fits (LonLatToWorldY JAPAN_MAX_LAT z) (LonLatToWorldY JAPAN_MIN_LAT z)
       (originWY g) (IZR (clientH g) / sc).

Definition view_ok (g : App) : Prop :=
  view_in_japan g ∧ (2 <= zoom g <= 18)%R ∧ ∃ k : Z, zoom g = (IZR k / 4)%R.

(** ** The tiles of a scene

    What the two tile loops of [DrawScene] ask of [GetOrFetchBitmap]: the key
    of each tile and the rectangle of the window it is drawn into, in the
    order of the loops.  The conversions to [float] are taken over the reals
    as well. *)
Record D2D1_RECT_F := RectF {
  rect_left : R;
  rect_top : R;
  rect_right : R;
  rect_bottom : R
}.

Definition Rltb (a b : R) : bool := if Rlt_dec a b then true else false.

(** [for (int t = a; t <= b; ++t)] *)
Definition int_range (a b : Z) : list Z :=
  (λ i, (a + Z.of_nat i)%Z) <$> seq 0 (Z.to_nat (b - a + 1)).

(** [dst.right > 0 && dst.left < g.clientW && dst.bottom > 0 && dst.top <
    g.clientH] *)
Definition on_screen (g : App) (dst : D2D1_RECT_F) : bool :=
  Rltb 0 (rect_right dst) && Rltb (rect_left dst) (IZR (clientW g))
  && Rltb 0 (rect_bottom dst) && Rltb (rect_top dst) (IZR (clientH g)).

Definition DrawScene_zDL (g : App) : Z :=
  clamp_int (Int_part (zoom g)) MIN_MAP_ZOOM MAX_MAP_ZOOM.

Definition current_scale (g : App) : R := Rpower 2 (zoom g - IZR (DrawScene_zDL g)).

Definition drawGsiTiles (g : App) : list (string * D2D1_RECT_F) :=
  let zDL := DrawScene_zDL g in
  let wx0 := originWX g in
  let wy0 := originWY g in
  let wx1 := (originWX g + IZR (clientW g) / current_scale g)%R in
  let wy1 := (originWY g + IZR (clientH g) / current_scale g)%R in
  let maxT := (2 ^ zDL)%Z in
  let tx0 := Int_part (wx0 / IZR TILE_SIZE) in
  let ty0 := Int_part (wy0 / IZR TILE_SIZE) in
  let tx1 := Int_part (wx1 / IZR TILE_SIZE) in
  let ty1 := Int_part (wy1 / IZR TILE_SIZE) in
  ty ← int_range ty0 ty1;
  tx ← int_range tx0 tx1;
  let nx := tile_nx tx maxT in
  let ny := tile_ny ty maxT in
  let wx_start := IZR (tx * TILE_SIZE) in
  let wy_start := IZR (ty * TILE_SIZE) in
  let sx := ((wx_start - originWX g) * current_scale g)%R in
  let sy := ((wy_start - originWY g) * current_scale g)%R in
  let ss := (IZR TILE_SIZE * current_scale g)%R in
  let dst := RectF sx sy (sx + ss) (sy + ss) in
  if on_screen g dst then [(gsi_tile_path zDL nx ny, dst)] else [].

(** The overlay zoom of [drawJmaOverlay]. *)
Definition DrawScene_zJMA (g : App) : Z :=
  let current_floor_zoom := Int_part (zoom g) in
  let zJMA_candidate :=
    if Req_dec_T (zoom g) (IZR current_floor_zoom)
    then (current_floor_zoom - 1)%Z else current_floor_zoom in
  GetJmaZoomLevel zJMA_candidate.

Definition drawJmaOverlay (g : App) (times : list NowcTime) (timeIndex : Z)
  : list (string * D2D1_RECT_F) :=
  if bool_decide (times = []) || Z.ltb timeIndex 0
     || Z.leb (Z.of_nat (length times)) timeIndex
  then []
  else
    match times !! Z.to_nat timeIndex with
    | None => []
    | Some T =>
        let zDL := DrawScene_zDL g in
        let wx0 := originWX g in
        let wy0 := originWY g in
        let wx1 := (originWX g + IZR (clientW g) / current_scale g)%R in
        let wy1 := (originWY g + IZR (clientH g) / current_scale g)%R in
        let zJMA := DrawScene_zJMA g in
        let maxT_JMA := (2 ^ zJMA)%Z in
        let tile_count_factor := Rpower 2 (IZR (zDL - zJMA)) in
        let tx0_JMA := (Int_part (wx0 / IZR TILE_SIZE / tile_count_factor) - 1)%Z in
        let ty0_JMA := (Int_part (wy0 / IZR TILE_SIZE / tile_count_factor) - 1)%Z in
        let tx1_JMA := (Int_part (wx1 / IZR TILE_SIZE / tile_count_factor) + 1)%Z in
        let ty1_JMA := (Int_part (wy1 / IZR TILE_SIZE / tile_count_factor) + 1)%Z in
        ty_JMA ← int_range ty0_JMA ty1_JMA;
        tx_JMA ← int_range tx0_JMA tx1_JMA;
        let nx := tile_nx tx_JMA maxT_JMA in
        let ny := tile_ny ty_JMA maxT_JMA in
        let wx_jma_start := (IZR (tx_JMA * TILE_SIZE) * tile_count_factor)%R in
        let wy_jma_start := (IZR (ty_JMA * TILE_SIZE) * tile_count_factor)%R in
        let sx := ((wx_jma_start - originWX g) * current_scale g)%R in
        let sy := ((wy_jma_start - originWY g) * current_scale g)%R in
        let draw_size := (IZR TILE_SIZE * current_scale g * tile_count_factor)%R in
        let dst := RectF sx sy (sx + draw_size) (sy + draw_size) in
        if on_screen g dst
        then [(jma_tile_path (basetime T, validtime T) zJMA nx ny, dst)] else []
    end.

(** ** Bitmaps made, released and dropped *)

(** The part of [WM_DESTROY] on the cache.  [gPool.reset()] before it joins
    the workers, whose last steps belong to the run that precedes. *)
Definition WM_DESTROY (s : Globals) : Globals :=
  mkGlobals ∅ None (hwnd s)
            (gLog s ++ (map_to_list (gCache s) ≫= λ kv, SAFE_RELEASE (bmp kv.2))).

Definition holds_bitmap (kv : string * Img) : Prop := is_Some (bmp kv.2).

(** Number of entries of the cache that hold a bitmap. *)
Definition live (c : gmap string Img) : nat := size (filter holds_bitmap c).

Definition is_Release (e : effect) : bool :=
  match e with Release _ => true | _ => false end.

(** Number of [Release] calls so far. *)
Definition releases (s : Globals) : nat :=
  length (filter (λ e, is_Release e = true) (gLog s)).

Definition makes_bitmap (LoadPngToD2D : list BYTE → option ID2D1Bitmap) (e : effect)
  : bool :=
  match e with
  | Decode png => bool_decide (is_Some (LoadPngToD2D png))
  | _ => false
  end.

(** Number of decoder calls so far that returned a bitmap. *)
Definition bitmaps_made (LoadPngToD2D : list BYTE → option ID2D1Bitmap) (s : Globals)
  : nat :=
  length (filter (λ e, makes_bitmap LoadPngToD2D e = true) (gLog s)).

(** Whether the step [e] from [s] is a fetch job that failed and erases an
    entry that holds a bitmap. *)
Definition drops (s : Globals) (e : event) : nat :=
  match e with
  | WorkerFinish w net =>
      match gPool s with
      | Some p =>
          match workers p !! w with
          | Some (Some j) =>
              match gCache s !! job_key j with
              | Some it =>
                  if (HttpGet net []).1 then 0
                  else if bmp it is Some _ then 1 else 0
              | None => 0
              end
          | _ => 0
          end
      | None => 0
      end
  | _ => 0
  end.

(** Number of such steps along the run [evs] from [s]. *)
Fixpoint dropped (LoadPngToD2D : list BYTE → option ID2D1Bitmap)
    (s : Globals) (evs : list event) : nat :=
  match evs with
  | [] => 0
  | e :: evs' => drops s e + dropped LoadPngToD2D (step LoadPngToD2D s e) evs'
  end.

(** The bitmaps made so far, with the [n] there were at the start, are
    released, in the cache, or among the [d] dropped. *)
Definition balanced (LoadPngToD2D : list BYTE → option ID2D1Bitmap)
    (s : Globals) (n d : nat) : Prop :=
  bitmaps_made LoadPngToD2D s + n = releases s + live (gCache s) + d.

(** Whether an entry there is holds a bitmap, as a number. *)
Definition has (it : option Img) : nat :=
  match it with Some (mkImg _ (Some _) _) => 1 | _ => 0 end.

(** ** Jobs held by the pool, calls along a run *)

(** The fetch jobs for [key] that the pool holds: in the queue, or taken by a
    worker and not finished. *)
Definition pool_jobs (key : string) (s : Globals) : list job :=
  match gPool s with
  | Some p => filter (λ j, job_key j = key) (tasks p ++ in_flight p)
  | None => []
  end.

(** [e] is a call for [key], or a worker taking a job. *)
Definition call_or_take (key : string) (e : event) : Prop :=
  match e with
  | Call k _ _ => k = key
  | WorkerTake _ => True
  | WorkerFinish _ _ => False
  end.

(** What the calls for [key] along the run [evs] from [s] add to the log and
    return, in order. *)
Fixpoint calls_for (LoadPngToD2D : list BYTE → option ID2D1Bitmap) (key : string)
    (evs : list event) (s : Globals)
  : list (list effect * (option ID2D1Bitmap * bool)) :=
  match evs with
  | [] => []
  | e :: evs' =>
      let s' := step LoadPngToD2D s e in
      match e with
      | Call k now isOverlay =>
          if decide (k = key)
          then [(drop (length (gLog s)) (gLog s'),
                 (GetOrFetchBitmap LoadPngToD2D k now isOverlay s).2)]
          else []
      | _ => []
      end ++ calls_for LoadPngToD2D key evs' s'
  end.

(** [e] is a call for [key]. *)
Definition is_Call_for (key : string) (e : event) : bool :=
  match e with Call k _ _ => bool_decide (k = key) | _ => false end.

(** The entry of [key], if there is one, has neither bytes nor bitmap, and
    the pool holds no job for [key]. *)
Definition settled_empty (key : string) (s : Globals) : Prop :=
  pool_jobs key s = [] ∧
  ∀ it, gCache s !! key = Some it → bytes it = [] ∧ bmp it = None.

Definition is_Call (e : event) : bool :=
  match e with Call _ _ _ => true | _ => false end.

(** The Tokyo tile is requested, then 256 other tiles, then the Tokyo tile
    again: calls only, no worker takes a step. *)
Definition pending_evicted_run : list event :=
  [Call tokyo_tile 1 false]
    ++ requests false ((λ i, (gsi_tile_path 9 (Z.of_nat i) 200, Z.of_nat (2 + i))) <$> seq 0 256)
    ++ [Call tokyo_tile 300 false].

(** * Properties *)

(** ** The sort *)

#[local] Instance by_lastUsed_trans : Transitive by_lastUsed.
Proof. intros a b c; unfold by_lastUsed; lia. Qed.

Lemma sort_insert_Permutation a v : sort_insert a v ≡ₚ a :: v.
Proof.
  induction v as [|b v IH]; simpl; [done|].
  destruct (older b a); [|done].
  rewrite IH. apply Permutation_swap.
Qed.

Lemma std_sort_Permutation v : std_sort v ≡ₚ v.
Proof.
  induction v as [|a v IH]; simpl; [done|].
  unfold std_sort in *; simpl. by rewrite sort_insert_Permutation, IH.
Qed.

Lemma sort_insert_HdRel x a v :
  by_lastUsed x a → HdRel by_lastUsed x v → HdRel by_lastUsed x (sort_insert a v).
Proof.
  intros Hxa Hxv. destruct v as [|b v]; simpl; [by constructor|].
  destruct (older b a); constructor; [by inversion Hxv | done].
Qed.

Lemma sort_insert_Sorted a v :
  Sorted by_lastUsed v → Sorted by_lastUsed (sort_insert a v).
Proof.
  induction 1 as [|b v Hv IH Hb]; simpl; [by repeat constructor|].
  destruct (older b a) eqn:Hba; unfold older in Hba.
  - constructor; [done|]. apply sort_insert_HdRel; [|done].
    unfold by_lastUsed. apply Z.ltb_lt in Hba. lia.
  - constructor; [by constructor|]. constructor.
    unfold by_lastUsed. apply Z.ltb_ge in Hba. lia.
Qed.

Lemma std_sort_Sorted v : Sorted by_lastUsed (std_sort v).
Proof.
  induction v as [|a v IH]; [constructor|]. by apply sort_insert_Sorted.
Qed.

Lemma std_sort_StronglySorted v : StronglySorted by_lastUsed (std_sort v).
Proof. apply Sorted_StronglySorted, std_sort_Sorted; apply _. Qed.

(** ** The entries listed by [PurgeOldTiles] *)

Lemma purge_order_length c : length (purge_order c) = size c.
Proof.
  unfold purge_order. rewrite (Permutation_length (std_sort_Permutation _)).
  by rewrite length_fmap, length_map_to_list.
Qed.

Lemma purge_order_elem c k t :
  (k, t) ∈ purge_order c ↔ ∃ it, c !! k = Some it ∧ lastUsed it = t.
Proof.
  unfold purge_order. rewrite std_sort_Permutation, list_elem_of_fmap. split.
  - intros [[k' it] [Heq Hin]]. simpl in Heq. injection Heq as -> ->.
    exists it. by rewrite <- elem_of_map_to_list.
  - intros (it & Hk & <-). exists (k, it). by rewrite elem_of_map_to_list.
Qed.

Lemma purge_order_keys c : (purge_order c).*1 ≡ₚ (map_to_list c).*1.
Proof.
  unfold purge_order. by rewrite std_sort_Permutation, <- list_fmap_compose.
Qed.

Lemma purge_order_NoDup c : NoDup (purge_order c).*1.
Proof. rewrite purge_order_keys. apply NoDup_fst_map_to_list. Qed.

(** ** The removal loop *)

Lemma purge_one_cache s k : gCache (purge_one s k) = delete k (gCache s).
Proof.
  unfold purge_one. destruct (gCache s !! k) eqn:Hk; [done|].
  by rewrite delete_id.
Qed.

Lemma purge_one_log s k :
  gLog (purge_one s k) = gLog s ++ SAFE_RELEASE (gCache s !! k ≫= bmp).
Proof.
  unfold purge_one. destruct (gCache s !! k); simpl; [done|].
  by rewrite app_nil_r.
Qed.

Lemma purge_one_pool s k : gPool (purge_one s k) = gPool s ∧ hwnd (purge_one s k) = hwnd s.
Proof. unfold purge_one. by destruct (gCache s !! k). Qed.

Lemma purge_loop_lookup ks s k :
  gCache (foldl purge_one s ks) !! k =
  if decide (k ∈ ks) then None else gCache s !! k.
Proof.
  revert s. induction ks as [|k0 ks IH]; intros s.
  - simpl. destruct (decide (k ∈ [])) as [H|H]; [by apply elem_of_nil in H | done].
  - cbn [foldl]. rewrite IH, purge_one_cache.
    destruct (decide (k ∈ ks)) as [Hin|Hnin].
    + rewrite decide_True; [done|]. by right.
    + destruct (decide (k = k0)) as [->|Hne].
      * rewrite lookup_delete_eq, decide_True; [done|]. by left.
      * rewrite lookup_delete_ne by done. rewrite decide_False; [done|].
        rewrite elem_of_cons. tauto.
Qed.

Lemma purge_loop_size ks s :
  NoDup ks → (∀ k, k ∈ ks → is_Some (gCache s !! k)) →
  size (gCache (foldl purge_one s ks)) = size (gCache s) - length ks.
Proof.
  revert s. induction ks as [|k0 ks IH]; intros s Hnd Hin; simpl; [lia|].
  apply NoDup_cons in Hnd as [Hk0 Hnd].
  destruct (Hin k0) as [it Hit]; [left|].
  rewrite IH; [|done|].
  - rewrite purge_one_cache, map_size_delete_Some by eauto.
    assert (size (gCache s) ≠ 0); [|lia].
    eapply map_size_ne_0_lookup_2; eauto.
  - intros k Hk. rewrite purge_one_cache, lookup_delete_ne.
    + apply Hin. by right.
    + intros <-. done.
Qed.

Lemma purge_loop_log ks s :
  NoDup ks →
  gLog (foldl purge_one s ks) =
  gLog s ++ (ks ≫= λ k, SAFE_RELEASE (gCache s !! k ≫= bmp)).
Proof.
  revert s. induction ks as [|k0 ks IH]; intros s Hnd; simpl.
  - by rewrite app_nil_r.
  - apply NoDup_cons in Hnd as [Hk0 Hnd].
    rewrite IH by done. rewrite purge_one_log, <- app_assoc. do 2 f_equal.
    apply Forall_bind_ext, Forall_forall. intros k Hk.
    rewrite purge_one_cache, lookup_delete_ne; [done|]. by intros <-.
Qed.

Lemma purge_loop_pool ks s :
  gPool (foldl purge_one s ks) = gPool s ∧ hwnd (foldl purge_one s ks) = hwnd s.
Proof.
  revert s. induction ks as [|k0 ks IH]; intros s; simpl; [done|].
  destruct (IH (purge_one s k0)) as [-> ->]. apply purge_one_pool.
Qed.

(** ** [PurgeOldTiles] *)

Lemma PurgeOldTiles_over s :
  kCacheLimit < size (gCache s) →
  PurgeOldTiles s = foldl purge_one s (purged (gCache s)).
Proof.
  intros Hsz. unfold PurgeOldTiles, purged.
  rewrite decide_False by lia. by rewrite purge_order_length.
Qed.

Lemma PurgeOldTiles_under s :
  size (gCache s) ≤ kCacheLimit → PurgeOldTiles s = s.
Proof. intros Hsz. unfold PurgeOldTiles. by rewrite decide_True. Qed.

Lemma purged_NoDup c : NoDup (purged c).
Proof.
  unfold purged. rewrite fmap_take.
  eapply sublist_NoDup; [apply purge_order_NoDup | apply sublist_take].
Qed.

Lemma purged_length c : length (purged c) = size c - kCacheLimit.
Proof.
  unfold purged. rewrite length_fmap, length_take, purge_order_length. lia.
Qed.

Lemma purged_present c k : k ∈ purged c → is_Some (c !! k).
Proof.
  unfold purged. intros Hk. apply list_elem_of_fmap in Hk as [[k' t] [-> Hin]].
  apply (λ H, elem_of_sublist _ _ _ H (sublist_take _ _)) in Hin.
  apply purge_order_elem in Hin as (it & Hit & _). simpl. eauto.
Qed.

Lemma PurgeOldTiles_size s :
  size (gCache (PurgeOldTiles s)) = min (size (gCache s)) kCacheLimit.
Proof.
  destruct (decide (size (gCache s) ≤ kCacheLimit)) as [Hle|Hgt].
  - rewrite PurgeOldTiles_under by done. lia.
  - rewrite PurgeOldTiles_over by lia.
    rewrite purge_loop_size, purged_length;
      [lia | apply purged_NoDup | apply purged_present].
Qed.

Lemma PurgeOldTiles_pool s :
  gPool (PurgeOldTiles s) = gPool s ∧ hwnd (PurgeOldTiles s) = hwnd s.
Proof.
  unfold PurgeOldTiles. case_decide; [done|]. apply purge_loop_pool.
Qed.

Lemma PurgeOldTiles_lookup s k :
  gCache (PurgeOldTiles s) !! k =
  if decide (kCacheLimit < size (gCache s) ∧ k ∈ purged (gCache s)) then None
  else gCache s !! k.
Proof.
  destruct (decide (size (gCache s) ≤ kCacheLimit)) as [Hle|Hgt].
  - rewrite PurgeOldTiles_under by done. rewrite decide_False; [done|lia].
  - rewrite PurgeOldTiles_over, purge_loop_lookup by lia.
    destruct (decide (k ∈ purged (gCache s))).
    + rewrite decide_True; [done|]. split; [lia|done].
    + rewrite decide_False; [done|]. tauto.
Qed.

(** ** Size of the cache along a run *)

Section CacheFacts.

Variable LoadPngToD2D : list BYTE → option ID2D1Bitmap.

#[local] Abbreviation GetOrFetch := (GetOrFetchBitmap LoadPngToD2D).

Lemma GetOrFetch_hit s key now ov it :
  gCache s !! key = Some it →
  GetOrFetch key now ov s =
  (emit (with_cache s (<[key := (touch LoadPngToD2D now it).1]> (gCache s)))
        (touch LoadPngToD2D now it).2,
   (bmp (touch LoadPngToD2D now it).1,
    bool_decide (bmp (touch LoadPngToD2D now it).1 ≠ None))).
Proof.
  intros Hit. unfold GetOrFetchBitmap. rewrite Hit.
  by destruct (touch LoadPngToD2D now it).
Qed.

Lemma GetOrFetch_hit_size s key now ov :
  is_Some (gCache s !! key) →
  size (gCache (GetOrFetch key now ov s).1) = size (gCache s).
Proof.
  intros [it Hit]. rewrite (GetOrFetch_hit _ _ _ _ it) by done. simpl.
  rewrite map_size_insert_Some; eauto.
Qed.

Lemma GetOrFetch_miss_cache s key now ov :
  gCache s !! key = None →
  gCache (GetOrFetch key now ov s).1 =
  gCache (PurgeOldTiles (with_cache s (<[key := mkImg [] None now]> (gCache s)))).
Proof.
  intros Hk. unfold GetOrFetchBitmap. rewrite Hk. simpl.
  by destruct (gPool (PurgeOldTiles _)).
Qed.

Lemma GetOrFetch_size s key now ov :
  size (gCache s) ≤ kCacheLimit →
  size (gCache (GetOrFetch key now ov s).1) ≤ kCacheLimit.
Proof.
  intros Hsz. destruct (gCache s !! key) as [it|] eqn:Hk.
  - rewrite GetOrFetch_hit_size; eauto.
  - rewrite GetOrFetch_miss_cache, PurgeOldTiles_size by done. lia.
Qed.

Lemma commit_fetch_size key ok buf s :
  size (gCache (commit_fetch key ok buf s)) ≤ size (gCache s).
Proof.
  unfold commit_fetch. destruct (gCache s !! key) as [it|] eqn:Hk; [|done].
  destruct ok; simpl.
  - rewrite map_size_insert_Some; eauto.
  - rewrite map_size_delete_Some; eauto. lia.
Qed.

Lemma step_size s e :
  size (gCache s) ≤ kCacheLimit → size (gCache (step LoadPngToD2D s e)) ≤ kCacheLimit.
Proof.
  intros Hsz. destruct e as [key now ov | w | w net]; simpl.
  - by apply GetOrFetch_size.
  - unfold worker_take. destruct (gPool s) as [p|]; [|done].
    destruct (workers p !! w) as [[j|]|]; try done. by destruct (tasks p).
  - unfold worker_finish. destruct (gPool s) as [p|]; [|done].
    destruct (workers p !! w) as [[j|]|]; try done.
    unfold fetch_job. destruct (HttpGet net []) as [ok buf].
    etrans; [apply commit_fetch_size|done].
Qed.

Lemma run_size s evs :
  size (gCache s) ≤ kCacheLimit → size (gCache (run LoadPngToD2D s evs)) ≤ kCacheLimit.
Proof.
  revert s. induction evs as [|e evs IH]; intros s Hsz; [done|].
  apply IH, step_size, Hsz.
Qed.

(** C1. Whatever the foreground thread and the workers do, starting from the
    empty cache of [WM_CREATE], the cache holds at most [kCacheLimit] (256)
    entries after every step, in particular when a call of
    [GetOrFetchBitmap] returns (first and second part: a run, and a run
    followed by one more call); the eviction pass cuts any cache down to the
    limit: after it the size is the smaller of the old size and the limit
    (third part). *)
Theorem cache_size_bounded (h : bool) (evs : list event)
    (key : string) (now : time_point) (isOverlay : bool) (s : Globals) :
  size (gCache (run LoadPngToD2D (startup h) evs)) ≤ kCacheLimit ∧
  size (gCache (GetOrFetch key now isOverlay (run LoadPngToD2D (startup h) evs)).1)
    ≤ kCacheLimit ∧
  size (gCache (PurgeOldTiles s)) = min (size (gCache s)) kCacheLimit.
Proof.
  assert (size (gCache (run LoadPngToD2D (startup h) evs)) ≤ kCacheLimit) as Hrun.
  { apply run_size. simpl. rewrite map_size_empty. unfold kCacheLimit. lia. }
  split; [done|]. split; [by apply GetOrFetch_size|]. apply PurgeOldTiles_size.
Qed.

End CacheFacts.

(** ** What the eviction pass removes *)

Lemma purge_order_split c n x1 x2 :
  x1 ∈ take n (purge_order c) → x2 ∈ drop n (purge_order c) → (x1.2 ≤ x2.2)%Z.
Proof.
  intros H1 H2.
  pose proof (std_sort_StronglySorted
    ((λ kv, (kv.1, lastUsed kv.2)) <$> map_to_list c)) as Hs.
  fold (purge_order c) in Hs. rewrite <- (take_drop n (purge_order c)) in Hs.
  apply StronglySorted_app in Hs as (Hs & _ & _). by apply Hs.
Qed.

Lemma purged_older c k1 it1 k2 it2 :
  c !! k1 = Some it1 → k1 ∈ purged c →
  c !! k2 = Some it2 → k2 ∉ purged c →
  (lastUsed it1 ≤ lastUsed it2)%Z.
Proof.
  intros Hk1 Hin1 Hk2 Hnin2. unfold purged in *.
  apply list_elem_of_fmap in Hin1 as [[k t1] [Heq Hin1]]. simpl in Heq. subst k.
  assert ((k1, t1) ∈ purge_order c) as Hv1.
  { eapply elem_of_sublist; [done | apply sublist_take]. }
  apply purge_order_elem in Hv1 as (it & Hit & <-).
  rewrite Hk1 in Hit. injection Hit as <-.
  assert ((k2, lastUsed it2) ∈ purge_order c) as Hv2.
  { apply purge_order_elem. eauto. }
  rewrite <- (take_drop (size c - kCacheLimit) (purge_order c)) in Hv2.
  apply elem_of_app in Hv2 as [Hv2|Hv2].
  - destruct Hnin2. apply list_elem_of_fmap. by exists (k2, lastUsed it2).
  - apply (purge_order_split _ _ _ _ Hin1 Hv2).
Qed.

(** A placeholder stored at [now] outlives the eviction pass that follows
    whenever the cache was within the limit and held an entry used strictly
    before [now]. *)
Lemma placeholder_survives s key now k' it' :
  gCache s !! key = None →
  size (gCache s) ≤ kCacheLimit →
  gCache s !! k' = Some it' → (lastUsed it' < now)%Z →
  gCache (PurgeOldTiles (with_cache s (<[key := mkImg [] None now]> (gCache s)))) !! key
  = Some (mkImg [] None now).
Proof.
  intros Hmiss Hsz Hk' Hold. rewrite PurgeOldTiles_lookup. simpl.
  set (c := <[key := mkImg [] None now]> (gCache s)).
  assert (c !! key = Some (mkImg [] None now)) as Hkey by apply lookup_insert_eq.
  assert (key ≠ k') as Hne by congruence.
  assert (c !! k' = Some it') as Hk'c by (unfold c; by rewrite lookup_insert_ne).
  rewrite decide_False; [done|]. intros [Hover Hin].
  assert (length (purged c) = 1) as Hlen.
  { rewrite purged_length. unfold c in *.
    rewrite map_size_insert_None in * by done. lia. }
  assert (k' ∉ purged c) as Hnin.
  { intros Hin'. pose proof (purged_NoDup c) as Hnd.
    destruct (purged c) as [|a [|b l]]; simpl in Hlen; try lia.
    apply list_elem_of_singleton in Hin, Hin'. congruence. }
  pose proof (purged_older c key _ k' it' Hkey Hin Hk'c Hnin) as Hle.
  simpl in Hle. lia.
Qed.

(** C3. When the eviction pass runs on a cache above the limit it leaves
    exactly [kCacheLimit] entries, so it removes [size - kCacheLimit] of them;
    the surviving entries are unchanged; every removed entry was last used no
    later than every surviving one (the removed ones are the oldest, whatever
    the order among equal time stamps); the pass releases the bitmap of each
    removed entry that has one and of no other entry, and the removed entries,
    bytes included, are gone from the cache. *)
Theorem PurgeOldTiles_removes_oldest (s : Globals) :
  kCacheLimit < size (gCache s) →
  let s' := PurgeOldTiles s in
  size (gCache s') = kCacheLimit ∧
  size (gCache s) - size (gCache s') = size (gCache s) - kCacheLimit ∧
  gCache s' ⊆ gCache s ∧
  (∀ k1 it1 k2 it2,
     gCache s !! k1 = Some it1 → gCache s' !! k1 = None →
     gCache s' !! k2 = Some it2 →
     (lastUsed it1 ≤ lastUsed it2)%Z) ∧
  (∃ released,
     gLog s' = gLog s ++ released ∧
     ∀ e, e ∈ released ↔
          ∃ k it b, gCache s !! k = Some it ∧ gCache s' !! k = None ∧
                    bmp it = Some b ∧ e = Release b) ∧
  gPool s' = gPool s.
Proof.
  intros Hsz s'.
  assert (∀ k, gCache s' !! k =
               if decide (k ∈ purged (gCache s)) then None else gCache s !! k) as Hlk.
  { intros k. unfold s'. rewrite PurgeOldTiles_lookup.
    destruct (decide (k ∈ purged (gCache s))).
    - rewrite decide_True; [done|]. by split.
    - rewrite decide_False; [done|]. tauto. }
  assert (size (gCache s') = kCacheLimit) as Hsz'.
  { unfold s'. rewrite PurgeOldTiles_size. lia. }
  assert (∀ k it, gCache s !! k = Some it →
                  (gCache s' !! k = None ↔ k ∈ purged (gCache s))) as Hrem.
  { intros k it Hit. rewrite Hlk. destruct (decide (k ∈ purged (gCache s))).
    - tauto.
    - rewrite Hit. split; [done|tauto]. }
  split; [done|]. split; [lia|]. split; [|split; [|split]].
  - apply map_subseteq_spec. intros k it. rewrite Hlk. by case_decide.
  - intros k1 it1 k2 it2 Hk1 Hgone Hk2.
    apply (Hrem _ _ Hk1) in Hgone. rewrite Hlk in Hk2.
    destruct (decide (k2 ∈ purged (gCache s))); [done|].
    by eapply purged_older.
  - exists (purged (gCache s) ≫= λ k, SAFE_RELEASE (gCache s !! k ≫= bmp)). split.
    + unfold s'. rewrite PurgeOldTiles_over by done.
      apply purge_loop_log, purged_NoDup.
    + intros e. rewrite list_elem_of_bind. split.
      * intros (k & He & Hk). destruct (purged_present _ _ Hk) as [it Hit].
        rewrite Hit in He. simpl in He. destruct (bmp it) as [b|] eqn:Hb; simpl in He.
        -- apply list_elem_of_singleton in He. exists k, it, b.
           by rewrite (Hrem _ _ Hit).
        -- by apply elem_of_nil in He.
      * intros (k & it & b & Hit & Hgone & Hb & ->). exists k.
        rewrite Hit. simpl. rewrite Hb. simpl. split; [by left|].
        by apply (Hrem _ _ Hit).
  - apply PurgeOldTiles_pool.
Qed.

(** ** What each step adds to the log *)

Lemma filter_none {A} (P : A → Prop) `{∀ x, Decision (P x)} (l : list A) :
  Forall (λ x, ¬ P x) l → filter P l = [].
Proof.
  induction 1 as [|x l Hx _ IH]; [done|]. by rewrite filter_cons_False.
Qed.

Lemma scheduled_log key s s' es :
  gLog s' = gLog s ++ es → Forall (λ e, is_Enqueue_for key e = false) es →
  scheduled key s' = scheduled key s.
Proof.
  intros Hlog Hes. unfold scheduled. rewrite Hlog, filter_app, length_app.
  rewrite (filter_none _ es); [simpl; lia|].
  eapply Forall_impl; [exact Hes|]. simpl. intros e ->. done.
Qed.

Lemma decodes_log s s' es :
  gLog s' = gLog s ++ es →
  decodes s' = decodes s + length (filter (λ e, is_Decode e = true) es).
Proof. intros Hlog. unfold decodes. by rewrite Hlog, filter_app, length_app. Qed.

Lemma PurgeOldTiles_log s :
  ∃ rel, gLog (PurgeOldTiles s) = gLog s ++ rel ∧
         Forall (λ e, ∃ b, e = Release b) rel.
Proof.
  unfold PurgeOldTiles. case_decide.
  - exists []. by rewrite app_nil_r.
  - eexists. split.
    + apply purge_loop_log. rewrite fmap_take.
      eapply sublist_NoDup; [apply purge_order_NoDup | apply sublist_take].
    + apply Forall_forall. intros e (k & He & _)%list_elem_of_bind.
      destruct (gCache s !! k ≫= bmp) as [b|]; simpl in He.
      * apply list_elem_of_singleton in He. eauto.
      * by apply elem_of_nil in He.
Qed.

Lemma commit_fetch_log key ok buf s :
  ∃ es, gLog (commit_fetch key ok buf s) = gLog s ++ es ∧
        Forall (λ e, e = PostTileReady) es.
Proof.
  unfold commit_fetch. destruct (gCache s !! key) as [it|].
  - destruct ok; simpl.
    + eexists; split; [done|]. destruct (hwnd s); repeat constructor.
    + exists []. by rewrite app_nil_r.
  - exists []. by rewrite app_nil_r.
Qed.

Section Settled.

Variable LoadPngToD2D : list BYTE → option ID2D1Bitmap.

#[local] Abbreviation GetOrFetch := (GetOrFetchBitmap LoadPngToD2D).
#[local] Abbreviation poll' := (poll LoadPngToD2D).

(** Once the bytes of an entry are gone, calls for its key neither decode nor
    schedule anything; they report the bitmap the entry has. *)
Lemma GetOrFetch_settled s key now ov it :
  gCache s !! key = Some it → bytes it = [] →
  GetOrFetch key now ov s =
  (with_cache s (<[key := mkImg [] (bmp it) now]> (gCache s)),
   (bmp it, bool_decide (bmp it ≠ None))).
Proof.
  intros Hit Hb. rewrite (GetOrFetch_hit _ _ _ _ _ it) by done.
  unfold touch. rewrite Hb. rewrite (bool_decide_eq_true_2 ([] = [])) by done.
  rewrite andb_false_r. simpl. unfold emit, with_cache. simpl.
  by rewrite app_nil_r.
Qed.

Lemma poll_settled ts s key ov it :
  gCache s !! key = Some it → bytes it = [] →
  ∃ t', poll' key ov ts s =
        (with_cache s (<[key := mkImg [] (bmp it) t']> (gCache s)),
         replicate (length ts) (bmp it, bool_decide (bmp it ≠ None))).
Proof.
  revert s it. induction ts as [|now ts IH]; intros s it Hit Hb.
  - exists (lastUsed it). simpl. f_equal. destruct s, it; simpl in *. subst.
    unfold with_cache. simpl. by rewrite insert_id.
  - cbn [poll]. rewrite (GetOrFetch_settled _ _ _ _ it) by done.
    destruct (IH (with_cache s (<[key := mkImg [] (bmp it) now]> (gCache s)))
                 (mkImg [] (bmp it) now)) as [t' Ht'];
      [by apply lookup_insert_eq | done |].
    rewrite Ht'. exists t'. simpl. unfold with_cache. simpl.
    by rewrite insert_insert_eq.
Qed.

End Settled.

Section Scheduling.

Variable LoadPngToD2D : list BYTE → option ID2D1Bitmap.

#[local] Abbreviation GetOrFetch := (GetOrFetchBitmap LoadPngToD2D).

Lemma touch_effects now it :
  (touch LoadPngToD2D now it).2 = [] ∨
  (touch LoadPngToD2D now it).2 = [Decode (bytes it)].
Proof. unfold touch. destruct (_ && _); simpl; auto. Qed.

Lemma GetOrFetch_hit_scheduled s key k now ov :
  is_Some (gCache s !! k) →
  scheduled key (GetOrFetch k now ov s).1 = scheduled key s ∧
  gPool (GetOrFetch k now ov s).1 = gPool s.
Proof.
  intros [it Hit]. rewrite (GetOrFetch_hit _ _ _ _ _ it) by done. simpl.
  split; [|done]. eapply scheduled_log; [done|].
  destruct (touch_effects now it) as [-> | ->]; repeat constructor.
Qed.

Lemma GetOrFetch_miss s k now ov :
  gCache s !! k = None →
  let s1 := PurgeOldTiles (with_cache s (<[k := mkImg [] None now]> (gCache s))) in
  (GetOrFetch k now ov s).2 = (None, false) ∧
  gCache (GetOrFetch k now ov s).1 = gCache s1 ∧
  hwnd (GetOrFetch k now ov s).1 = hwnd s ∧
  gPool (GetOrFetch k now ov s).1 = enqueue (mkJob k ov) <$> gPool s ∧
  gLog (GetOrFetch k now ov s).1 =
    gLog s1 ++ (if gPool s is Some _ then [Enqueue (mkJob k ov)] else []).
Proof.
  intros Hk s1. unfold GetOrFetchBitmap. rewrite Hk. fold s1.
  destruct (PurgeOldTiles_pool (with_cache s (<[k := mkImg [] None now]> (gCache s))))
    as [Hp Hh]. fold s1 in Hp, Hh. simpl in Hp, Hh. rewrite Hp.
  destruct (gPool s) as [p|]; simpl; rewrite ?app_nil_r; done.
Qed.

Lemma GetOrFetch_miss_scheduled s key k now ov :
  gCache s !! k = None →
  scheduled key (GetOrFetch k now ov s).1 =
  scheduled key s +
  (if gPool s is Some _ then if decide (k = key) then 1 else 0 else 0).
Proof.
  intros Hk. destruct (GetOrFetch_miss s k now ov Hk) as (_ & _ & _ & _ & Hlog).
  destruct (PurgeOldTiles_log (with_cache s (<[k := mkImg [] None now]> (gCache s))))
    as (rel & Hrel & Hall). rewrite Hrel in Hlog. simpl in Hlog.
  unfold scheduled. rewrite Hlog, !filter_app, !length_app.
  rewrite (filter_none _ rel).
  - destruct (gPool s); simpl; [|lia].
    rewrite filter_cons. simpl. destruct (decide (k = key)) as [->|Hne].
    + rewrite decide_True; [simpl; lia|]. by apply bool_decide_eq_true.
    + rewrite decide_False; [simpl; lia|]. by rewrite bool_decide_eq_true.
  - eapply Forall_impl; [exact Hall|]. simpl. by intros e [b ->].
Qed.

Lemma step_scheduled key s e :
  match e with
  | Call k _ _ => k = key → is_Some (gCache s !! key)
  | _ => True
  end →
  scheduled key (step LoadPngToD2D s e) = scheduled key s.
Proof.
  intros Hpres. destruct e as [k now ov | w | w net]; simpl.
  - destruct (gCache s !! k) as [it|] eqn:Hk.
    + apply GetOrFetch_hit_scheduled. eauto.
    + rewrite GetOrFetch_miss_scheduled by done.
      destruct (gPool s); [|lia]. destruct (decide (k = key)) as [->|]; [|lia].
      destruct (Hpres eq_refl) as [it Hit]. congruence.
  - unfold worker_take. destruct (gPool s) as [p|]; [|done].
    destruct (workers p !! w) as [[j|]|]; try done. by destruct (tasks p).
  - unfold worker_finish. destruct (gPool s) as [p|]; [|done].
    destruct (workers p !! w) as [[j|]|]; try done.
    unfold fetch_job. destruct (HttpGet net []) as [ok buf].
    destruct (commit_fetch_log (job_key j) ok buf
      (with_pool s (mkPool (<[w:=None]> (workers p)) (tasks p)))) as (es & Hes & Hall).
    eapply (scheduled_log _ s); [exact Hes|].
    eapply Forall_impl; [exact Hall|]. by intros e ->.
Qed.

Lemma run_scheduled key evs s :
  present_at_calls LoadPngToD2D key evs s →
  scheduled key (run LoadPngToD2D s evs) = scheduled key s.
Proof.
  revert s. induction evs as [|e evs IH]; intros s Hpres; [done|].
  destruct Hpres as [He Hrest].
  change (run LoadPngToD2D s (e :: evs))
    with (run LoadPngToD2D (step LoadPngToD2D s e) evs).
  rewrite IH by done. by apply step_scheduled.
Qed.

End Scheduling.

(** ** What the pool holds for a key *)

Lemma in_flight_take (ws : list (option job)) (w : nat) (j : job) :
  ws !! w = Some None →
  omap (λ t, t) (<[w := Some j]> ws) ≡ₚ j :: omap (λ t, t) ws.
Proof.
  revert w. induction ws as [|[j'|] ws IH]; intros [|w] Hw; try done; csimpl.
  - rewrite (IH w Hw). apply Permutation_swap.
  - by apply IH.
Qed.

Lemma in_flight_finish (ws : list (option job)) (w : nat) (j : job) :
  ws !! w = Some (Some j) →
  omap (λ t, t) ws ≡ₚ j :: omap (λ t, t) (<[w := None]> ws).
Proof.
  revert w. induction ws as [|[j'|] ws IH]; intros [|w] Hw; try done; csimpl.
  - by injection Hw as ->.
  - rewrite (IH w Hw). apply Permutation_swap.
  - by apply IH.
Qed.

Lemma pool_jobs_take key s w :
  length (pool_jobs key (worker_take w s)) = length (pool_jobs key s).
Proof.
  unfold worker_take, pool_jobs. destruct (gPool s) as [p|] eqn:Hp; [|by rewrite Hp].
  destruct (workers p !! w) as [[j|]|] eqn:Hw; try by rewrite Hp.
  destruct (tasks p) as [|j rest] eqn:Ht; [by rewrite Hp, Ht|].
  simpl. unfold in_flight. simpl.
  rewrite (in_flight_take _ _ j Hw).
  by rewrite Permutation_middle.
Qed.

Lemma pool_jobs_finish key s w net :
  length (pool_jobs key (worker_finish w net s)) ≤ length (pool_jobs key s).
Proof.
  unfold worker_finish. destruct (gPool s) as [p|] eqn:Hp; [|done].
  destruct (workers p !! w) as [[j|]|] eqn:Hw; try done.
  set (s1 := with_pool s (mkPool (<[w := None]> (workers p)) (tasks p))).
  assert (gPool (fetch_job j net s1) = gPool s1) as Hpool.
  { unfold fetch_job, commit_fetch. destruct (HttpGet net []) as [ok buf].
    destruct (gCache s1 !! job_key j); [|done]. by destruct ok. }
  unfold pool_jobs. rewrite Hpool, Hp. simpl. unfold in_flight. simpl.
  rewrite (in_flight_finish _ _ _ Hw).
  rewrite <- Permutation_middle, filter_cons. destruct (decide _); simpl; lia.
Qed.

Section Queue.

Variable LoadPngToD2D : list BYTE → option ID2D1Bitmap.

#[local] Abbreviation GetOrFetch := (GetOrFetchBitmap LoadPngToD2D).

Lemma pool_jobs_hit key s k now ov :
  is_Some (gCache s !! k) →
  pool_jobs key (GetOrFetch k now ov s).1 = pool_jobs key s.
Proof.
  intros Hk. unfold pool_jobs.
  by rewrite (proj2 (GetOrFetch_hit_scheduled LoadPngToD2D s key k now ov Hk)).
Qed.

Lemma pool_jobs_miss key s k now ov :
  gCache s !! k = None →
  length (pool_jobs key (GetOrFetch k now ov s).1)
  = length (pool_jobs key s)
    + (if gPool s is Some _ then if decide (k = key) then 1 else 0 else 0).
Proof.
  intros Hk.
  destruct (GetOrFetch_miss LoadPngToD2D s k now ov Hk) as (_ & _ & _ & Hpool & _).
  unfold pool_jobs. rewrite Hpool. destruct (gPool s) as [p|]; [|done].
  unfold enqueue, in_flight. simpl.
  rewrite !filter_app, !length_app, filter_cons, filter_nil. simpl.
  destruct (decide (k = key)); simpl; lia.
Qed.

Lemma step_pool_jobs key s e :
  match e with
  | Call k _ _ => k = key → is_Some (gCache s !! key)
  | _ => True
  end →
  length (pool_jobs key (step LoadPngToD2D s e)) ≤ length (pool_jobs key s).
Proof.
  intros Hpres. destruct e as [k now ov | w | w net]; simpl.
  - destruct (gCache s !! k) as [it|] eqn:Hk.
    + rewrite pool_jobs_hit by eauto. lia.
    + rewrite pool_jobs_miss by done. destruct (gPool s); [|lia].
      destruct (decide (k = key)) as [->|]; [|lia].
      destruct (Hpres eq_refl) as [it Hit]. congruence.
  - by rewrite pool_jobs_take.
  - apply pool_jobs_finish.
Qed.

Lemma run_pool_jobs key evs s :
  present_at_calls LoadPngToD2D key evs s →
  length (pool_jobs key (run LoadPngToD2D s evs)) ≤ length (pool_jobs key s).
Proof.
  revert s. induction evs as [|e evs IH]; intros s Hpres; [done|].
  destruct Hpres as [He Hrest].
  change (run LoadPngToD2D s (e :: evs))
    with (run LoadPngToD2D (step LoadPngToD2D s e) evs).
  etrans; [by apply IH|]. by apply step_pool_jobs.
Qed.

(** Calls for the key and workers taking jobs: the entry stays, and so does
    what the pool holds for the key. *)
Lemma run_calls_takes key evs s :
  Forall (call_or_take key) evs →
  is_Some (gCache s !! key) →
  let s' := run LoadPngToD2D s evs in
  is_Some (gCache s' !! key) ∧
  scheduled key s' = scheduled key s ∧
  length (pool_jobs key s') = length (pool_jobs key s).
Proof.
  intros Hevs. revert s. induction Hevs as [|e evs He _ IH]; intros s Hin; [done|].
  change (run LoadPngToD2D s (e :: evs))
    with (run LoadPngToD2D (step LoadPngToD2D s e) evs).
  assert (is_Some (gCache (step LoadPngToD2D s e) !! key) ∧
          scheduled key (step LoadPngToD2D s e) = scheduled key s ∧
          length (pool_jobs key (step LoadPngToD2D s e)) = length (pool_jobs key s))
    as (Hin' & Hs & Hp).
  { destruct e as [k now ov | w | w net]; simpl in *; [subst k| |done].
    - destruct Hin as [it Hit].
      split; [|split].
      + rewrite (GetOrFetch_hit _ _ _ _ _ it) by done. simpl.
        rewrite lookup_insert_eq. eauto.
      + apply GetOrFetch_hit_scheduled. eauto.
      + rewrite pool_jobs_hit; eauto.
    - split; [|split].
      + unfold worker_take. destruct (gPool s) as [p|]; [|done].
        destruct (workers p !! w) as [[j|]|]; try done. by destruct (tasks p).
      + by apply (step_scheduled LoadPngToD2D key s (WorkerTake w)).
      + apply pool_jobs_take. }
  destruct (IH _ Hin') as (H1 & H2 & H3).
  split; [done|]. split; [by rewrite H2|by rewrite H3].
Qed.

(** C2, as the code has it.  A call of [GetOrFetchBitmap] for a key that has
    no entry, with the worker pool running, returns not-ready, puts exactly
    one fetch job for the key at the back of the queue and leaves the
    placeholder in the cache (below the limit, or at the limit when some
    entry was used strictly earlier).  From then on, however the foreground
    calls (for this or other keys) and the workers interleave, as long as
    every call for the key finds an entry for it, no further job is
    scheduled for the key and the pool holds at most that one more job for
    it.  The entry is there for any number of calls for the key made with no
    call for another key in between, whether or not workers take jobs
    meanwhile: the pool then holds exactly one more job for the key. *)
Theorem fetch_scheduled_once (s : Globals) (p : ThreadPool) (key : string)
    (now : time_point) (isOverlay : bool) (evs : list event) :
  gPool s = Some p →
  gCache s !! key = None →
  let r := GetOrFetch key now isOverlay s in
  present_at_calls LoadPngToD2D key evs r.1 →
  r.2 = (None, false) ∧
  gPool r.1 = Some (mkPool (workers p) (tasks p ++ [mkJob key isOverlay])) ∧
  scheduled key r.1 = S (scheduled key s) ∧
  length (pool_jobs key r.1) = S (length (pool_jobs key s)) ∧
  (size (gCache s) < kCacheLimit → gCache r.1 !! key = Some (mkImg [] None now)) ∧
  (size (gCache s) ≤ kCacheLimit →
   (∃ k' it', gCache s !! k' = Some it' ∧ (lastUsed it' < now)%Z) →
   gCache r.1 !! key = Some (mkImg [] None now)) ∧
  scheduled key (run LoadPngToD2D r.1 evs) = S (scheduled key s) ∧
  length (pool_jobs key (run LoadPngToD2D r.1 evs)) ≤ S (length (pool_jobs key s)) ∧
  (∀ evs', Forall (call_or_take key) evs' → is_Some (gCache r.1 !! key) →
           let s' := run LoadPngToD2D r.1 evs' in
           is_Some (gCache s' !! key) ∧
           scheduled key s' = S (scheduled key s) ∧
           length (pool_jobs key s') = S (length (pool_jobs key s))) ∧
  (∀ ts, is_Some (gCache r.1 !! key) →
         scheduled key (poll LoadPngToD2D key isOverlay ts r.1).1 = S (scheduled key s)).
Proof.
  intros Hp Hk r Hpres.
  destruct (GetOrFetch_miss LoadPngToD2D s key now isOverlay Hk)
    as (Hres & Hc & _ & Hpool & _).
  fold r in Hres, Hc, Hpool.
  assert (scheduled key r.1 = S (scheduled key s)) as Hone.
  { unfold r. rewrite (GetOrFetch_miss_scheduled LoadPngToD2D) by done.
    rewrite Hp, decide_True by done. lia. }
  assert (length (pool_jobs key r.1) = S (length (pool_jobs key s))) as Hjobs.
  { unfold r. rewrite pool_jobs_miss by done. rewrite Hp, decide_True by done. lia. }
  split; [done|]. split; [by rewrite Hpool, Hp|]. split; [done|]. split; [done|].
  split.
  { intros Hsz. rewrite Hc, PurgeOldTiles_under; simpl.
    - by rewrite lookup_insert_eq.
    - rewrite map_size_insert_None by done. lia. }
  split.
  { intros Hsz (k' & it' & Hk' & Hold). rewrite Hc.
    by eapply placeholder_survives. }
  split; [by rewrite (run_scheduled LoadPngToD2D)|].
  split; [rewrite <- Hjobs; by apply run_pool_jobs|]. split.
  { intros evs' Hevs Hin s'.
    destruct (run_calls_takes key evs' r.1 Hevs Hin) as (H1 & H2 & H3).
    fold s' in H1, H2, H3. split; [done|]. split; [by rewrite H2|by rewrite H3]. }
  intros ts [it Hit].
  assert (it = mkImg [] None now) as ->.
  { rewrite Hc, PurgeOldTiles_lookup in Hit. case_decide; [done|].
    simpl in Hit. rewrite lookup_insert_eq in Hit. by injection Hit. }
  destruct (poll_settled LoadPngToD2D ts r.1 key isOverlay _ Hit eq_refl) as [t' Ht'].
  rewrite Ht'. by rewrite <- Hone.
Qed.

End Queue.

(** ** [HttpGet] *)

Lemma HttpGet_result net out :
  HttpGet net out =
  if net_open net && net_connect net && net_request net then
    if net_send net && net_receive net && Z.eqb (net_status net) 200 then
      ((read_loop (net_body net) out).1
         && negb (bool_decide ((read_loop (net_body net) out).2 = [])),
       (read_loop (net_body net) out).2)
    else (false, out)
  else (false, out).
Proof.
  unfold HttpGet.
  destruct (net_open net), (net_connect net), (net_request net); simpl; try done.
  destruct (net_send net), (net_receive net); simpl; try done.
  destruct (Z.eqb (net_status net) 200); simpl; [|done].
  by destruct (read_loop (net_body net) out).
Qed.

Lemma HttpGet_ok net out :
  (HttpGet net out).1 = true →
  net_status net = 200%Z ∧ (HttpGet net out).2 ≠ [] ∧
  (HttpGet net out).2 = (read_loop (net_body net) out).2.
Proof.
  rewrite HttpGet_result.
  destruct (net_open net && net_connect net && net_request net); [|done].
  destruct (net_send net && net_receive net); [|done]. simpl.
  destruct (Z.eqb (net_status net) 200) eqn:Hst; [|done]. simpl.
  intros [_ Hne%negb_true_iff%bool_decide_eq_false]%andb_true_iff.
  split; [by apply Z.eqb_eq|done].
Qed.

Lemma HttpGet_error net out :
  net_open net && net_connect net && net_request net
    && net_send net && net_receive net = false ∨ net_status net ≠ 200%Z →
  (HttpGet net out).1 = false.
Proof.
  rewrite HttpGet_result. intros [Herr|Hst].
  - destruct (net_open net), (net_connect net), (net_request net); simpl in *; try done.
    destruct (net_send net), (net_receive net); simpl in *; done.
  - apply Z.eqb_neq in Hst. rewrite Hst, andb_false_r.
    by destruct (net_open net && net_connect net && net_request net).
Qed.

Lemma HttpGet_no_body net :
  (read_loop (net_body net) []).2 = [] → (HttpGet net []).1 = false.
Proof.
  intros Hb. rewrite HttpGet_result, Hb. simpl. rewrite andb_false_r.
  destruct (net_open net && net_connect net && net_request net); [|done].
  by destruct (net_send net && net_receive net && Z.eqb (net_status net) 200).
Qed.

(** ** The fetch job *)

Lemma fetch_job_failed j net s :
  (HttpGet net []).1 = false → is_Some (gCache s !! job_key j) →
  fetch_job j net s = with_cache s (delete (job_key j) (gCache s)).
Proof.
  intros Hok [it Hit]. unfold fetch_job.
  destruct (HttpGet net []) as [ok buf]. simpl in Hok. subst ok.
  unfold commit_fetch. by rewrite Hit.
Qed.

Lemma fetch_job_absent j net s :
  gCache s !! job_key j = None → fetch_job j net s = s.
Proof.
  intros Hk. unfold fetch_job. destruct (HttpGet net []) as [ok buf].
  unfold commit_fetch. by rewrite Hk.
Qed.

(** ** Calls that find an entry *)

Section Polling.

Variable LoadPngToD2D : list BYTE → option ID2D1Bitmap.

#[local] Abbreviation GetOrFetch := (GetOrFetchBitmap LoadPngToD2D).
#[local] Abbreviation poll' := (poll LoadPngToD2D).

(** C6, as the code has it.  A call that finds an entry without a bitmap:
    - with no bytes (Pending), returns [(none, false)] and calls no decoder;
    - with bytes (BytesReady), decodes them on this call, exactly once,
      drops the bytes, stores the outcome and returns it: the bitmap with
      [true] when the decoder succeeds, [(none, false)] only when it fails.
    Either way the entry is left without bytes, and the calls for the key
    that follow call no decoder again. *)
Theorem GetOrFetch_without_bitmap (s : Globals) (key : string) (now : time_point)
    (isOverlay : bool) (it : Img) (ts : list time_point) :
  gCache s !! key = Some it →
  bmp it = None →
  let r := GetOrFetch key now isOverlay s in
  let decoded := if bool_decide (bytes it = []) then None else LoadPngToD2D (bytes it) in
  r.2 = (decoded, bool_decide (decoded ≠ None)) ∧
  (bytes it = [] ∨ LoadPngToD2D (bytes it) = None → r.2 = (None, false)) ∧
  gCache r.1 = <[key := mkImg [] decoded now]> (gCache s) ∧
  gLog r.1 = gLog s ++ (if bool_decide (bytes it = []) then [] else [Decode (bytes it)]) ∧
  decodes r.1 = decodes s + (if bool_decide (bytes it = []) then 0 else 1) ∧
  decodes (poll' key isOverlay ts r.1).1 = decodes r.1.
Proof.
  intros Hit Hbmp r decoded.
  assert (r = (emit (with_cache s (<[key := mkImg [] decoded now]> (gCache s)))
                 (if bool_decide (bytes it = []) then [] else [Decode (bytes it)]),
               (decoded, bool_decide (decoded ≠ None)))) as Hr.
  { unfold r. rewrite (GetOrFetch_hit _ _ _ _ _ it) by done.
    unfold touch, decoded. rewrite Hbmp.
    rewrite (bool_decide_eq_true_2 (None = None)) by done. simpl.
    destruct (bool_decide (bytes it = [])) eqn:Hb; simpl; [|done].
    apply bool_decide_eq_true in Hb. by rewrite Hb. }
  rewrite Hr. simpl. split; [done|]. split; [|split; [done|split; [done|split]]].
  - unfold decoded. intros [Hb| Hfail].
    + by rewrite (bool_decide_eq_true_2 _ Hb).
    + rewrite Hfail. by destruct (bool_decide (bytes it = [])).
  - erewrite decodes_log; [|done].
    by destruct (bool_decide (bytes it = [])).
  - edestruct (poll_settled LoadPngToD2D ts) as [t' Ht'];
      [| |rewrite Ht']; [by apply lookup_insert_eq|done|done].
Qed.

End Polling.

(** ** After a failed decode *)

Section DecodeFailure.

Variable LoadPngToD2D : list BYTE → option ID2D1Bitmap.

#[local] Abbreviation GetOrFetch := (GetOrFetchBitmap LoadPngToD2D).

Lemma pool_jobs_nil_length key s : length (pool_jobs key s) = 0 → pool_jobs key s = [].
Proof. by destruct (pool_jobs key s). Qed.

Lemma commit_fetch_other key k ok buf s :
  k ≠ key → gCache (commit_fetch k ok buf s) !! key = gCache s !! key.
Proof.
  intros Hne. unfold commit_fetch. destruct (gCache s !! k) as [it|]; [|done].
  destruct ok; simpl.
  - by rewrite lookup_insert_ne.
  - by rewrite lookup_delete_ne.
Qed.

Lemma step_settled_empty key s e :
  match e with
  | Call k _ _ => k = key → is_Some (gCache s !! key)
  | _ => True
  end →
  settled_empty key s →
  settled_empty key (step LoadPngToD2D s e) ∧
  calls_for LoadPngToD2D key [e] s
  = match e with
    | Call k _ _ => if decide (k = key) then [([], (None, false))] else []
    | _ => []
    end.
Proof.
  intros Hpres [Hjobs Hent].
  assert (∀ s', length (pool_jobs key s') ≤ length (pool_jobs key s) → pool_jobs key s' = [])
    as Hnil.
  { intros s' Hle. apply pool_jobs_nil_length. rewrite Hjobs in Hle. simpl in Hle. lia. }
  destruct e as [k now ov | w | w net]; simpl.
  - destruct (decide (k = key)) as [->|Hne].
    + destruct (Hpres eq_refl) as [it Hit]. destruct (Hent it Hit) as [Hb Hbmp].
      rewrite (GetOrFetch_settled LoadPngToD2D s key now ov it Hit Hb). simpl.
      rewrite Hbmp, drop_all. split; [|done]. split; [done|].
      intros it'. simpl. rewrite lookup_insert_eq. by intros [= <-].
    + split; [|done]. split.
      * apply Hnil. by apply (step_pool_jobs LoadPngToD2D key s (Call k now ov)).
      * intros it'. destruct (gCache s !! k) as [it0|] eqn:Hk.
        -- rewrite (GetOrFetch_hit _ _ _ _ _ it0) by done. simpl.
           rewrite lookup_insert_ne by done. apply Hent.
        -- rewrite (GetOrFetch_miss_cache LoadPngToD2D) by done.
           rewrite PurgeOldTiles_lookup. case_decide; [done|]. simpl.
           rewrite lookup_insert_ne by done. apply Hent.
  - split; [|done]. split.
    + apply Hnil. by rewrite pool_jobs_take.
    + unfold worker_take. destruct (gPool s) as [p|]; [|done].
      destruct (workers p !! w) as [[j|]|]; try done. by destruct (tasks p).
  - split; [|done]. split; [apply Hnil, pool_jobs_finish|].
    unfold worker_finish. destruct (gPool s) as [p|] eqn:Hp; [|done].
    destruct (workers p !! w) as [[j|]|] eqn:Hw; try done.
    assert (job_key j ≠ key) as Hne.
    { intros Hj. unfold pool_jobs in Hjobs. rewrite Hp in Hjobs.
      assert (j ∈ filter (λ j, job_key j = key) (tasks p ++ in_flight p)) as Hin.
      { apply list_elem_of_filter. split; [done|]. apply elem_of_app. right.
        apply list_elem_of_omap. exists (Some j). split; [|done].
        by eapply list_elem_of_lookup_2. }
      rewrite Hjobs in Hin. by apply elem_of_nil in Hin. }
    intros it'. unfold fetch_job. destruct (HttpGet net []) as [ok buf].
    rewrite commit_fetch_other by done. apply Hent.
Qed.

Lemma calls_for_cons key e evs s :
  calls_for LoadPngToD2D key (e :: evs) s
  = calls_for LoadPngToD2D key [e] s ++ calls_for LoadPngToD2D key evs (step LoadPngToD2D s e).
Proof. simpl. by rewrite app_nil_r. Qed.

Lemma run_settled_empty key evs s :
  present_at_calls LoadPngToD2D key evs s →
  settled_empty key s →
  settled_empty key (run LoadPngToD2D s evs) ∧
  calls_for LoadPngToD2D key evs s
  = replicate (length (filter (λ e, is_Call_for key e = true) evs)) ([], (None, false)).
Proof.
  revert s. induction evs as [|e evs IH]; intros s Hpres Hs; [done|].
  destruct Hpres as [He Hrest].
  destruct (step_settled_empty key s e He Hs) as [Hs' Hcall].
  destruct (IH _ Hrest Hs') as [Hend Hcalls].
  split; [done|]. rewrite calls_for_cons, Hcall, Hcalls, filter_cons.
  destruct e as [k ? ?| |]; simpl; try done.
  destruct (decide (k = key)) as [->|Hne].
  - rewrite decide_True; [done|]. by apply bool_decide_eq_true.
  - rewrite decide_False; [done|]. by rewrite bool_decide_eq_true.
Qed.

#[local] Abbreviation poll' := (poll LoadPngToD2D).

(** C7, as the code has it.  When the decoder fails on the bytes of an
    entry, the call returns not-ready and leaves the entry with no bytes and
    no bitmap: the very value a miss stores as placeholder (no separate
    Failed state; it differs from BytesReady only).  The entry stays in the
    cache, and the calls for the key that follow at once all return
    not-ready, call no decoder, schedule no fetch and keep the entry.  More
    generally, when the pool holds no other job for the key, then however
    calls and worker steps interleave afterwards, as long as every call for
    the key finds an entry for it, every such call adds nothing to the log
    and returns not-ready, no fetch is scheduled for the key and its entry
    stays without bytes and bitmap.  The state is not final otherwise: when
    a worker still holds a job for the key and its fetch succeeds with bytes
    that decode, the next call for the key returns the bitmap. *)
Theorem decode_failure_is_final (s : Globals) (key : string) (now : time_point)
    (isOverlay : bool) (it : Img) (ts : list time_point) :
  gCache s !! key = Some it →
  bmp it = None →
  bytes it ≠ [] →
  LoadPngToD2D (bytes it) = None →
  let r := GetOrFetch key now isOverlay s in
  let p := poll' key isOverlay ts r.1 in
  r.2 = (None, false) ∧
  gCache r.1 !! key = Some (mkImg [] None now) ∧
  dom (gCache r.1) = dom (gCache s) ∧
  p.2 = replicate (length ts) (None, false) ∧
  gLog p.1 = gLog r.1 ∧
  gPool p.1 = gPool s ∧
  (∃ t', gCache p.1 !! key = Some (mkImg [] None t')) ∧
  dom (gCache p.1) = dom (gCache s) ∧
  (∀ evs, pool_jobs key s = [] →
          present_at_calls LoadPngToD2D key evs r.1 →
          let s' := run LoadPngToD2D r.1 evs in
          calls_for LoadPngToD2D key evs r.1
          = replicate (length (filter (λ e, is_Call_for key e = true) evs))
                      ([], (None, false)) ∧
          scheduled key s' = scheduled key s ∧
          pool_jobs key s' = [] ∧
          ∀ it', gCache s' !! key = Some it' → bytes it' = [] ∧ bmp it' = None) ∧
  (∀ pl w j net buf b now',
     gPool s = Some pl → workers pl !! w = Some (Some j) → job_key j = key →
     HttpGet net [] = (true, buf) → LoadPngToD2D buf = Some b →
     (GetOrFetch key now' isOverlay (worker_finish w net r.1)).2 = (Some b, true)).
Proof.
  intros Hit Hbmp Hbytes Hfail r p.
  assert (r = (emit (with_cache s (<[key := mkImg [] None now]> (gCache s)))
                 [Decode (bytes it)], (None, false))) as Hr.
  { unfold r. rewrite (GetOrFetch_hit _ _ _ _ _ it) by done.
    unfold touch. rewrite Hbmp, Hfail.
    rewrite (bool_decide_eq_true_2 (None = None)) by done.
    by rewrite (bool_decide_eq_false_2 _ Hbytes). }
  assert (dom (<[key := mkImg [] None now]> (gCache s)) = dom (gCache s)) as Hdom.
  { apply dom_insert_lookup_L. eauto. }
  destruct (poll_settled LoadPngToD2D ts r.1 key isOverlay (mkImg [] None now)) as [t' Ht'];
    [rewrite Hr; by apply lookup_insert_eq | done |].
  fold p in Ht'. rewrite Ht'. rewrite Hr. simpl.
  split; [done|]. split; [by apply lookup_insert_eq|]. split; [done|].
  split; [done|]. split; [done|]. split; [done|]. split.
  { exists t'. by rewrite lookup_insert_eq. }
  split.
  { by rewrite insert_insert_eq, (dom_insert_lookup_L _ _ _ (mk_is_Some _ _ Hit)). }
  split.
  - intros evs Hjobs Hpres.
    set (s1 := emit (with_cache s (<[key := mkImg [] None now]> (gCache s)))
                    [Decode (bytes it)]) in *.
    assert (settled_empty key s1) as Hs1.
    { split; [done|]. intros it'. unfold s1. simpl. rewrite lookup_insert_eq.
      by intros [= <-]. }
    destruct (run_settled_empty key evs s1 Hpres Hs1) as [[Hj He] Hcalls].
    split; [done|]. split; [|done].
    rewrite (run_scheduled LoadPngToD2D) by done.
    unfold scheduled, s1. simpl. rewrite filter_app, length_app. simpl. lia.
  - intros pl w j net buf b now' Hp Hw Hj Hget Hb.
    unfold worker_finish. simpl. rewrite Hp, Hw. unfold fetch_job. rewrite Hget.
    unfold commit_fetch. simpl. rewrite Hj, lookup_insert_eq. simpl.
    assert (buf ≠ []) as Hbuf.
    { pose proof (HttpGet_ok net []) as Hok. rewrite Hget in Hok.
      by destruct (Hok eq_refl) as (_ & ? & _). }
    erewrite (GetOrFetch_hit LoadPngToD2D); [|simpl; apply lookup_insert_eq].
    unfold touch. simpl.
    rewrite (bool_decide_eq_false_2 _ Hbuf). simpl. rewrite Hb. done.
Qed.

End DecodeFailure.

(** ** Failed and late fetches *)

Section Retry.

Variable LoadPngToD2D : list BYTE → option ID2D1Bitmap.

#[local] Abbreviation GetOrFetch := (GetOrFetchBitmap LoadPngToD2D).

(** C8. [HttpGet] fails on a network error and on any status other than 200.
    When the job's [HttpGet] failed and the entry of its key is still there,
    the job erases the entry and posts nothing; the next call for the key is
    then a miss: it returns not-ready, stores a new placeholder and, with the
    pool running, puts a new job for the key at the back of the queue (one
    [Enqueue] more in the log, one job more for the key in the pool).  When
    the entry is gone by the time the job commits, the job changes nothing,
    whatever [HttpGet] gave: fetched bytes are dropped. *)
Theorem fetch_failure_allows_retry (s : Globals) (j : job) (net : WinHttp)
    (now : time_point) (isOverlay : bool) :
  (net_open net && net_connect net && net_request net
     && net_send net && net_receive net = false ∨ net_status net ≠ 200%Z →
   (HttpGet net []).1 = false) ∧
  ((HttpGet net []).1 = false →
   is_Some (gCache s !! job_key j) →
   size (gCache s) ≤ kCacheLimit →
   let s' := fetch_job j net s in
   let r := GetOrFetch (job_key j) now isOverlay s' in
   gCache s' = delete (job_key j) (gCache s) ∧
   gLog s' = gLog s ∧ gPool s' = gPool s ∧
   r.2 = (None, false) ∧
   gCache r.1 = <[job_key j := mkImg [] None now]> (delete (job_key j) (gCache s)) ∧
   (∀ p, gPool s = Some p →
         gPool r.1 = Some (mkPool (workers p) (tasks p ++ [mkJob (job_key j) isOverlay])) ∧
         gLog r.1 = gLog s ++ [Enqueue (mkJob (job_key j) isOverlay)] ∧
         scheduled (job_key j) r.1 = S (scheduled (job_key j) s) ∧
         length (pool_jobs (job_key j) r.1) = S (length (pool_jobs (job_key j) s))) ∧
   (gPool s = None → gPool r.1 = None ∧ gLog r.1 = gLog s)) ∧
  (gCache s !! job_key j = None → fetch_job j net s = s).
Proof.
  split; [apply HttpGet_error|]. split; [|apply fetch_job_absent].
  intros Hfail Hpres Hsz s' r.
  assert (s' = with_cache s (delete (job_key j) (gCache s))) as Hs'
    by by apply fetch_job_failed.
  assert (gCache s' !! job_key j = None) as Hgone
    by (rewrite Hs'; apply lookup_delete_eq).
  destruct (GetOrFetch_miss LoadPngToD2D s' (job_key j) now isOverlay Hgone)
    as (Hres & Hc & _ & Hpool & Hlog).
  fold r in Hres, Hc, Hpool, Hlog.
  assert (PurgeOldTiles (with_cache s' (<[job_key j := mkImg [] None now]> (gCache s')))
          = with_cache s' (<[job_key j := mkImg [] None now]> (gCache s'))) as Hpurge.
  { apply PurgeOldTiles_under. rewrite Hs'. simpl.
    rewrite map_size_insert_None by apply lookup_delete_eq.
    destruct Hpres as [it Hit].
    pose proof (map_size_ne_0_lookup_2 _ _ (mk_is_Some _ _ Hit)).
    rewrite map_size_delete_Some by eauto. lia. }
  rewrite Hpurge in Hc, Hlog. simpl in Hc, Hlog.
  split; [by rewrite Hs'|]. split; [by rewrite Hs'|]. split; [by rewrite Hs'|].
  split; [done|]. split; [by rewrite Hc, Hs'|]. split.
  - intros p Hp.
    assert (gPool s' = Some p) as Hp' by by rewrite Hs'.
    rewrite Hp' in Hpool, Hlog. simpl in Hpool.
    split; [done|]. split; [by rewrite Hlog, Hs'|]. split.
    + unfold r. rewrite (GetOrFetch_miss_scheduled LoadPngToD2D) by done.
      rewrite Hp', decide_True by done. rewrite Hs'. unfold scheduled. simpl. lia.
    + unfold r. rewrite (pool_jobs_miss LoadPngToD2D) by done.
      rewrite Hp', decide_True by done. rewrite Hs'. unfold pool_jobs. simpl. lia.
  - intros Hnone.
    assert (gPool s' = None) as Hp' by by rewrite Hs'.
    rewrite Hp' in Hpool, Hlog. simpl in Hpool. rewrite app_nil_r in Hlog.
    split; [done|]. by rewrite Hlog, Hs'.
Qed.

End Retry.

(** C10. [HttpGet] reports success only for status 200 with a non-empty
    buffer, which is then what the read loop gathered.  When the exchange has
    status 200 but the read loop gathers no byte (an empty body), [HttpGet]
    reports failure, and a job whose entry is still cached erases the entry
    exactly as after a network error: the log is unchanged, so no
    [WM_TILE_READY] is posted. *)
Theorem empty_body_is_failure (net : WinHttp) (j : job) (s : Globals) :
  ((HttpGet net []).1 = true →
   net_status net = 200%Z ∧ (HttpGet net []).2 ≠ [] ∧
   (HttpGet net []).2 = (read_loop (net_body net) []).2) ∧
  (net_status net = 200%Z →
   (read_loop (net_body net) []).2 = [] →
   is_Some (gCache s !! job_key j) →
   (HttpGet net []).1 = false ∧
   gCache (fetch_job j net s) = delete (job_key j) (gCache s) ∧
   gLog (fetch_job j net s) = gLog s ∧
   PostTileReady ∉ drop (length (gLog s)) (gLog (fetch_job j net s))).
Proof.
  split; [apply HttpGet_ok|]. intros _ Hbody Hpres.
  pose proof (HttpGet_no_body net Hbody) as Hfail.
  rewrite fetch_job_failed by done. simpl.
  split; [done|]. split; [done|]. split; [done|].
  rewrite drop_all. apply not_elem_of_nil.
Qed.

(** ** Overlay zoom *)

Lemma clamp_int_min_max v lo hi :
  (lo ≤ hi)%Z → clamp_int v lo hi = Z.min (Z.max v lo) hi.
Proof.
  intros Hlh. unfold clamp_int.
  destruct (Z.ltb_spec v lo); [lia|]. destruct (Z.ltb_spec hi v); lia.
Qed.

Lemma zJMA_candidate_integer (n : Z) : zJMA_candidate (inject_Z n) = (n - 1)%Z.
Proof.
  unfold zJMA_candidate. rewrite Qfloor_Z.
  by rewrite (proj2 (Qeq_bool_iff _ _) (Qeq_refl _)).
Qed.

Lemma zJMA_candidate_fraction (zoom : Q) :
  ¬ Qeq zoom (inject_Z (Qfloor zoom)) → zJMA_candidate zoom = Qfloor zoom.
Proof.
  intros Hne. unfold zJMA_candidate.
  destruct (Qeq_bool zoom (inject_Z (Qfloor zoom))) eqn:Heq; [|done].
  by apply Qeq_bool_iff in Heq.
Qed.

(** C5. For every zoom, the overlay zoom used is the rule of the
    specification: with [f] the floor of the zoom, the candidate is [f - 1]
    when the zoom equals [f] and [f] otherwise, and the candidate is clamped
    into [4, 13].  At zoom 7.0 the candidate is 6, at zoom 7.3 it is 7. *)
Theorem overlay_zoom_rule (zoom : Q) :
  zJMA_candidate zoom =
    (if Qeq_dec zoom (inject_Z (Qfloor zoom)) then Qfloor zoom - 1 else Qfloor zoom)%Z ∧
  zJMA zoom = spec_overlay_zoom zoom ∧
  (4 ≤ zJMA zoom ≤ 13)%Z ∧
  zJMA_candidate (7 # 1) = 6%Z ∧ zJMA_candidate (73 # 10) = 7%Z ∧
  zJMA (7 # 1) = 6%Z ∧ zJMA (73 # 10) = 7%Z.
Proof.
  assert (zJMA_candidate zoom =
    (if Qeq_dec zoom (inject_Z (Qfloor zoom)) then Qfloor zoom - 1 else Qfloor zoom)%Z)
    as Hcand.
  { destruct (Qeq_dec zoom (inject_Z (Qfloor zoom))) as [Heq|Hne].
    - unfold zJMA_candidate. by rewrite (proj2 (Qeq_bool_iff _ _) Heq).
    - by apply zJMA_candidate_fraction. }
  split; [done|]. split; [|split].
  - unfold zJMA, GetJmaZoomLevel, spec_overlay_zoom.
    rewrite clamp_int_min_max by done. rewrite Hcand.
    by destruct (Qeq_dec zoom (inject_Z (Qfloor zoom))).
  - unfold zJMA, GetJmaZoomLevel. rewrite clamp_int_min_max by done.
    unfold MIN_DL_ZOOM, MAX_DL_ZOOM. lia.
  - by vm_compute.
Qed.

(** ** Cross-fade *)

Lemma Qltb_lt a b : Qltb a b = true ↔ (a < b)%Q.
Proof.
  unfold Qltb. rewrite negb_true_iff. split.
  - intros H. apply Qnot_le_lt. intros Hle. apply Qle_bool_iff in Hle. congruence.
  - intros Hlt. destruct (Qle_bool b a) eqn:Hle; [|done].
    apply Qle_bool_iff in Hle. by apply Qle_not_lt in Hle.
Qed.

Lemma Qltb_ge a b : Qltb a b = false ↔ (b <= a)%Q.
Proof. unfold Qltb. rewrite negb_false_iff. apply Qle_bool_iff. Qed.

(** ** Single precision *)

(** ** Powers of two *)

Lemma pow2_pos (e : Z) : (0 < 2 ^ e)%Q.
Proof. by apply Qpower_0_lt. Qed.

Lemma pow2_succ (e : Z) : (2 ^ (e + 1) == 2 * 2 ^ e)%Q.
Proof. rewrite Qpower_plus by done. change (2 ^ 1)%Q with 2%Q. ring. Qed.

Lemma pow2_le (a b : Z) : (a ≤ b)%Z → (2 ^ a <= 2 ^ b)%Q.
Proof. intros. by apply Qpower_le_compat_l. Qed.

Lemma pow2_lt_inv (a b : Z) : (2 ^ a < 2 ^ b)%Q → (a < b)%Z.
Proof. intros. by apply (Qpower_lt_compat_l_inv 2). Qed.

(** ** The binary logarithm *)

Lemma Qlog2_spec (x : Q) :
  (0 < x)%Q → (2 ^ Qlog2 x <= x)%Q ∧ (x < 2 ^ (Qlog2 x + 1))%Q.
Proof.
  intros Hx. destruct x as [n d]. unfold Qlt in Hx. simpl in Hx.
  assert (0 < n)%Z as Hn by lia. clear Hx.
  unfold Qlog2. cbn [Qnum Qden]. rewrite (Z.abs_eq n) by lia.
  set (a := Z.log2 n). set (b := Z.log2 (Zpos d)).
  assert (0 ≤ a)%Z as Ha by apply Z.log2_nonneg.
  assert (0 ≤ b)%Z as Hb by apply Z.log2_nonneg.
  destruct (Z.log2_spec n Hn) as [Hn1 Hn2]. fold a in Hn1, Hn2.
  destruct (Z.log2_spec (Zpos d)) as [Hd1 Hd2]; [done|]. fold b in Hd1, Hd2.
  rewrite <- Z.add_1_r in Hn2, Hd2.
  rewrite Zle_Qle in Hn1, Hd1. rewrite Zlt_Qlt in Hn2, Hd2.
  rewrite !Zpower_Qpower in Hn1, Hn2, Hd1, Hd2 by lia.
  change (inject_Z 2) with 2%Q in *. rewrite pow2_succ in Hn2, Hd2.
  pose proof (pow2_pos a) as HA. pose proof (pow2_pos b) as HB.
  pose proof (pow2_pos (a - b)) as HP.
  assert (2 ^ (a - b) * 2 ^ b == 2 ^ a)%Q as HPB.
  { rewrite <- Qpower_plus by done. by replace (a - b + b)%Z with a by lia. }
  assert ((n # d) * inject_Z (Zpos d) == inject_Z n)%Q as Hxd.
  { rewrite (Qmake_Qdiv n d). field. done. }
  set (x := (n # d)%Q) in *. set (D := inject_Z (Zpos d)) in *.
  set (N := inject_Z n) in *. set (A := (2 ^ a)%Q) in *. set (B := (2 ^ b)%Q) in *.
  set (P := (2 ^ (a - b))%Q) in *.
  assert (0 < x)%Q as Hx by (unfold x, Qlt; simpl; lia).
  assert (x < 2 * P)%Q as Hup.
  { apply (Qmult_lt_r _ _ B); [done|]. nra. }
  assert (P < 2 * x)%Q as Hlo.
  { apply (Qmult_lt_r _ _ B); [done|]. nra. }
  destruct (Qle_bool P x) eqn:Hc.
  - apply Qle_bool_iff in Hc. split; [done|]. fold P. rewrite pow2_succ. by fold P.
  - assert (x < P)%Q as Hc'.
    { apply Qnot_le_lt. intros H. apply Qle_bool_iff in H. congruence. }
    replace (a - b - 1 + 1)%Z with (a - b)%Z by lia. fold P. split; [|done].
    assert (2 * 2 ^ (a - b - 1) == P)%Q as Heq.
    { rewrite <- pow2_succ. unfold P. by replace (a - b - 1 + 1)%Z with (a - b)%Z by lia. }
    lra.
Qed.
(** ** Rounding to the nearest integer *)

Lemma round_half_even_cases (m : Q) :
  (round_half_even m = Qfloor m ∧ (m - inject_Z (Qfloor m) <= 1 # 2)%Q) ∨
  (round_half_even m = (Qfloor m + 1)%Z ∧ (1 # 2 <= m - inject_Z (Qfloor m))%Q).
Proof.
  unfold round_half_even.
  destruct (Qltb _ (1 # 2)) eqn:H1.
  - apply Qltb_lt in H1. left. split; [done|lra].
  - apply Qltb_ge in H1. destruct (Qltb (1 # 2) _) eqn:H2.
    + right. by split.
    + apply Qltb_ge in H2. destruct (Z.even _); [left|right]; by split.
Qed.

Lemma round_half_even_error (m : Q) :
  (m - (1 # 2) <= inject_Z (round_half_even m) <= m + (1 # 2))%Q.
Proof.
  pose proof (Qfloor_le m) as Hlo. pose proof (Qlt_floor m) as Hhi.
  rewrite inject_Z_plus in Hhi. change (inject_Z 1) with 1%Q in Hhi.
  destruct (round_half_even_cases m) as [[-> H]|[-> H]].
  - lra.
  - rewrite inject_Z_plus. change (inject_Z 1) with 1%Q. lra.
Qed.

Lemma round_half_even_Z (n : Z) : round_half_even (inject_Z n) = n.
Proof.
  unfold round_half_even. rewrite Qfloor_Z.
  rewrite (proj2 (Qltb_lt _ _)); [done|]. lra.
Qed.

Lemma round_half_even_mono (m m' : Q) :
  (m <= m')%Q → (round_half_even m ≤ round_half_even m')%Z.
Proof.
  intros Hle. pose proof (Qfloor_resp_le _ _ Hle) as Hf.
  destruct (decide (Qfloor m = Qfloor m')) as [Heq|Hne].
  - unfold round_half_even. rewrite <- Heq.
    set (f := Qfloor m). set (r := (m - inject_Z f)%Q). set (r' := (m' - inject_Z f)%Q).
    assert (r <= r')%Q as Hr by (unfold r, r'; lra).
    destruct (Qltb r (1 # 2)) eqn:H1; destruct (Qltb r' (1 # 2)) eqn:H1';
      destruct (Qltb (1 # 2) r) eqn:H2; destruct (Qltb (1 # 2) r') eqn:H2';
      rewrite ?Qltb_lt, ?Qltb_ge in *; destruct (Z.even f); try lia; lra.
  - destruct (round_half_even_cases m) as [[-> _]|[-> _]];
      destruct (round_half_even_cases m') as [[-> _]|[-> _]]; lia.
Qed.

(** ** Rounding to single precision *)

Lemma float_round_0 : float_round 0 = 0%Q.
Proof. done. Qed.

(** The value before [Qred]. *)
Lemma float_round_unfold (x : Q) :
  ¬ (x == 0)%Q →
  (float_round x
   == inject_Z (round_half_even (x / 2 ^ float_exponent x)) * 2 ^ float_exponent x)%Q.
Proof.
  intros Hx. unfold float_round.
  destruct (Qeq_bool x 0) eqn:H0; [by apply Qeq_bool_iff in H0|].
  apply Qred_correct.
Qed.

Lemma float_round_nonneg (x : Q) : (0 <= x)%Q → (0 <= float_round x)%Q.
Proof.
  intros Hx. destruct (Qeq_dec x 0) as [H0|H0].
  - unfold float_round. by rewrite (proj2 (Qeq_bool_iff _ _) H0).
  - rewrite float_round_unfold by done.
    pose proof (pow2_pos (float_exponent x)) as He.
    apply Qmult_le_0_compat; [|lra].
    change 0%Q with (inject_Z 0). rewrite <- Zle_Qle.
    rewrite <- (round_half_even_Z 0). apply round_half_even_mono.
    change (inject_Z 0) with 0%Q. apply Qle_shift_div_l; [done|]. lra.
Qed.

Lemma float_round_nonpos (x : Q) : (x <= 0)%Q → (float_round x <= 0)%Q.
Proof.
  intros Hx. destruct (Qeq_dec x 0) as [H0|H0].
  - unfold float_round. by rewrite (proj2 (Qeq_bool_iff _ _) H0).
  - rewrite float_round_unfold by done.
    pose proof (pow2_pos (float_exponent x)) as He.
    assert (inject_Z (round_half_even (x / 2 ^ float_exponent x)) <= 0)%Q as Hr.
    { change 0%Q with (inject_Z 0). rewrite <- Zle_Qle.
      rewrite <- (round_half_even_Z 0). apply round_half_even_mono.
      change (inject_Z 0) with 0%Q. apply Qle_shift_div_r; [done|]. lra. }
    nra.
Qed.

(** The scaled significand of a positive [x] is below [2 ^ 24], and from
    [2 ^ 23] on unless [x] is subnormal. *)
Lemma float_significand (x : Q) :
  (0 < x)%Q →
  let e := float_exponent x in
  (x / 2 ^ e < 2 ^ 24)%Q ∧
  ((float_emin < e)%Z → (2 ^ 23 <= x / 2 ^ e)%Q) ∧
  (2 ^ (e + 23) <= x → 2 ^ 23 <= x / 2 ^ e)%Q.
Proof.
  intros Hx e. destruct (Qlog2_spec x Hx) as [Hlo Hhi].
  pose proof (pow2_pos e) as He.
  assert (2 ^ (e + 23) == 2 ^ 23 * 2 ^ e)%Q as H23.
  { rewrite Qpower_plus by done. ring. }
  assert (2 ^ (e + 24) == 2 ^ 24 * 2 ^ e)%Q as H24.
  { rewrite Qpower_plus by done. ring. }
  assert (Qlog2 x + 1 ≤ e + 24)%Z as Hle.
  { unfold e, float_exponent, float_prec. lia. }
  pose proof (pow2_le _ _ Hle) as Hp.
  split; [|split].
  - apply Qlt_shift_div_r; [done|]. lra.
  - intros Hn. assert (e + 23 = Qlog2 x)%Z as Heq.
    { unfold e, float_exponent, float_prec in *. lia. }
    apply Qle_shift_div_l; [done|]. rewrite <- H23, Heq. done.
  - intros Hb. apply Qle_shift_div_l; [done|]. by rewrite <- H23.
Qed.
Lemma Qlog2_mono (x y : Q) : (0 < x)%Q → (x <= y)%Q → (Qlog2 x ≤ Qlog2 y)%Z.
Proof.
  intros Hx Hxy. destruct (Qlog2_spec x Hx) as [Hlo _].
  destruct (Qlog2_spec y) as [_ Hhi]; [lra|].
  assert (2 ^ Qlog2 x < 2 ^ (Qlog2 y + 1))%Q as H by lra.
  apply pow2_lt_inv in H. lia.
Qed.

Lemma float_round_mono (x y : Q) :
  (0 <= x)%Q → (x <= y)%Q → (float_round x <= float_round y)%Q.
Proof.
  intros Hx Hxy. destruct (Qeq_dec x 0) as [H0|H0].
  { unfold float_round at 1. rewrite (proj2 (Qeq_bool_iff _ _) H0).
    apply float_round_nonneg. lra. }
  assert (0 < x)%Q as Hx' by lra. assert (0 < y)%Q as Hy' by lra.
  rewrite (float_round_unfold x), (float_round_unfold y) by lra.
  set (ex := float_exponent x). set (ey := float_exponent y).
  pose proof (pow2_pos ex) as Hex. pose proof (pow2_pos ey) as Hey.
  assert (ex ≤ ey)%Z as Hee.
  { pose proof (Qlog2_mono x y Hx' Hxy). unfold ex, ey, float_exponent. lia. }
  destruct (decide (ex = ey)) as [Heq|Hne].
  - rewrite Heq. apply Qmult_le_compat_r; [|lra].
    rewrite <- Zle_Qle. apply round_half_even_mono.
    apply Qmult_le_compat_r; [done|]. apply Qlt_le_weak, Qinv_lt_0_compat, Hey.
  - destruct (float_significand x Hx') as (Hxs & _). fold ex in Hxs.
    destruct (float_significand y Hy') as (_ & Hys & _). fold ey in Hys.
    assert (float_emin < ey)%Z as Hn.
    { assert (float_emin ≤ ex)%Z by (unfold ex, float_exponent; lia). lia. }
    specialize (Hys Hn).
    assert (inject_Z (round_half_even (x / 2 ^ ex)) <= 2 ^ 24)%Q as Hrx.
    { change (2 ^ 24)%Q with (inject_Z (2 ^ 24)). rewrite <- Zle_Qle.
      rewrite <- (round_half_even_Z (2 ^ 24)). apply round_half_even_mono.
      change (inject_Z (2 ^ 24)) with (2 ^ 24)%Q. lra. }
    assert (2 ^ 23 <= inject_Z (round_half_even (y / 2 ^ ey)))%Q as Hry.
    { change (2 ^ 23)%Q with (inject_Z (2 ^ 23)). rewrite <- Zle_Qle.
      rewrite <- (round_half_even_Z (2 ^ 23)) at 1. apply round_half_even_mono.
      change (inject_Z (2 ^ 23)) with (2 ^ 23)%Q. lra. }
    assert (2 * 2 ^ ex <= 2 ^ ey)%Q as Hpow.
    { rewrite <- pow2_succ. apply pow2_le. lia. }
    apply Qle_trans with (2 ^ 24 * 2 ^ ex)%Q.
    + apply Qmult_le_compat_r; [done|lra].
    + apply Qle_trans with (2 ^ 23 * 2 ^ ey)%Q.
      * change (2 ^ 24)%Q with (2 * 2 ^ 23)%Q. nra.
      * apply Qmult_le_compat_r; [done|lra].
Qed.

(** In the normal range the relative error is at most [2 ^ -24]. *)
Lemma float_round_relative (x : Q) :
  (2 ^ (-126) <= x)%Q →
  (x * (1 - 2 ^ (-24)) <= float_round x <= x * (1 + 2 ^ (-24)))%Q.
Proof.
  intros Hn. assert (0 < x)%Q as Hx.
  { pose proof (pow2_pos (-126)). lra. }
  rewrite float_round_unfold by lra.
  set (e := float_exponent x). pose proof (pow2_pos e) as He.
  destruct (float_significand x Hx) as (_ & _ & Hs). fold e in Hs.
  assert (2 ^ (e + 23) <= x)%Q as Hb.
  { destruct (Qlog2_spec x Hx) as [Hlo Hhi].
    assert (-126 ≤ Qlog2 x)%Z as Hl.
    { assert (2 ^ (-126) < 2 ^ (Qlog2 x + 1))%Q as H by lra.
      apply pow2_lt_inv in H. lia. }
    assert (e + 23 = Qlog2 x)%Z as ->; [|done].
    unfold e, float_exponent, float_prec, float_emin. lia. }
  specialize (Hs Hb).
  pose proof (round_half_even_error (x / 2 ^ e)) as Herr.
  set (m := (x / 2 ^ e)%Q) in *.
  set (r := inject_Z (round_half_even m)) in *.
  assert (x == m * 2 ^ e)%Q as Hxm by (unfold m; field; lra).
  change (2 ^ (-24))%Q with (1 # 16777216)%Q.
  change (2 ^ 23)%Q with 8388608%Q in Hs.
  rewrite Hxm. split; nra.
Qed.

(** Up to 1 the error is at most [2 ^ -24]. *)
Lemma float_round_near (x : Q) :
  (0 <= x <= 1)%Q →
  (x - 2 ^ (-24) <= float_round x <= x + 2 ^ (-24))%Q.
Proof.
  intros [Hx0 Hx1]. change (2 ^ (-24))%Q with (1 # 16777216)%Q.
  destruct (Qeq_dec x 0) as [H0|H0].
  { unfold float_round. rewrite (proj2 (Qeq_bool_iff _ _) H0). lra. }
  assert (0 < x)%Q as Hx by lra.
  rewrite float_round_unfold by lra.
  set (e := float_exponent x). pose proof (pow2_pos e) as He.
  assert (e ≤ -23)%Z as Hle.
  { destruct (Qlog2_spec x Hx) as [Hlo _].
    assert (2 ^ Qlog2 x < 2 ^ 1)%Q as H by (change (2 ^ 1)%Q with 2%Q; lra).
    apply pow2_lt_inv in H.
    unfold e, float_exponent, float_prec, float_emin. lia. }
  pose proof (pow2_le _ _ Hle) as Hp. change (2 ^ (-23))%Q with (1 # 8388608)%Q in Hp.
  pose proof (round_half_even_error (x / 2 ^ e)) as Herr.
  set (m := (x / 2 ^ e)%Q) in *.
  set (r := inject_Z (round_half_even m)) in *.
  assert (x == m * 2 ^ e)%Q as Hxm by (unfold m; field; lra).
  rewrite Hxm. split; nra.
Qed.

(** The result is in lowest terms, so equal values are the same term. *)
Lemma float_round_Qred (x : Q) : Qred (float_round x) = float_round x.
Proof.
  unfold float_round. destruct (Qeq_bool x 0); [done|].
  apply Qred_complete, Qred_correct.
Qed.

Lemma float_round_eq (x : Q) (q : Q) :
  (float_round x == q)%Q → Qred q = q → float_round x = q.
Proof.
  intros Heq Hq. rewrite <- Hq, <- float_round_Qred. by apply Qred_complete.
Qed.

(** ** Clamp *)

Lemma Clamp_cases v :
  ((v < 0 ∧ Clamp v 0 1 = 0) ∨
   (0 <= v <= 1 ∧ Clamp v 0 1 = v) ∨
   (1 < v ∧ Clamp v 0 1 = 1))%Q.
Proof.
  unfold Clamp, std_min, std_max.
  destruct (Qltb v 0) eqn:H0.
  - left. apply Qltb_lt in H0. split; [done|].
    by rewrite (proj2 (Qltb_ge 1 0)).
  - apply Qltb_ge in H0. destruct (Qltb 1 v) eqn:H1.
    + right; right. by apply Qltb_lt in H1.
    + right; left. by apply Qltb_ge in H1.
Qed.

Lemma Clamp_min_max v : (Clamp v 0 1 == Qmin (Qmax v 0) 1)%Q.
Proof.
  pose proof (Q.max_spec v 0) as Hmax. pose proof (Q.min_spec (Qmax v 0) 1) as Hmin.
  set (m := Qmax v 0) in *. set (n := Qmin m 1) in *.
  destruct (Clamp_cases v) as [[H ->]|[[[H0 H1] ->]|[H ->]]]; lra.
Qed.

Lemma Clamp_mono u v : (u <= v)%Q → (Clamp u 0 1 <= Clamp v 0 1)%Q.
Proof.
  intros Huv.
  destruct (Clamp_cases u) as [[Hu ->]|[[[Hu0 Hu1] ->]|[Hu ->]]];
    destruct (Clamp_cases v) as [[Hv ->]|[[[Hv0 Hv1] ->]|[Hv ->]]]; lra.
Qed.

(** ** The progress of the animation *)

Lemma float_ticks_per_second : float_of_Z ticks_per_second = 1000000000%Q.
Proof. by vm_compute. Qed.

Lemma anim_t_unfold now c :
  anim_t now c
  = float_round (float_round (float_round (inject_Z (now - gAnimStart c)) / 1000000000)
                 / kAnimDurationSec).
Proof. unfold anim_t, float_div. by rewrite float_ticks_per_second. Qed.

Lemma anim_t_mono c now now' :
  (gAnimStart c ≤ now)%Z → (now ≤ now')%Z → (anim_t now c <= anim_t now' c)%Q.
Proof.
  intros H0 Hle. rewrite !anim_t_unfold.
  assert (0 <= inject_Z (now - gAnimStart c))%Q as Hx.
  { change 0%Q with (inject_Z 0). rewrite <- Zle_Qle. lia. }
  assert (inject_Z (now - gAnimStart c) <= inject_Z (now' - gAnimStart c))%Q as Hxy.
  { rewrite <- Zle_Qle. lia. }
  pose proof (float_round_nonneg _ Hx) as H1.
  pose proof (float_round_mono _ _ Hx Hxy) as H2.
  set (a := float_round (inject_Z (now - gAnimStart c))) in *.
  set (a' := float_round (inject_Z (now' - gAnimStart c))) in *.
  assert (0 <= a / 1000000000)%Q as H3 by (apply Qle_shift_div_l; [done|lra]).
  assert (a / 1000000000 <= a' / 1000000000)%Q as H4.
  { apply Qmult_le_compat_r; [done|]. by vm_compute. }
  pose proof (float_round_nonneg _ H3) as H5.
  pose proof (float_round_mono _ _ H3 H4) as H6.
  set (b := float_round (a / 1000000000)) in *.
  set (b' := float_round (a' / 1000000000)) in *.
  apply float_round_mono.
  - apply Qle_shift_div_l; [done|lra].
  - apply Qmult_le_compat_r; [done|]. by vm_compute.
Qed.

Lemma anim_t_before c now : (now ≤ gAnimStart c)%Z → (anim_t now c <= 0)%Q.
Proof.
  intros Hle. rewrite anim_t_unfold.
  assert (inject_Z (now - gAnimStart c) <= 0)%Q as Hx.
  { change 0%Q with (inject_Z 0). rewrite <- Zle_Qle. lia. }
  pose proof (float_round_nonpos _ Hx) as H1.
  set (a := float_round (inject_Z (now - gAnimStart c))) in *.
  assert (a / 1000000000 <= 0)%Q as H2 by (apply Qle_shift_div_r; [done|lra]).
  pose proof (float_round_nonpos _ H2) as H3.
  set (b := float_round (a / 1000000000)) in *.
  apply float_round_nonpos. apply Qle_shift_div_r; [done|lra].
Qed.

(** The progress reaches 1 at 649999968 ticks: 32 ns short of 0.65 s. *)
Lemma anim_t_ends c now :
  (1 <= anim_t now c)%Q ↔ (649999968 ≤ now - gAnimStart c)%Z.
Proof.
  set (c0 := mkTimeCtl [] 0 false 0 0 0 0%Q).
  assert (∀ n, anim_t n c = anim_t (n - gAnimStart c) c0) as Hshift.
  { intros n. rewrite !anim_t_unfold. simpl. by rewrite Z.sub_0_r. }
  assert (gAnimStart c0 = 0%Z) as Hs0 by done.
  split.
  - intros H1. destruct (Z.le_gt_cases 649999968 (now - gAnimStart c)) as [|Hlt]; [done|].
    exfalso. destruct (Z.le_gt_cases (gAnimStart c) now) as [Hge|Hbefore].
    + assert (anim_t now c <= anim_t 649999967 c0)%Q as Hm.
      { rewrite Hshift. apply anim_t_mono; rewrite ?Hs0; lia. }
      assert (anim_t 649999967 c0 < 1)%Q as Hv by by vm_compute.
      lra.
    + assert (anim_t now c <= 0)%Q by (apply anim_t_before; lia). lra.
  - intros Hge. rewrite Hshift.
    assert (anim_t 649999968 c0 <= anim_t (now - gAnimStart c) c0)%Q as Hm
      by (apply anim_t_mono; rewrite ?Hs0; lia).
    assert (1 <= anim_t 649999968 c0)%Q as Hv by by vm_compute.
    lra.
Qed.

(** The progress is the exact quotient up to a relative error below
    [2 ^ -22]. *)
Lemma anim_t_accuracy c now :
  (gAnimStart c ≤ now)%Z →
  let x := (inject_Z (now - gAnimStart c) / inject_Z ticks_per_second
            / kAnimDurationSec)%Q in
  (x * (1 - 2 ^ (-22)) <= anim_t now c <= x * (1 + 2 ^ (-22)))%Q.
Proof.
  intros Hle x. rewrite anim_t_unfold.
  destruct (decide (now = gAnimStart c)) as [->|Hne].
  { unfold x. rewrite Z.sub_diag. by vm_compute. }
  assert (1 <= inject_Z (now - gAnimStart c))%Q as HE.
  { change 1%Q with (inject_Z 1). rewrite <- Zle_Qle. lia. }
  set (E := inject_Z (now - gAnimStart c)) in *.
  assert (2 ^ (-126) <= E)%Q as HnE.
  { apply Qle_trans with 1%Q; [by vm_compute|done]. }
  pose proof (float_round_relative E HnE) as H1.
  set (a := float_round E) in *.
  change (2 ^ (-24))%Q with (1 # 16777216)%Q in *.
  assert (1 # 2 <= a)%Q as Ha by nra.
  assert (2 ^ (-126) <= a / 1000000000)%Q as Hna.
  { apply Qle_trans with ((1 # 2) / 1000000000)%Q; [by vm_compute|].
    apply Qmult_le_compat_r; [done|]. by vm_compute. }
  pose proof (float_round_relative _ Hna) as H2.
  change (2 ^ (-24))%Q with (1 # 16777216)%Q in *.
  assert (a / 1000000000 == a * (1 # 1000000000))%Q as Hd1 by (field).
  set (b := float_round (a / 1000000000)) in *.
  assert ((1 # 4000000000) <= b)%Q as Hb by nra.
  assert (2 ^ (-126) <= b / kAnimDurationSec)%Q as Hnb.
  { apply Qle_trans with ((1 # 4000000000) / kAnimDurationSec)%Q; [by vm_compute|].
    apply Qmult_le_compat_r; [done|]. by vm_compute. }
  pose proof (float_round_relative _ Hnb) as H3.
  change (2 ^ (-24))%Q with (1 # 16777216)%Q in *.
  set (t := float_round (b / kAnimDurationSec)) in *.
  assert (x == E * (1 # 1000000000) * (8388608 # 5452595))%Q as Hx.
  { unfold x. fold E. unfold ticks_per_second, kAnimDurationSec. field. }
  assert (b / kAnimDurationSec == b * (8388608 # 5452595))%Q as Hd2.
  { unfold kAnimDurationSec. field. }
  change (2 ^ (-22))%Q with (1 # 4194304)%Q.
  rewrite Hx. rewrite Hd1 in H2. rewrite Hd2 in H3.
  set (u := (1 # 16777216)%Q) in *.
  set (k1 := (1 # 1000000000)%Q) in *. set (k2 := (8388608 # 5452595)%Q) in *.
  assert (0 < k1)%Q as Hk1 by done. assert (0 < k2)%Q as Hk2 by done.
  assert (0 <= u <= 1 # 16777216)%Q as Hu by (unfold u; lra).
  clearbody u k1 k2 E a b t.
  assert (0 <= 1 - u)%Q as Hm by lra. assert (0 <= 1 + u)%Q as Hp by lra.
  destruct H1 as [H1l H1u], H2 as [H2l H2u], H3 as [H3l H3u].
  pose proof (Qmult_le_compat_r _ _ (k1 * (1 - u) * k2 * (1 - u)) H1l) as L1.
  pose proof (Qmult_le_compat_r _ _ (k2 * (1 - u)) H2l) as L2.
  pose proof (Qmult_le_compat_r _ _ (k1 * (1 + u) * k2 * (1 + u)) H1u) as U1.
  pose proof (Qmult_le_compat_r _ _ (k2 * (1 + u)) H2u) as U2.
  assert (0 <= k1 * (1 - u) * k2 * (1 - u))%Q as P1.
  { repeat apply Qmult_le_0_compat; lra. }
  assert (0 <= k2 * (1 - u))%Q as P2 by (apply Qmult_le_0_compat; lra).
  assert (0 <= k1 * (1 + u) * k2 * (1 + u))%Q as P3.
  { repeat apply Qmult_le_0_compat; lra. }
  assert (0 <= k2 * (1 + u))%Q as P4 by (apply Qmult_le_0_compat; lra).
  specialize (L1 P1). specialize (L2 P2). specialize (U1 P3). specialize (U2 P4).
  assert (0 <= E * k1 * k2)%Q as Hpos.
  { repeat apply Qmult_le_0_compat; lra. }
  assert ((1 + u) * (1 + u) * (1 + u) <= 1 + (1 # 4194304))%Q as Hup by nra.
  assert (1 - (1 # 4194304) <= (1 - u) * (1 - u) * (1 - u))%Q as Hdn by nra.
  pose proof (Qmult_le_compat_r _ _ (E * k1 * k2) Hup Hpos) as U3.
  pose proof (Qmult_le_compat_r _ _ (E * k1 * k2) Hdn Hpos) as L3.
  split.
  - apply Qle_trans with ((1 - (1 # 4194304)) * (E * k1 * k2))%Q; [apply Qle_lteq; right; ring|].
    apply Qle_trans with ((1 - u) * (1 - u) * (1 - u) * (E * k1 * k2))%Q; [done|].
    apply Qle_trans with (E * (1 - u) * (k1 * (1 - u) * k2 * (1 - u)))%Q;
      [apply Qle_lteq; right; ring|].
    apply Qle_trans with (a * (k1 * (1 - u) * k2 * (1 - u)))%Q; [done|].
    apply Qle_trans with (a * k1 * (1 - u) * (k2 * (1 - u)))%Q;
      [apply Qle_lteq; right; ring|].
    apply Qle_trans with (b * (k2 * (1 - u)))%Q; [done|].
    apply Qle_trans with (b * k2 * (1 - u))%Q; [apply Qle_lteq; right; ring|done].
  - apply Qle_trans with (b * k2 * (1 + u))%Q; [done|].
    apply Qle_trans with (b * (k2 * (1 + u)))%Q; [apply Qle_lteq; right; ring|].
    apply Qle_trans with (a * k1 * (1 + u) * (k2 * (1 + u)))%Q; [done|].
    apply Qle_trans with (a * (k1 * (1 + u) * k2 * (1 + u)))%Q;
      [apply Qle_lteq; right; ring|].
    apply Qle_trans with (E * (1 + u) * (k1 * (1 + u) * k2 * (1 + u)))%Q; [done|].
    apply Qle_trans with ((1 + u) * (1 + u) * (1 + u) * (E * k1 * k2))%Q;
      [apply Qle_lteq; right; ring|].
    apply Qle_trans with ((1 + (1 # 4194304)) * (E * k1 * k2))%Q; [done|].
    apply Qle_lteq; right; ring.
Qed.

(** [StartAnimTo] towards another valid index starts the animation at the
    current index, and the first frame at that same instant has [T = 0]. *)
Lemma StartAnimTo_starts c toIndex now :
  (0 ≤ toIndex < Z.of_nat (length (gTimes c)))%Z → toIndex ≠ gTimeIndex c →
  let c' := StartAnimTo toIndex now c in
  gAnimPlaying c' = true ∧ gAnimFrom c' = gTimeIndex c ∧ gAnimTo c' = toIndex ∧
  gAnimStart c' = now ∧ gTimeIndex c' = gTimeIndex c ∧
  (Clamp (anim_t now c') 0 1 == 0)%Q.
Proof.
  intros [Hlo Hhi] Hne. unfold StartAnimTo.
  rewrite (proj2 (Z.ltb_ge _ _) Hlo), (proj2 (Z.leb_gt _ _) Hhi),
    (proj2 (Z.eqb_neq _ _) Hne). simpl.
  repeat (split; [done|]). rewrite anim_t_unfold. simpl. rewrite Z.sub_diag.
  by vm_compute.
Qed.

Lemma anim_t_Qred now c : Qred (anim_t now c) = anim_t now c.
Proof. apply float_round_Qred. Qed.

(** [T] is a [float]: when it has the value 1 it is the term [1]. *)
Lemma Clamp_anim_t_1 now c :
  (Clamp (anim_t now c) 0 1 == 1)%Q ↔ (1 <= anim_t now c)%Q.
Proof.
  destruct (Clamp_cases (anim_t now c)) as [[H ->]|[[[H0 H1] ->]|[H ->]]];
    split; intros; lra.
Qed.

Lemma Clamp_anim_t_eq_1 now c :
  (1 <= anim_t now c)%Q → Clamp (anim_t now c) 0 1 = 1%Q.
Proof.
  intros Hge.
  destruct (Clamp_cases (anim_t now c)) as [[H ->]|[[[H0 H1] ->]|[H ->]]];
    [lra| |done].
  rewrite <- anim_t_Qred. change 1%Q with (Qred 1). apply Qred_complete. lra.
Qed.

Lemma float_kOverlayAlpha : float_round kOverlayAlpha = kOverlayAlpha.
Proof. by vm_compute. Qed.

(** The two alphas of a frame with progress [T]. *)
Lemma blend_alphas (T : Q) :
  (0 <= T <= 1)%Q →
  let a_from := float_mul (float_sub 1 T) kOverlayAlpha in
  let a_to := float_mul T kOverlayAlpha in
  ((1 - T) * kOverlayAlpha - 2 ^ (-23) <= a_from
   <= (1 - T) * kOverlayAlpha + 2 ^ (-23))%Q ∧
  (T * kOverlayAlpha - 2 ^ (-24) <= a_to <= T * kOverlayAlpha + 2 ^ (-24))%Q ∧
  (0 <= a_from <= kOverlayAlpha)%Q ∧ (0 <= a_to <= kOverlayAlpha)%Q.
Proof.
  intros [HT0 HT1] a_from a_to.
  assert (0 <= kOverlayAlpha <= 1)%Q as [Ha0 Ha1] by (split; by vm_compute).
  unfold a_from, a_to, float_mul, float_sub.
  assert (0 <= 1 - T <= 1)%Q as Hs by lra.
  pose proof (float_round_near _ Hs) as Hs1.
  pose proof (float_round_nonneg (1 - T) (proj1 Hs)) as Hs2.
  pose proof (float_round_mono (1 - T) 1 (proj1 Hs) (proj2 Hs)) as Hs3.
  change (float_round 1) with 1%Q in Hs3.
  set (s := float_round (1 - T)) in *.
  assert (0 <= s * kOverlayAlpha <= kOverlayAlpha)%Q as Hsa by (split; nra).
  assert (0 <= T * kOverlayAlpha <= kOverlayAlpha)%Q as HTa by (split; nra).
  pose proof (float_round_near (s * kOverlayAlpha)) as Hn1.
  pose proof (float_round_near (T * kOverlayAlpha)) as Hn2.
  pose proof (float_round_nonneg _ (proj1 Hsa)) as Hp1.
  pose proof (float_round_nonneg _ (proj1 HTa)) as Hp2.
  pose proof (float_round_mono _ _ (proj1 Hsa) (proj2 Hsa)) as Hm1.
  pose proof (float_round_mono _ _ (proj1 HTa) (proj2 HTa)) as Hm2.
  rewrite float_kOverlayAlpha in Hm1, Hm2.
  change (2 ^ (-24))%Q with (1 # 16777216)%Q in *.
  change (2 ^ (-23))%Q with (1 # 8388608)%Q.
  specialize (Hn1 ltac:(lra)). specialize (Hn2 ltac:(lra)).
  set (a1 := float_round (s * kOverlayAlpha)) in *.
  set (a2 := float_round (T * kOverlayAlpha)) in *.
  repeat split; try lra; nra.
Qed.

Lemma Clamp_accuracy (x t : Q) :
  (0 <= x)%Q → (x * (1 - 2 ^ (-22)) <= t <= x * (1 + 2 ^ (-22)))%Q →
  (Clamp x 0 1 - 2 ^ (-22) <= Clamp t 0 1 <= Clamp x 0 1 + 2 ^ (-22))%Q.
Proof.
  change (2 ^ (-22))%Q with (1 # 4194304)%Q. intros Hx [Hl Hu].
  destruct (Clamp_cases x) as [[H ->]|[[[H0 H1] ->]|[H ->]]];
    destruct (Clamp_cases t) as [[H' ->]|[[[H0' H1'] ->]|[H' ->]]]; split; nra.
Qed.

(** C9. While the animation plays, a frame drawn at [now] computes the
    progress [t] in single precision and [T = clamp(t, 0, 1)]: [T] is the
    clamp of the exact quotient [(now - gAnimStart) / kAnimDurationSec] up to
    [2 ^ -22].  The frame draws exactly the overlay of [gAnimFrom] with alpha
    [(1 - T) * kOverlayAlpha] and that of [gAnimTo] with alpha
    [T * kOverlayAlpha], both products rounded to [float]: they lie between 0
    and [kOverlayAlpha], within [2 ^ -23] and [2 ^ -24] of the exact
    products.  [T] lies in [0, 1] and does not decrease when [now] grows.
    [T] is 1 exactly from 649999968 ticks after the start on (0.65 s less
    32 ns: the tick count is rounded to [float] first); the frame then draws
    [gAnimFrom] at 0 and [gAnimTo] at [kOverlayAlpha] and ends the animation:
    [gTimeIndex] becomes [gAnimTo] and every later frame draws the single
    overlay of that index at [kOverlayAlpha].  When [T] is below 1 the
    animation goes on unchanged. *)
Theorem crossfade_frame (c : TimeCtl) (now now' : time_point) :
  gAnimPlaying c = true →
  let x := (inject_Z (now - gAnimStart c) / inject_Z ticks_per_second
            / kAnimDurationSec)%Q in
  let T := Clamp (anim_t now c) 0 1 in
  let r := DrawScene_overlay now c in
  let a_from := float_mul (float_sub 1 T) kOverlayAlpha in
  let a_to := float_mul T kOverlayAlpha in
  (T == Qmin (Qmax (anim_t now c) 0) 1)%Q ∧
  (Clamp x 0 1 - 2 ^ (-22) <= T <= Clamp x 0 1 + 2 ^ (-22))%Q ∧
  r.2 = [(gAnimFrom c, a_from); (gAnimTo c, a_to)] ∧
  ((1 - T) * kOverlayAlpha - 2 ^ (-23) <= a_from
   <= (1 - T) * kOverlayAlpha + 2 ^ (-23))%Q ∧
  (T * kOverlayAlpha - 2 ^ (-24) <= a_to <= T * kOverlayAlpha + 2 ^ (-24))%Q ∧
  (0 <= a_from <= kOverlayAlpha)%Q ∧ (0 <= a_to <= kOverlayAlpha)%Q ∧
  (0 <= T <= 1)%Q ∧
  ((now ≤ now')%Z → (T <= Clamp (anim_t now' c) 0 1)%Q) ∧
  ((T == 1)%Q ↔ (649999968 ≤ now - gAnimStart c)%Z) ∧
  ((T == 1)%Q →
     r.2 = [(gAnimFrom c, 0%Q); (gAnimTo c, kOverlayAlpha)] ∧
     gAnimPlaying r.1 = false ∧ gTimeIndex r.1 = gAnimTo c ∧
     DrawScene_overlay now' r.1 = (r.1, [(gAnimTo c, kOverlayAlpha)])) ∧
  ((T < 1)%Q →
     gAnimPlaying r.1 = true ∧ gTimeIndex r.1 = gTimeIndex c ∧
     gAnimStart r.1 = gAnimStart c ∧ gAnimFrom r.1 = gAnimFrom c ∧
     gAnimTo r.1 = gAnimTo c).
Proof.
  intros Hplay x T r a_from a_to.
  assert (r.2 = [(gAnimFrom c, a_from); (gAnimTo c, a_to)]) as Hcalls.
  { unfold r, DrawScene_overlay. rewrite Hplay.
    by destruct (Qle_bool 1 (anim_t now c)). }
  assert (0 <= T <= 1)%Q as HT.
  { unfold T. destruct (Clamp_cases (anim_t now c)) as [[H ->]|[[H ->]|[H ->]]]; lra. }
  destruct (blend_alphas T HT) as (Hfrom & Hto & Hbf & Hbt).
  split; [apply Clamp_min_max|]. split.
  { destruct (Z.le_gt_cases (gAnimStart c) now) as [Hge|Hlt].
    - apply Clamp_accuracy; [|by apply anim_t_accuracy].
      unfold x. apply Qle_shift_div_l; [done|]. apply Qle_shift_div_l; [done|].
      rewrite !Qmult_0_l. change 0%Q with (inject_Z 0). rewrite <- Zle_Qle. lia.
    - assert (anim_t now c <= 0)%Q as Ht by (apply anim_t_before; lia).
      assert (x < 0)%Q as Hx.
      { unfold x. apply Qlt_shift_div_r; [done|]. apply Qlt_shift_div_r; [done|].
        rewrite !Qmult_0_l. change 0%Q with (inject_Z 0). rewrite <- Zlt_Qlt. lia. }
      change (2 ^ (-22))%Q with (1 # 4194304)%Q. unfold T.
      destruct (Clamp_cases x) as [[H ->]|[[[H0 H1] ->]|[H ->]]];
        destruct (Clamp_cases (anim_t now c)) as [[H' ->]|[[[H0' H1'] ->]|[H' ->]]];
        lra. }
  split; [done|]. split; [done|]. split; [done|]. split; [done|]. split; [done|].
  split; [done|]. split; [|split; [|split]].
  - intros Hle. unfold T.
    destruct (Z.le_gt_cases (gAnimStart c) now) as [Hge|Hlt].
    + by apply Clamp_mono, anim_t_mono.
    + assert (anim_t now c <= 0)%Q as Ht by (apply anim_t_before; lia).
      destruct (Clamp_cases (anim_t now c)) as [[H ->]|[[[H0 H1] ->]|[H ->]]];
        destruct (Clamp_cases (anim_t now' c)) as [[H' ->]|[[[H0' H1'] ->]|[H' ->]]];
        lra.
  - unfold T. rewrite Clamp_anim_t_1. apply anim_t_ends.
  - intros HT1. apply Clamp_anim_t_1 in HT1.
    assert (T = 1%Q) as HT1' by by apply Clamp_anim_t_eq_1.
    assert (Qle_bool 1 (anim_t now c) = true) as Hdone by by apply Qle_bool_iff.
    split.
    { rewrite Hcalls. unfold a_from, a_to. rewrite HT1'. by vm_compute. }
    unfold r, DrawScene_overlay. rewrite Hplay, Hdone. done.
  - intros HT1.
    assert (Qle_bool 1 (anim_t now c) = false) as Hgo.
    { destruct (Qle_bool 1 (anim_t now c)) eqn:Hle; [|done].
      apply Qle_bool_iff, Clamp_anim_t_1 in Hle. fold T in Hle. lra. }
    unfold r, DrawScene_overlay. rewrite Hplay, Hgo. done.
Qed.

(** ** Web-Mercator round trip *)

Lemma world_size_pos z : (0 ≤ z)%Z → (0 < IZR (TILE_SIZE * 2 ^ z))%R.
Proof.
  intros Hz. apply IZR_lt. unfold TILE_SIZE.
  pose proof (Z.pow_pos_nonneg 2 z). lia.
Qed.

Lemma WorldX_round_trip lon z :
  (0 ≤ z)%Z → WorldXToLon (LonLatToWorldX lon z) z = lon.
Proof.
  intros Hz. unfold WorldXToLon, LonLatToWorldX.
  pose proof (world_size_pos z Hz). field. lra.
Qed.

Lemma LonLatToWorldY_equator z :
  LonLatToWorldY 0 z = (IZR (TILE_SIZE * 2 ^ z) / 2)%R.
Proof.
  unfold LonLatToWorldY, clamp_double.
  destruct (Rlt_dec 0 (-85.05112878)) as [H|_]; [lra|].
  destruct (Rlt_dec 85.05112878 0) as [H|_]; [lra|].
  replace (PI / 4 + 0 * PI / 180 / 2)%R with (PI / 4)%R by lra.
  rewrite tan_PI4, ln_1. pose proof PI_RGT_0. field. lra.
Qed.

Lemma sinh_PI_gt_1 : (1 < sinh PI)%R.
Proof.
  unfold sinh. pose proof PI2_3_2 as Hpi.
  pose proof (exp_ineq1_le PI) as Hexp.
  assert (exp (- PI) < 1)%R as Hneg.
  { rewrite <- exp_0. apply exp_increasing. lra. }
  lra.
Qed.

(** For every latitude, the round trip adds [PI] to the Mercator ordinate
    [sy] before inverting it. *)
Lemma WorldY_round_trip_shifted lat_deg z :
  (0 ≤ z)%Z →
  let rad := (clamp_double lat_deg (-85.05112878) 85.05112878 * PI / 180)%R in
  let sy := ln (tan (PI / 4 + rad / 2)) in
  WorldYToLat (LonLatToWorldY lat_deg z) z = (180 / PI * atan (sinh (PI + sy)))%R.
Proof.
  intros Hz rad sy. pose proof (world_size_pos z Hz). pose proof PI_RGT_0.
  unfold WorldYToLat, LonLatToWorldY. fold rad. fold sy.
  do 3 f_equal. field. lra.
Qed.

(** C4 (what the code does).  In exact arithmetic the longitude round trip
    is the identity, but the latitude one is not: at the equator
    [LonLatToWorldY] gives the middle of the map, [s / 2], and [WorldYToLat]
    maps it to [180 / PI * atan (sinh PI)], about 85.05 degrees and above 45,
    because it forms [y = 2 * (1 - wy / s)] where the inverse needs
    [1 - 2 * wy / s]. *)
Theorem WorldYToLat_of_equator (z : Z) :
  (0 ≤ z)%Z →
  (∀ lon, WorldXToLon (LonLatToWorldX lon z) z = lon) ∧
  LonLatToWorldY 0 z = (IZR (TILE_SIZE * 2 ^ z) / 2)%R ∧
  WorldYToLat (LonLatToWorldY 0 z) z = (180 / PI * atan (sinh PI))%R ∧
  (45 < WorldYToLat (LonLatToWorldY 0 z) z)%R.
Proof.
  intros Hz. pose proof (world_size_pos z Hz) as Hs. pose proof PI_RGT_0 as Hpi.
  assert (WorldYToLat (LonLatToWorldY 0 z) z = (180 / PI * atan (sinh PI))%R) as Heq.
  { rewrite LonLatToWorldY_equator. unfold WorldYToLat.
    do 3 f_equal. field. lra. }
  split; [intros lon; by apply WorldX_round_trip|].
  split; [apply LonLatToWorldY_equator|]. split; [done|].
  rewrite Heq.
  pose proof (atan_increasing 1 (sinh PI) sinh_PI_gt_1) as Hatan.
  rewrite atan_1 in Hatan.
  replace 45%R with (180 / PI * (PI / 4))%R by (field; lra).
  apply Rmult_lt_compat_l; [|done]. apply Rdiv_lt_0_compat; lra.
Qed.

(** * Instances *)

(** The tile path of the zoom-6 tile over Tokyo station. *)
Example tokyo_tile_path : tokyo_tile = "/xyz/std/6/56/25.png".
Proof. reflexivity. Qed.

(** A 200 with a body succeeds and yields the body; a 200 without one and a
    404 fail. *)
Example HttpGet_samples :
  HttpGet http_200_png [] = (true, png_header) ∧
  HttpGet http_200_empty [] = (false, []) ∧
  HttpGet http_404 [] = (false, []).
Proof. by vm_compute. Qed.

(** A short read shrinks the buffer again; a failed read leaves the zeroed
    tail in place and fails. *)
Example read_loop_samples :
  read_loop [Chunk 8 [Byte.x89; Byte.x50]; Chunk 2 [Byte.x4e; Byte.x47]] []
    = (true, [Byte.x89; Byte.x50; Byte.x4e; Byte.x47]) ∧
  read_loop [Chunk 2 [Byte.x89; Byte.x50]; ReadFailed 3] []
    = (false, [Byte.x89; Byte.x50; Byte.x00; Byte.x00; Byte.x00]) ∧
  read_loop [Chunk 2 [Byte.x89; Byte.x50]; QueryFailed] []
    = (false, [Byte.x89; Byte.x50]).
Proof. by vm_compute. Qed.

(** With 259 tiles cached the pass erases the three oldest and releases the
    two bitmaps among them. *)
Example PurgeOldTiles_row :
  let s' := PurgeOldTiles (sample_globals (row_cache 259)) in
  size (gCache s') = 256 ∧
  gLog s' = [Release (D2DBitmap 1); Release (D2DBitmap 3)] ∧
  gCache s' !! gsi_tile_path 9 2 200 = None ∧
  gCache s' !! gsi_tile_path 9 3 200 = Some (mkImg [] None 3%Z).
Proof. by vm_compute. Qed.

(** After start-up, a first call for the Tokyo tile queues its fetch; the
    frames that follow, with a worker picking the job up in between, do not
    schedule it again. *)
Lemma fetch_scheduled_once_tokyo :
  let frames := [Call tokyo_tile 2 false; WorkerTake 0; Call next_tile 3 false;
                 Call tokyo_tile 4 false] in
  let polls := [Call tokyo_tile 2 false; WorkerTake 0; Call tokyo_tile 4 true] in
  let r := GetOrFetchBitmap sample_decoder tokyo_tile 1 false (sample_globals ∅) in
  gPool r.1 = Some (mkPool [None; None; None; None] [mkJob tokyo_tile false]) ∧
  scheduled tokyo_tile (run sample_decoder r.1 frames) = 1 ∧
  length (pool_jobs tokyo_tile (run sample_decoder r.1 frames)) ≤ 1 ∧
  length (pool_jobs tokyo_tile (run sample_decoder r.1 polls)) = 1.
Proof.
  intros frames polls r.
  assert (present_at_calls sample_decoder tokyo_tile frames r.1) as Hpres.
  { cbn [present_at_calls frames].
    repeat split; intros _; eexists; vm_compute; reflexivity. }
  assert (gCache (sample_globals ∅) !! tokyo_tile = None) as Hmiss by reflexivity.
  assert (Forall (call_or_take tokyo_tile) polls) as Hpolls by (repeat constructor).
  assert (is_Some (gCache r.1 !! tokyo_tile)) as Hin by (eexists; vm_compute; reflexivity).
  destruct (fetch_scheduled_once sample_decoder (sample_globals ∅)
              (new_ThreadPool WORKER_THREADS) tokyo_tile 1 false frames
              eq_refl Hmiss Hpres)
    as (_ & Hpool & _ & _ & _ & _ & Hrun & Hjobs & Hrow & _).
  destruct (Hrow polls Hpolls Hin) as (_ & _ & Hone).
  split; [exact Hpool|]. split; [exact Hrun|]. split; [exact Hjobs | exact Hone].
Defined.

(** The eviction pass on the 259-tile row. *)
Lemma PurgeOldTiles_removes_oldest_row :
  size (gCache (PurgeOldTiles (sample_globals (row_cache 259)))) = kCacheLimit.
Proof.
  assert (kCacheLimit < size (gCache (sample_globals (row_cache 259)))) as Hover
    by (vm_compute; lia).
  exact (proj1 (PurgeOldTiles_removes_oldest _ Hover)).
Defined.

(** The equator at zoom 6. *)
Lemma WorldYToLat_of_equator_zoom6 :
  (45 < WorldYToLat (LonLatToWorldY 0 6) 6)%R.
Proof.
  assert (0 ≤ 6)%Z as Hz by lia.
  exact (proj2 (proj2 (proj2 (WorldYToLat_of_equator 6 Hz)))).
Defined.

(** C2, as stated, fails: a pending entry can be evicted before its fetch
    completes.  After the Tokyo tile, 256 other tiles and the Tokyo tile
    again are requested, with no worker step at all, two jobs for the Tokyo
    tile are in the queue. *)
Lemma pending_key_is_fetched_twice :
  let s := run sample_decoder (startup true) pending_evicted_run in
  forallb is_Call pending_evicted_run = true ∧
  size (gCache s) = kCacheLimit ∧
  gCache s !! tokyo_tile = Some (mkImg [] None 300) ∧
  scheduled tokyo_tile s = 2 ∧
  pool_jobs tokyo_tile s = [mkJob tokyo_tile false; mkJob tokyo_tile false] ∧
  workers <$> gPool s = Some [None; None; None; None].
Proof. vm_compute. repeat split; reflexivity. Defined.

(** C6, as stated, fails: a call that finds fetched bytes which decode returns
    the new bitmap and [true] at once, not [(none, false)]. *)
Lemma GetOrFetch_bytes_ready_returns_bitmap :
  let s := sample_globals {[ tokyo_tile := mkImg png_header None 10 ]} in
  gCache s !! tokyo_tile = Some (mkImg png_header None 10) ∧
  (GetOrFetchBitmap sample_decoder tokyo_tile 20 false s).2
    = (Some (D2DBitmap 8), true) ∧
  (GetOrFetchBitmap sample_decoder tokyo_tile 20 false s).2 ≠ (None, false).
Proof. vm_compute. split; [reflexivity|]. split; [reflexivity | discriminate]. Defined.

(** A pending entry and an entry with bytes, polled three more times. *)
Lemma GetOrFetch_without_bitmap_tokyo :
  let s := sample_globals {[ tokyo_tile := mkImg png_header None 10 ]} in
  let r := GetOrFetchBitmap sample_decoder tokyo_tile 20 false s in
  decodes r.1 = 1 ∧
  decodes (poll sample_decoder tokyo_tile false [21; 22; 23]%Z r.1).1 = decodes r.1.
Proof.
  intros s r.
  destruct (GetOrFetch_without_bitmap sample_decoder s tokyo_tile 20 false
              (mkImg png_header None 10) [21; 22; 23]%Z)
    as (_ & _ & _ & _ & Hdec & Honce); [reflexivity | reflexivity |].
  split; [exact Hdec | exact Honce].
Defined.

(** C7, as stated, fails: after a failed decode the cache is the very cache
    a first request for the key would have left at that instant; the failed
    entry cannot be told from a pending one. *)
Lemma failed_decode_looks_pending :
  let failed := sample_globals {[ tokyo_tile := mkImg junk_bytes None 10 ]} in
  let after_failure := (GetOrFetchBitmap sample_decoder tokyo_tile 20 false failed).1 in
  let after_miss :=
    (GetOrFetchBitmap sample_decoder tokyo_tile 20 false (sample_globals ∅)).1 in
  sample_decoder junk_bytes = None ∧
  gCache after_failure !! tokyo_tile = Some (mkImg [] None 20) ∧
  gCache after_miss !! tokyo_tile = Some (mkImg [] None 20) ∧
  map_to_list (gCache after_failure) = map_to_list (gCache after_miss).
Proof. vm_compute. split; [reflexivity|]. repeat split; reflexivity. Defined.

(** A failed decode, polled three more times, and followed by calls for
    this and another tile with a worker fetching the other one. *)
Lemma decode_failure_is_final_tokyo :
  let s := sample_globals {[ tokyo_tile := mkImg junk_bytes None 10 ]} in
  let r := GetOrFetchBitmap sample_decoder tokyo_tile 20 false s in
  let evs := [Call next_tile 21 false; Call tokyo_tile 22 false; WorkerTake 0;
              WorkerFinish 0 http_200_png; Call tokyo_tile 23 false] in
  (poll sample_decoder tokyo_tile false [21; 22; 23]%Z r.1).2
    = [(None, false); (None, false); (None, false)] ∧
  calls_for sample_decoder tokyo_tile evs r.1 = [([], (None, false)); ([], (None, false))] ∧
  scheduled tokyo_tile (run sample_decoder r.1 evs) = 0.
Proof.
  intros s r evs.
  destruct (decode_failure_is_final sample_decoder s tokyo_tile 20 false
              (mkImg junk_bytes None 10) [21; 22; 23]%Z)
    as (_ & _ & _ & Hpoll & _ & _ & _ & _ & Hrun & _);
    [reflexivity | reflexivity | discriminate | reflexivity |].
  assert (present_at_calls sample_decoder tokyo_tile evs r.1) as Hpres.
  { cbn [present_at_calls evs].
    repeat split; intros _; eexists; vm_compute; reflexivity. }
  destruct (Hrun evs eq_refl Hpres) as (Hcalls & Hsched & _).
  split; [exact Hpoll|]. split; [exact Hcalls | exact Hsched].
Defined.

(** A 404 for a cached key, then the retry; and a late 200 for an evicted
    key. *)
Lemma fetch_failure_allows_retry_tokyo :
  let s := sample_globals {[ tokyo_tile := mkImg [] None 10 ]} in
  let s' := fetch_job (mkJob tokyo_tile false) http_404 s in
  let r := GetOrFetchBitmap sample_decoder tokyo_tile 20 false s' in
  gCache s' = delete tokyo_tile (gCache s) ∧
  gPool r.1 = Some (mkPool [None; None; None; None] [mkJob tokyo_tile false]) ∧
  gLog r.1 = [Enqueue (mkJob tokyo_tile false)] ∧
  fetch_job (mkJob tokyo_tile false) http_200_png (sample_globals ∅) = sample_globals ∅.
Proof.
  intros s s' r.
  destruct (fetch_failure_allows_retry sample_decoder s (mkJob tokyo_tile false)
              http_404 20 false) as (_ & Hfail & _).
  destruct (fetch_failure_allows_retry sample_decoder (sample_globals ∅)
              (mkJob tokyo_tile false) http_200_png 20 false) as (_ & _ & Hlate).
  destruct Hfail as (Hgone & _ & _ & _ & _ & Hretry & _);
    [reflexivity | eexists; reflexivity | vm_compute; lia |].
  destruct (Hretry (new_ThreadPool WORKER_THREADS) eq_refl) as (Hpool & Hlog & _).
  split; [exact Hgone|]. split; [exact Hpool|]. split; [exact Hlog|].
  apply Hlate. reflexivity.
Defined.

(** A frame 0.325 s into the animation from index 3 to index 4, and the frame
    at 649999970 ticks, which ends it. *)
Lemma crossfade_frame_midway :
  (DrawScene_overlay 325000000 sample_anim).2
    = [(3%Z, (7549747 # 16777216)%Q); (4%Z, (7549747 # 16777216)%Q)] ∧
  (DrawScene_overlay 649999970 sample_anim).2 = [(3%Z, 0%Q); (4%Z, kOverlayAlpha)] ∧
  gAnimPlaying (DrawScene_overlay 649999970 sample_anim).1 = false.
Proof.
  destruct (crossfade_frame sample_anim 325000000 325000000 eq_refl)
    as (_ & _ & Hcalls & _).
  destruct (crossfade_frame sample_anim 649999970 649999970 eq_refl)
    as (_ & _ & _ & _ & _ & _ & _ & _ & _ & Hend & Hdone & _).
  destruct Hdone as (Hlast & Hidle & _); [apply Hend; simpl; lia|].
  split; [|split; [exact Hlast | exact Hidle]].
  rewrite Hcalls. vm_compute. reflexivity.
Defined.

(** A 200 with an empty body for a cached key. *)
Lemma empty_body_is_failure_tokyo :
  let s := sample_globals {[ tokyo_tile := mkImg [] None 10 ]} in
  (HttpGet http_200_empty []).1 = false ∧
  gCache (fetch_job (mkJob tokyo_tile false) http_200_empty s) = delete tokyo_tile (gCache s).
Proof.
  intros s.
  destruct (empty_body_is_failure http_200_empty (mkJob tokyo_tile false) s)
    as (_ & Hempty).
  destruct Hempty as (Hfail & Hgone & _);
    [reflexivity | reflexivity | eexists; reflexivity |].
  split; [exact Hfail | exact Hgone].
Defined.

(** * Further properties *)

(** ** Eviction on a miss *)

(** With one entry over the limit, the pass erases the entry that is
    strictly older than all others. *)
Lemma purged_single c k0 it0 :
  size c = S kCacheLimit → c !! k0 = Some it0 →
  (∀ k it, c !! k = Some it → k ≠ k0 → (lastUsed it0 < lastUsed it)%Z) →
  purged c = [k0].
Proof.
  intros Hsz Hk0 Hold.
  pose proof (purged_length c) as Hlen. rewrite Hsz in Hlen.
  replace (S kCacheLimit - kCacheLimit) with 1 in Hlen by lia.
  destruct (purged c) as [|k1 [|k2 l]] eqn:Hp; simpl in Hlen; try lia.
  f_equal. destruct (decide (k1 = k0)) as [|Hne]; [done|].
  destruct (purged_present c k1) as [it1 Hit1]; [rewrite Hp; by left|].
  assert (k0 ∉ purged c) as Hnin.
  { rewrite Hp. intros Hin%list_elem_of_singleton. congruence. }
  assert (k1 ∈ purged c) as Hin by (rewrite Hp; by left).
  pose proof (purged_older c k1 it1 k0 it0 Hit1 Hin Hk0 Hnin).
  pose proof (Hold k1 it1 Hit1 Hne). lia.
Qed.

Lemma PurgeOldTiles_single s k0 it0 :
  size (gCache s) = S kCacheLimit → gCache s !! k0 = Some it0 →
  (∀ k it, gCache s !! k = Some it → k ≠ k0 → (lastUsed it0 < lastUsed it)%Z) →
  gCache (PurgeOldTiles s) = delete k0 (gCache s).
Proof.
  intros Hsz Hk0 Hold. rewrite PurgeOldTiles_over by lia.
  rewrite (purged_single _ k0 it0) by done. simpl. apply purge_one_cache.
Qed.

Section Eviction.

Variable LoadPngToD2D : list BYTE → option ID2D1Bitmap.

#[local] Abbreviation GetOrFetch := (GetOrFetchBitmap LoadPngToD2D).

(** X1.  A miss on a cache within the limit stores the placeholder and evicts at
    most one entry: none below the limit, exactly one at the limit, and then
    one that was used no later than every entry that stays (the placeholder
    included). *)
Theorem miss_evicts_least_recent (s : Globals) (key : string) (now : time_point)
    (isOverlay : bool) :
  gCache s !! key = None →
  size (gCache s) ≤ kCacheLimit →
  let c := <[key := mkImg [] None now]> (gCache s) in
  let s' := (GetOrFetch key now isOverlay s).1 in
  (size (gCache s) < kCacheLimit → gCache s' = c) ∧
  (size (gCache s) = kCacheLimit →
   ∃ victim it, c !! victim = Some it ∧ gCache s' = delete victim c ∧
     size (gCache s') = kCacheLimit ∧
     ∀ k it', gCache s' !! k = Some it' → (lastUsed it ≤ lastUsed it')%Z).
Proof.
  intros Hmiss Hsz c s'.
  assert (gCache s' = gCache (PurgeOldTiles (with_cache s c))) as Hc
    by by apply GetOrFetch_miss_cache.
  assert (size c = S (size (gCache s))) as Hsc
    by (unfold c; by rewrite map_size_insert_None).
  split.
  - intros Hlt. rewrite Hc, PurgeOldTiles_under; [done|]. simpl. lia.
  - intros Heq.
    assert (kCacheLimit < size (gCache (with_cache s c))) as Hover by (simpl; lia).
    pose proof (purged_length c) as Hlen.
    destruct (purged c) as [|victim [|k2 l]] eqn:Hp; simpl in Hlen; try lia.
    destruct (purged_present c victim) as [it Hit]; [rewrite Hp; by left|].
    exists victim, it. split; [done|].
    assert (gCache s' = delete victim c) as Hdel.
    { rewrite Hc, PurgeOldTiles_over by done. simpl. rewrite Hp. simpl.
      apply purge_one_cache. }
    split; [done|]. split.
    + rewrite Hdel, map_size_delete_Some by eauto. lia.
    + intros k it' Hk. rewrite Hdel in Hk.
      apply lookup_delete_Some in Hk as [Hne Hk].
      eapply (purged_older c victim it k it'); [done| |done|].
      * rewrite Hp. by left.
      * rewrite Hp. intros Hin%list_elem_of_singleton. congruence.
Qed.

End Eviction.

(** ** A sequence of first requests *)

Lemma placeholders_keys l :
  ((λ r : string * time_point, (r.1, mkImg [] None r.2)) <$> l).*1 = l.*1.
Proof. by rewrite <- list_fmap_compose. Qed.

Lemma placeholders_lookup l k it :
  NoDup l.*1 →
  placeholders l !! k = Some it ↔ ∃ t, (k, t) ∈ l ∧ it = mkImg [] None t.
Proof.
  intros Hnd. unfold placeholders.
  rewrite <- elem_of_list_to_map by by rewrite placeholders_keys.
  rewrite list_elem_of_fmap. split.
  - intros ([k' t] & Heq & Hin). simpl in Heq. injection Heq as -> ->. eauto.
  - intros (t & Hin & ->). by exists (k, t).
Qed.

Lemma placeholders_snoc l k t :
  k ∉ l.*1 → placeholders (l ++ [(k, t)]) = <[k := mkImg [] None t]> (placeholders l).
Proof.
  intros Hk. unfold placeholders. rewrite fmap_app. simpl.
  apply list_to_map_snoc. by rewrite placeholders_keys.
Qed.

Lemma placeholders_size l : NoDup l.*1 → size (placeholders l) = length l.
Proof.
  intros Hnd. unfold placeholders.
  rewrite map_size_list_to_map by by rewrite placeholders_keys.
  apply length_fmap.
Qed.

Section Sequence.

Variable LoadPngToD2D : list BYTE → option ID2D1Bitmap.

(** X2.  Requests for pairwise different tiles, made at strictly increasing clock
    readings with no fetch finishing in between, leave the cache holding
    exactly the last [kCacheLimit] of them (all of them when there are fewer),
    each as a pending placeholder stamped with the time of its request. *)
Theorem misses_keep_most_recent (h isOverlay : bool)
    (reqs : list (string * time_point)) :
  NoDup reqs.*1 →
  StronglySorted requested_before reqs →
  gCache (run LoadPngToD2D (startup h) (requests isOverlay reqs))
  = placeholders (drop (length reqs - kCacheLimit) reqs).
Proof.
  induction reqs as [|[k t] reqs IH] using rev_ind; intros Hnd Hsort; [done|].
  rewrite fmap_app in Hnd. apply NoDup_app in Hnd as (Hnd & Hfresh & _).
  apply StronglySorted_app in Hsort as (Hlast & Hsort & _).
  assert (k ∉ reqs.*1) as Hk.
  { intros Hin. apply (Hfresh k Hin). simpl. by left. }
  assert (∀ x, x ∈ reqs → (x.2 < t)%Z) as Ht.
  { intros x Hx. apply (Hlast x (k, t) Hx). by left. }
  unfold requests, run in *. rewrite fmap_app, foldl_app. simpl.
  set (s := foldl (step LoadPngToD2D) (startup h) _) in *.
  specialize (IH Hnd Hsort).
  remember (length reqs) as n eqn:Hn. set (W := drop (n - kCacheLimit) reqs) in *.
  assert (NoDup W.*1) as HndW.
  { unfold W. rewrite fmap_drop. eapply sublist_NoDup; [done | apply sublist_drop]. }
  assert (∀ x, x ∈ W → x ∈ reqs) as HW.
  { intros x Hx. eapply elem_of_sublist; [done | apply sublist_drop]. }
  assert (k ∉ W.*1) as HkW.
  { intros ([k' t'] & Heq & Hin%HW)%list_elem_of_fmap. simpl in Heq. subst k'.
    apply Hk, list_elem_of_fmap. by exists (k, t'). }
  assert (gCache s !! k = None) as Hmiss.
  { rewrite IH. unfold placeholders. apply not_elem_of_list_to_map_1.
    by rewrite placeholders_keys. }
  rewrite GetOrFetch_miss_cache by done. rewrite IH.
  rewrite length_app, <- Hn. simpl.
  destruct (decide (n < kCacheLimit)) as [Hlt|Hge].
  - replace (n + 1 - kCacheLimit) with 0 by lia.
    assert (W = reqs) as HWeq.
    { unfold W. by replace (n - kCacheLimit) with 0 by lia. }
    rewrite PurgeOldTiles_under; simpl.
    + rewrite HWeq. symmetry. by apply placeholders_snoc.
    + rewrite map_size_insert_None by (by rewrite <- IH).
      rewrite placeholders_size, HWeq by done. lia.
  - replace (n + 1 - kCacheLimit) with (S (n - kCacheLimit)) by lia.
    rewrite drop_app_le by (unfold kCacheLimit in *; lia).
    destruct (lookup_lt_is_Some_2 reqs (n - kCacheLimit)) as [[k0 t0] Hw0].
    { unfold kCacheLimit in *. lia. }
    assert (W = (k0, t0) :: drop (S (n - kCacheLimit)) reqs) as HWeq
      by by apply drop_S.
    set (W' := drop (S (n - kCacheLimit)) reqs) in *.
    assert (StronglySorted requested_before W) as HsW.
    { rewrite <- (take_drop (n - kCacheLimit) reqs) in Hsort.
      by apply StronglySorted_app in Hsort as (_ & _ & ?). }
    rewrite HWeq in HndW, HsW, HkW.
    apply NoDup_cons in HndW as [Hk0 HndW'].
    apply StronglySorted_cons in HsW as [Hold _].
    assert (k0 ≠ k) as Hne.
    { intros ->. apply HkW. simpl. by left. }
    assert (k ∉ W'.*1) as HkW'.
    { intros Hin. apply HkW. simpl. by right. }
    assert (placeholders W = <[k0 := mkImg [] None t0]> (placeholders W')) as HP
      by by rewrite HWeq.
    rewrite (PurgeOldTiles_single _ k0 (mkImg [] None t0)); simpl.
    + rewrite HP, delete_insert_ne, delete_insert_eq by done.
      rewrite delete_id.
      * symmetry. by apply placeholders_snoc.
      * unfold placeholders. apply not_elem_of_list_to_map_1.
        by rewrite placeholders_keys.
    + rewrite map_size_insert_None by (by rewrite <- IH).
      rewrite placeholders_size by (rewrite HWeq; simpl; by constructor).
      unfold W. rewrite length_drop. unfold kCacheLimit in *. lia.
    + rewrite lookup_insert_ne by done. rewrite HP. apply lookup_insert_eq.
    + intros k' it Hk' Hne'. simpl.
      destruct (decide (k' = k)) as [->|Hnk].
      * rewrite lookup_insert_eq in Hk'. injection Hk' as <-. simpl.
        apply (Ht (k0, t0)), HW. rewrite HWeq. by left.
      * rewrite lookup_insert_ne, HP, lookup_insert_ne in Hk' by done.
        apply placeholders_lookup in Hk' as (t' & Hin & ->); [|done]. simpl.
        rewrite Forall_forall in Hold. apply (Hold (k', t') Hin).
Qed.

End Sequence.

(** ** The worker pool *)

Lemma enqueued_log s s' es :
  gLog s' = gLog s ++ es →
  enqueued s' =
  enqueued s ++ omap (λ e, match e with Enqueue j => Some j | _ => None end) es.
Proof. intros Hlog. unfold enqueued. by rewrite Hlog, omap_app. Qed.

Lemma enqueued_same s s' es :
  gLog s' = gLog s ++ es →
  Forall (λ e, match e with Enqueue _ => False | _ => True end) es →
  enqueued s' = enqueued s.
Proof.
  intros Hlog Hes. rewrite (enqueued_log _ _ _ Hlog).
  rewrite <- (app_nil_r (enqueued s)) at 2. f_equal. clear Hlog.
  induction Hes as [|e es He _ IH]; [done|]. csimpl. by destruct e.
Qed.

Lemma length_in_flight p : length (in_flight p) ≤ length (workers p).
Proof.
  unfold in_flight. induction (workers p) as [|[j|] l IH]; csimpl; lia.
Qed.

Section Pool.

Variable LoadPngToD2D : list BYTE → option ID2D1Bitmap.

Lemma step_pool_in_order s e :
  pool_in_order s → pool_in_order (step LoadPngToD2D s e).
Proof.
  intros (p & taken & Hp & Hlen & Henq & Hfly).
  destruct e as [key now ov | w | w net]; simpl.
  - destruct (gCache s !! key) as [it|] eqn:Hk.
    + rewrite (GetOrFetch_hit _ _ _ _ _ it) by done. simpl.
      exists p, taken. split; [done|]. split; [done|]. split; [|done].
      rewrite <- Henq. eapply enqueued_same; [done|].
      destruct (touch_effects LoadPngToD2D now it) as [-> | ->]; by repeat constructor.
    + destruct (GetOrFetch_miss LoadPngToD2D s key now ov Hk)
        as (_ & _ & _ & Hpool & Hlog).
      destruct (PurgeOldTiles_log (with_cache s (<[key := mkImg [] None now]> (gCache s))))
        as (rel & Hrel & Hall).
      rewrite Hrel, Hp in Hlog. simpl in Hlog. rewrite <- app_assoc in Hlog.
      exists (enqueue (mkJob key ov) p), taken.
      split; [by rewrite Hpool, Hp|]. split; [done|]. split; [|done].
      rewrite (enqueued_log s _ _ Hlog), omap_app, Henq. csimpl.
      assert (omap (λ e, match e with Enqueue j => Some j | _ => None end) rel = [])
        as ->.
      { clear Hrel Hlog. induction Hall as [|e es [b ->] _ IH]; [done|]. by csimpl. }
      by rewrite <- app_assoc.
  - unfold worker_take. rewrite Hp.
    destruct (workers p !! w) as [[j|]|] eqn:Hw; try by exists p, taken.
    destruct (tasks p) as [|j rest] eqn:Ht; [exists p, taken; by rewrite Ht|].
    exists (mkPool (<[w := Some j]> (workers p)) rest), (taken ++ [j]).
    split; [done|]. split; [simpl; by rewrite length_insert|].
    split; [simpl; by rewrite <- app_assoc|].
    intros j' (o & Hin & Ho)%list_elem_of_omap. simpl in Hin, Ho. subst o.
    apply list_elem_of_lookup_1 in Hin as [i Hi].
    apply list_lookup_insert_Some in Hi as [(_ & Heq & _) | [_ Hi]].
    + injection Heq as ->. apply elem_of_app. right. by left.
    + apply elem_of_app. left. apply Hfly, list_elem_of_omap.
      exists (Some j'). split; [|done]. by eapply list_elem_of_lookup_2.
  - unfold worker_finish. rewrite Hp.
    destruct (workers p !! w) as [[j|]|] eqn:Hw; try by exists p, taken.
    unfold fetch_job. destruct (HttpGet net []) as [ok buf].
    set (s1 := with_pool s (mkPool (<[w := None]> (workers p)) (tasks p))).
    destruct (commit_fetch_log (job_key j) ok buf s1) as (es & Hes & Hall).
    exists (mkPool (<[w := None]> (workers p)) (tasks p)), taken.
    split.
    { unfold commit_fetch. destruct (gCache s1 !! job_key j); [|done]. by destruct ok. }
    split; [simpl; by rewrite length_insert|]. split.
    + simpl. rewrite <- Henq. apply (enqueued_same s _ es); [done|].
      eapply Forall_impl; [exact Hall|]. by intros e ->.
    + intros j' (o & Hin & Ho)%list_elem_of_omap. simpl in Hin, Ho. subst o.
      apply list_elem_of_lookup_1 in Hin as [i Hi].
      apply list_lookup_insert_Some in Hi as [(_ & Heq & _) | [_ Hi]]; [done|].
      apply Hfly, list_elem_of_omap.
      exists (Some j'). split; [|done]. by eapply list_elem_of_lookup_2.
Qed.

(** X3.  However the foreground calls and the workers interleave after start-up,
    the pool keeps its [WORKER_THREADS] workers, so at most that many fetches
    are in flight, and jobs leave the queue in the order they were enqueued:
    the queue is always the tail of the history of enqueued jobs, and every
    job a worker holds comes from the part before it. *)
Theorem pool_is_fifo (h : bool) (evs : list event) :
  ∃ p taken,
    gPool (run LoadPngToD2D (startup h) evs) = Some p ∧
    length (workers p) = WORKER_THREADS ∧
    length (in_flight p) ≤ WORKER_THREADS ∧
    enqueued (run LoadPngToD2D (startup h) evs) = taken ++ tasks p ∧
    ∀ j, j ∈ in_flight p → j ∈ taken.
Proof.
  assert (pool_in_order (run LoadPngToD2D (startup h) evs)) as Hinv.
  { assert (pool_in_order (startup h)) as H0.
    { exists (new_ThreadPool WORKER_THREADS), []. by repeat split. }
    revert H0. generalize (startup h). unfold run.
    induction evs as [|e evs IH]; intros s Hs; [done|].
    simpl. by apply IH, step_pool_in_order. }
  destruct Hinv as (p & taken & Hp & Hlen & Henq & Hfly).
  exists p, taken. repeat split; try done.
  rewrite <- Hlen. apply length_in_flight.
Qed.

End Pool.

(** ** From request to bitmap *)

Section Lifecycle.

Variable LoadPngToD2D : list BYTE → option ID2D1Bitmap.

#[local] Abbreviation GetOrFetch := (GetOrFetchBitmap LoadPngToD2D).

(** X4.  The whole path of a tile.  A first request below the limit, with an
    idle worker [w] and an empty queue, stores the placeholder; the worker
    takes the job; when its [HttpGet] succeeds with [buf] the entry holds
    [buf], still stamped with the time of the request, one [WM_TILE_READY] is
    posted if the window exists, and the pool is idle again.  The next call
    for the key decodes [buf], returns the decoder's result and leaves the
    entry without bytes. *)
Theorem fetched_tile_is_decoded_on_next_call (s : Globals) (p : ThreadPool)
    (key : string) (now1 now2 : time_point) (isOverlay : bool) (w : nat)
    (net : WinHttp) (buf : list BYTE) :
  gCache s !! key = None →
  size (gCache s) < kCacheLimit →
  gPool s = Some p → tasks p = [] → workers p !! w = Some None →
  HttpGet net [] = (true, buf) →
  let s1 := run LoadPngToD2D s
              [Call key now1 isOverlay; WorkerTake w; WorkerFinish w net] in
  let r := GetOrFetch key now2 isOverlay s1 in
  gCache s1 = <[key := mkImg buf None now1]> (gCache s) ∧
  gPool s1 = Some p ∧
  gLog s1 = gLog s ++ Enqueue (mkJob key isOverlay)
                     :: (if hwnd s then [PostTileReady] else []) ∧
  r.2 = (LoadPngToD2D buf, bool_decide (LoadPngToD2D buf ≠ None)) ∧
  gCache r.1 = <[key := mkImg [] (LoadPngToD2D buf) now2]> (gCache s) ∧
  gLog r.1 = gLog s1 ++ [Decode buf].
Proof.
  intros Hmiss Hsz Hp Ht Hw Hget s1 r.
  assert (buf ≠ []) as Hbuf.
  { pose proof (HttpGet_ok net []) as Hok. rewrite Hget in Hok.
    by destruct (Hok eq_refl) as (_ & ? & _). }
  destruct (GetOrFetch_miss LoadPngToD2D s key now1 isOverlay Hmiss)
    as (_ & Hc & Hh & Hpool & Hlog).
  rewrite PurgeOldTiles_under in Hc, Hlog
    by (simpl; rewrite map_size_insert_None by done; lia).
  simpl in Hc, Hlog. rewrite Hp in Hpool, Hlog. simpl in Hpool.
  set (s0 := (GetOrFetch key now1 isOverlay s).1) in *.
  assert (s1 = worker_finish w net (worker_take w s0)) as Hs1 by done.
  assert (worker_take w s0
          = with_pool s0 (mkPool (<[w := Some (mkJob key isOverlay)]> (workers p)) []))
    as Htake.
  { unfold worker_take. rewrite Hpool. simpl. by rewrite Hw, Ht. }
  assert (s1 = commit_fetch key true buf (with_pool s0 p)) as Hs1'.
  { rewrite Hs1, Htake. unfold worker_finish. simpl.
    rewrite list_lookup_insert_eq by by eapply lookup_lt_Some.
    unfold fetch_job. rewrite Hget. simpl. f_equal. unfold with_pool. simpl.
    f_equal. f_equal. destruct p as [ws ts]. simpl in *. subst ts. f_equal.
    rewrite list_insert_insert_eq. by apply list_insert_id. }
  assert (gCache s1 = <[key := mkImg buf None now1]> (gCache s)) as Hc1.
  { rewrite Hs1'. unfold commit_fetch. simpl. rewrite Hc, lookup_insert_eq. simpl.
    by rewrite insert_insert_eq. }
  assert (gLog s1 = gLog s ++ Enqueue (mkJob key isOverlay)
                              :: (if hwnd s then [PostTileReady] else [])) as Hl1.
  { rewrite Hs1'. unfold commit_fetch. simpl. rewrite Hc, lookup_insert_eq. simpl.
    by rewrite Hlog, Hh, <- app_assoc. }
  split; [done|]. split.
  { rewrite Hs1'. unfold commit_fetch. simpl. by rewrite Hc, lookup_insert_eq. }
  split; [done|].
  unfold r. rewrite (GetOrFetch_hit _ _ _ _ _ (mkImg buf None now1))
    by (rewrite Hc1; apply lookup_insert_eq).
  unfold touch. simpl. rewrite (bool_decide_eq_false_2 _ Hbuf). simpl.
  split; [done|]. split; [|done]. by rewrite Hc1, insert_insert_eq.
Qed.

(** X5.  What a call reports agrees with what it leaves in the cache: it returns
    [true] exactly when it returns a bitmap; and when the entry of the key is
    in the cache after the call, its bitmap is the one returned and its time
    stamp is the time of the call. *)
Theorem GetOrFetch_result_matches_entry (s : Globals) (key : string)
    (now : time_point) (isOverlay : bool) :
  let r := GetOrFetch key now isOverlay s in
  (r.2.2 = true ↔ is_Some r.2.1) ∧
  (∀ it, gCache r.1 !! key = Some it → bmp it = r.2.1 ∧ lastUsed it = now) ∧
  (∀ k it, k ≠ key → gCache r.1 !! k = Some it → gCache s !! k = Some it).
Proof.
  intros r. destruct (gCache s !! key) as [it0|] eqn:Hk.
  - unfold r. rewrite (GetOrFetch_hit _ _ _ _ _ it0) by done. simpl.
    split; [|split].
    + rewrite bool_decide_eq_true. apply not_eq_None_Some.
    + intros it. rewrite lookup_insert_eq. intros [= <-].
      unfold touch. by destruct (_ && _).
    + intros k it Hne. by rewrite lookup_insert_ne.
  - destruct (GetOrFetch_miss LoadPngToD2D s key now isOverlay Hk)
      as (Hres & Hc & _). fold r in Hres, Hc. rewrite Hres, Hc. simpl.
    split; [|split].
    + split; [done|]. by intros [? ?].
    + intros it. rewrite PurgeOldTiles_lookup. case_decide; [done|].
      simpl. rewrite lookup_insert_eq. by intros [= <-].
    + intros k it Hne. rewrite PurgeOldTiles_lookup. case_decide; [done|].
      simpl. by rewrite lookup_insert_ne.
Qed.

End Lifecycle.

(** ** What [HttpGet] gathers *)

Lemma read_loop_chunk sz data rest out :
  0 < sz →
  read_loop (Chunk sz data :: rest) out = read_loop rest (out ++ take sz data).
Proof.
  intros Hsz. simpl. destruct (Nat.eqb_spec sz 0) as [->|_]; [lia|]. f_equal.
  assert (length (take sz data) ≤ sz) as Hdw by (rewrite length_take; lia).
  destruct (Nat.ltb_spec (length (take sz data)) sz) as [Hlt|Hge].
  - rewrite app_assoc, take_app_length'; [done|]. by rewrite length_app.
  - replace (sz - length (take sz data)) with 0 by lia. simpl.
    by rewrite app_nil_r.
Qed.

Lemma read_loop_chunks chunks rest out :
  Forall (λ c, 0 < c.1) chunks →
  read_loop (chunk_rounds chunks ++ rest) out
  = read_loop rest (out ++ chunk_bytes chunks).
Proof.
  intros Hpos. revert out.
  induction Hpos as [|[sz data] chunks Hsz _ IH]; intros out.
  - simpl. by rewrite app_nil_r.
  - change (read_loop (Chunk sz data :: (chunk_rounds chunks ++ rest)) out
            = read_loop rest (out ++ (take sz data ++ chunk_bytes chunks))).
    rewrite read_loop_chunk by done. rewrite IH. by rewrite <- app_assoc.
Qed.

Lemma read_loop_end r rest out :
  is_end_round r = true → read_loop (r :: rest) out = (true, out).
Proof. destruct r as [|sz|sz data]; simpl; try done; by intros ->. Qed.

Lemma read_loop_failed r rest out :
  is_failed_round r = true → (read_loop (r :: rest) out).1 = false.
Proof.
  destruct r as [|sz|sz data]; simpl; try done.
  by intros ->%negb_true_iff.
Qed.

(** X6.  [HttpGet] on an exchange that got as far as a 200 and then delivers the
    chunks [chunks] (each announced with a positive size):
    - when the response ends after them, the buffer is the old buffer followed
      by the delivered bytes in order, with nothing lost to the resizing, and
      the call succeeds unless that buffer is empty;
    - when a query or a read fails after them, the call fails, however many
      bytes had arrived. *)
Theorem HttpGet_gathers_chunks (net : WinHttp) (chunks : list (nat * list BYTE))
    (rest : list net_read) (out : list BYTE) :
  net_open net && net_connect net && net_request net
    && net_send net && net_receive net = true →
  net_status net = 200%Z →
  net_body net = chunk_rounds chunks ++ rest →
  Forall (λ c, 0 < c.1) chunks →
  (rest = [] ∨ (∃ r rest', rest = r :: rest' ∧ is_end_round r = true) →
   HttpGet net out
   = (negb (bool_decide (out ++ chunk_bytes chunks = [])), out ++ chunk_bytes chunks)) ∧
  ((∃ r rest', rest = r :: rest' ∧ is_failed_round r = true) →
   (HttpGet net out).1 = false).
Proof.
  intros Hcalls Hst Hbody Hpos.
  assert (HttpGet net out =
          ((read_loop rest (out ++ chunk_bytes chunks)).1
             && negb (bool_decide ((read_loop rest (out ++ chunk_bytes chunks)).2 = [])),
           (read_loop rest (out ++ chunk_bytes chunks)).2)) as Hget.
  { rewrite HttpGet_result, Hbody, read_loop_chunks by done.
    apply andb_true_iff in Hcalls as [Hcalls Hrecv].
    apply andb_true_iff in Hcalls as [Hcalls Hsend].
    by rewrite Hcalls, Hsend, Hrecv, Hst. }
  rewrite Hget. split.
  - intros [-> | (r & rest' & -> & Hend)]; [done|].
    by rewrite read_loop_end.
  - intros (r & rest' & -> & Hfail). cbn [fst].
    by rewrite read_loop_failed.
Qed.

(** ** Tile indices *)

(** X7.  For a tile column [tx] of any sign, the wrapped index is the residue of
    [tx] modulo the number of tiles [2 ^ z]: it lies in [0, 2 ^ z), leaves
    columns in that range alone and has period [2 ^ z]; the row index is cut
    to [0, 2 ^ z - 1] and rows in that range are left alone. *)
Theorem tile_index_wraps (z tx ty : Z) :
  (0 ≤ z)%Z →
  let maxT := (2 ^ z)%Z in
  tile_nx tx maxT = (tx mod maxT)%Z ∧
  (0 ≤ tile_nx tx maxT < maxT)%Z ∧
  tile_nx (tx + maxT) maxT = tile_nx tx maxT ∧
  ((0 ≤ tx < maxT)%Z → tile_nx tx maxT = tx) ∧
  (0 ≤ tile_ny ty maxT ≤ maxT - 1)%Z ∧
  ((0 ≤ ty < maxT)%Z → tile_ny ty maxT = ty) ∧
  ((ty < 0)%Z → tile_ny ty maxT = 0%Z) ∧
  ((maxT ≤ ty)%Z → tile_ny ty maxT = (maxT - 1)%Z).
Proof.
  intros Hz maxT.
  assert (0 < maxT)%Z as Hpos by (apply Z.pow_pos_nonneg; lia).
  assert (∀ t, tile_nx t maxT = (t mod maxT)%Z) as Hmod.
  { intros t. unfold tile_nx.
    assert (- maxT < Z.rem t maxT < maxT)%Z as Hr.
    { pose proof (Z.rem_bound_abs t maxT). lia. }
    rewrite Z.rem_mod_nonneg by lia.
    pose proof (Z.quot_rem' t maxT) as Hq.
    set (r := Z.rem t maxT) in *. set (q := Z.quot t maxT) in *.
    replace (r + maxT)%Z with (r + 1 * maxT)%Z by lia.
    rewrite Hq. replace (maxT * q + r)%Z with (r + q * maxT)%Z by lia.
    by rewrite !Z_mod_plus_full. }
  split; [apply Hmod|]. split; [rewrite Hmod; by apply Z.mod_pos_bound|].
  split.
  { rewrite !Hmod. rewrite <- (Z.mul_1_l maxT) at 1. apply Z_mod_plus_full. }
  split; [intros Htx; rewrite Hmod; by apply Z.mod_small|].
  unfold tile_ny, clamp_int.
  repeat split; intros; destruct (Z.ltb_spec ty 0); destruct (Z.ltb_spec (maxT - 1) ty); lia.
Qed.

(** ** Base zoom and overlay zoom *)

Lemma Qfloor_bounds (q : Q) (lo hi : Z) :
  (inject_Z lo <= q)%Q → (q <= inject_Z hi)%Q → (lo ≤ Qfloor q ≤ hi)%Z.
Proof.
  intros Hlo Hhi. split.
  - rewrite <- (Qfloor_Z lo). by apply Qfloor_resp_le.
  - rewrite <- (Qfloor_Z hi). by apply Qfloor_resp_le.
Qed.

Lemma zJMA_candidate_cases (zoom : Q) :
  (Qeq zoom (inject_Z (Qfloor zoom)) ∧ zJMA_candidate zoom = (Qfloor zoom - 1)%Z) ∨
  ((inject_Z (Qfloor zoom) < zoom)%Q ∧ zJMA_candidate zoom = Qfloor zoom).
Proof.
  destruct (Qeq_dec zoom (inject_Z (Qfloor zoom))) as [Heq|Hne].
  - left. split; [done|]. unfold zJMA_candidate.
    by rewrite (proj2 (Qeq_bool_iff _ _) Heq).
  - right. split; [|by apply zJMA_candidate_fraction].
    pose proof (Qfloor_le zoom). apply Qle_lteq in H as [?|?]; [done|].
    destruct Hne. by symmetry.
Qed.

(** X8.  For every zoom the view can take, from 2 to 18, the base map is drawn at
    the floor of the zoom, and the overlay zoom is at most 2 levels finer and
    at most 5 levels coarser than it.  Between 4 and 14 the overlay is drawn
    at the base zoom or one level below it; under 4 it stays at 4, over 14 at
    13. *)
Theorem overlay_zoom_near_base_zoom (zoom : Q) :
  (2 <= zoom)%Q → (zoom <= 18)%Q →
  zDL zoom = Qfloor zoom ∧
  (2 ≤ zDL zoom ≤ 18)%Z ∧
  (-2 ≤ zDL zoom - zJMA zoom ≤ 5)%Z ∧
  ((4 <= zoom)%Q → (zoom <= 14)%Q → (zJMA zoom ≤ zDL zoom ≤ zJMA zoom + 1)%Z) ∧
  ((zoom < 4)%Q → zJMA zoom = 4%Z ∧ (zDL zoom < 4)%Z) ∧
  ((14 < zoom)%Q → zJMA zoom = 13%Z ∧ (14 ≤ zDL zoom)%Z).
Proof.
  intros Hlo Hhi.
  pose proof (Qfloor_bounds zoom 2 18 Hlo Hhi) as Hf.
  pose proof (Qfloor_le zoom) as Hfl. pose proof (Qlt_floor zoom) as Hfu.
  assert (zDL zoom = Qfloor zoom) as HzDL.
  { unfold zDL. rewrite clamp_int_min_max by done.
    unfold MIN_MAP_ZOOM, MAX_MAP_ZOOM. lia. }
  assert (zJMA zoom = Z.min (Z.max (zJMA_candidate zoom) 4) 13) as HzJ.
  { unfold zJMA, GetJmaZoomLevel. by rewrite clamp_int_min_max. }
  rewrite HzDL, HzJ. rewrite inject_Z_plus in Hfu.
  split; [done|]. split; [done|]. clear HzDL HzJ.
  destruct (zJMA_candidate_cases zoom) as [[Hint ->]|[Hfrac ->]];
    remember (Qfloor zoom) as f eqn:Hfeq.
  - split; [lia|]. split; [|split].
    + intros H4 H14.
      assert (4 ≤ f ≤ 14)%Z by (rewrite Hfeq; by apply (Qfloor_bounds zoom 4 14)). lia.
    + intros H4. assert (f < 4)%Z; [|lia]. rewrite Zlt_Qlt.
      change (inject_Z 4) with 4%Q. lra.
    + intros H14.
      assert (14 ≤ f)%Z by (rewrite Hfeq; apply (Qfloor_bounds zoom 14 18); [by apply Qlt_le_weak | done]).
      lia.
  - split; [lia|]. split; [|split].
    + intros H4 H14.
      assert (4 ≤ f ≤ 14)%Z by (rewrite Hfeq; by apply (Qfloor_bounds zoom 4 14)).
      assert (f < 14)%Z; [|lia]. rewrite Zlt_Qlt.
      change (inject_Z 14) with 14%Q. lra.
    + intros H4. assert (f < 4)%Z; [|lia]. rewrite Zlt_Qlt.
      change (inject_Z 4) with 4%Q. lra.
    + intros H14.
      assert (14 ≤ f)%Z by (rewrite Hfeq; apply (Qfloor_bounds zoom 14 18); [by apply Qlt_le_weak | done]).
      lia.
Qed.

(** ** The time list and the animation *)

Lemma FetchTimes_ok net out :
  (FetchTimes net out).1 = true → (FetchTimes net out).2 ≠ [].
Proof.
  unfold FetchTimes. destruct (HttpGet net []) as [ok buf].
  destruct ok; simpl; [|done].
  by intros Hne%negb_true_iff%bool_decide_eq_false.
Qed.

Lemma StartAnimTo_in_range toIndex now c :
  indices_in_range c → indices_in_range (StartAnimTo toIndex now c).
Proof.
  intros Hc. unfold StartAnimTo.
  destruct (Z.ltb_spec toIndex 0) as [|Hlo]; [done|].
  destruct (Z.leb_spec (Z.of_nat (length (gTimes c))) toIndex) as [|Hhi]; [done|].
  destruct (Z.eqb_spec toIndex (gTimeIndex c)) as [|Hne]; [done|]. simpl.
  unfold indices_in_range in *. simpl.
  destruct (gTimes c) as [|t ts]; [simpl in Hhi; lia|].
  destruct Hc as [Hidx _]. split; [done|]. by intros _.
Qed.

Lemma StepTime_in_range delta now c :
  indices_in_range c → indices_in_range (StepTime delta now c).
Proof.
  intros Hc. unfold StepTime. destruct (gTimes c) eqn:Ht; [done|].
  destruct (Z.eqb _ _); [done|]. by apply StartAnimTo_in_range.
Qed.

Lemma DrawScene_overlay_in_range now c :
  indices_in_range c → indices_in_range (DrawScene_overlay now c).1.
Proof.
  intros Hc. unfold DrawScene_overlay.
  destruct (gAnimPlaying c) eqn:Hplay; [|done].
  unfold indices_in_range in *.
  destruct (Qle_bool 1 (anim_t now c)); simpl;
    destruct (gTimes c) as [|t ts]; try (destruct Hc; congruence).
  - destruct Hc as [_ Hanim]. destruct (Hanim Hplay) as (_ & Hto & _).
    split; [done|]. by intros.
  - destruct Hc as [Hidx Hanim]. split; [done|]. intros _. by apply Hanim.
Qed.

Lemma SwitchTimes_in_range forecast net c :
  indices_in_range (nowc c) → indices_in_range (nowc (SwitchTimes forecast net c)).
Proof.
  intros Hc. unfold SwitchTimes.
  pose proof (FetchTimes_ok net []) as Hok.
  destruct (FetchTimes net []) as [ok t]. destruct ok; [|done].
  simpl in *. unfold indices_in_range. simpl.
  destruct t as [|t0 ts]; [by destruct Hok|]. split; [|done].
  simpl. lia.
Qed.

Lemma WndProc_in_range c m :
  indices_in_range (nowc c) → indices_in_range (nowc (WndProc c m)).
Proof.
  intros Hc. destruct m as [net|net|now|now|now|now]; simpl.
  - by apply SwitchTimes_in_range.
  - by apply SwitchTimes_in_range.
  - by apply StepTime_in_range.
  - by apply StepTime_in_range.
  - destruct (gAnimPlaying (nowc c)); [done|]. by apply StepTime_in_range.
  - by apply DrawScene_overlay_in_range.
Qed.

(** X9.  Whatever keys, timer ticks and repaints follow [WM_CREATE], and whatever
    the time-list downloads return, the time globals stay consistent: with no
    list loaded nothing plays; otherwise [gTimeIndex] is a valid index, and a
    running animation goes from [gTimeIndex] to a different valid index. *)
Theorem time_index_stays_in_range (net : WinHttp) (msgs : list message) :
  indices_in_range (nowc (foldl WndProc (WM_CREATE net) msgs)).
Proof.
  assert (indices_in_range (nowc (WM_CREATE net))) as H0.
  { unfold WM_CREATE. by apply SwitchTimes_in_range. }
  revert H0. generalize (WM_CREATE net).
  induction msgs as [|m msgs IH]; intros c Hc; [done|].
  simpl. by apply IH, WndProc_in_range.
Qed.

Lemma Qltb_inject_Z a b : Qltb (inject_Z a) (inject_Z b) = Z.ltb a b.
Proof.
  destruct (Z.ltb_spec a b) as [Hlt|Hge].
  - apply Qltb_lt. by rewrite <- Zlt_Qlt.
  - apply Qltb_ge. by rewrite <- Zle_Qle.
Qed.

(** The clamped target of [StepTime], computed in [double] and converted
    back, is the integer clamp. *)
Lemma StepTime_target a n :
  (1 ≤ n)%Z →
  to_int (Clamp (inject_Z a) 0 (inject_Z n - 1)) = Z.min (Z.max a 0) (n - 1).
Proof.
  intros Hn.
  assert ((inject_Z n - 1 == inject_Z (n - 1))%Q) as Hn1.
  { unfold Qeq, Qminus, Qplus, Qopp, inject_Z. simpl. lia. }
  assert (to_int (inject_Z n - 1) = (n - 1)%Z) as Hti.
  { unfold to_int, Qminus, Qplus, Qopp, inject_Z. simpl.
    rewrite Z.quot_1_r. lia. }
  assert (∀ x, to_int (inject_Z x) = x) as Hid.
  { intros x. unfold to_int. simpl. apply Z.quot_1_r. }
  unfold Clamp, std_min, std_max.
  change 0%Q with (inject_Z 0). rewrite Qltb_inject_Z.
  destruct (Z.ltb_spec a 0) as [Ha|Ha].
  - destruct (Qltb (inject_Z n - 1) (inject_Z 0)) eqn:Hc.
    + apply Qltb_lt in Hc. rewrite Hn1, <- Zlt_Qlt in Hc. lia.
    + rewrite Hid. lia.
  - destruct (Qltb (inject_Z n - 1) (inject_Z a)) eqn:Hc.
    + apply Qltb_lt in Hc. rewrite Hn1, <- Zlt_Qlt in Hc. rewrite Hti. lia.
    + apply Qltb_ge in Hc. rewrite Hn1, <- Zle_Qle in Hc. rewrite Hid. lia.
Qed.

(** What [StepTime] does on a loaded list with a valid index: the target is
    [gTimeIndex + delta] cut to the list; at either end a step outwards
    changes nothing, any other step starts the animation from the index
    shown towards the target. *)
Lemma StepTime_spec delta now c :
  gTimes c ≠ [] →
  (0 ≤ gTimeIndex c < Z.of_nat (length (gTimes c)))%Z →
  let to := Z.min (Z.max (gTimeIndex c + delta) 0) (Z.of_nat (length (gTimes c)) - 1) in
  StepTime delta now c =
  if Z.eqb to (gTimeIndex c) then c
  else mkTimeCtl (gTimes c) (gTimeIndex c) true now (gTimeIndex c) to (gAnimT c).
Proof.
  intros Hne Hidx. cbv zeta. unfold StepTime.
  destruct (gTimes c) as [|t ts] eqn:Ht; [done|]. rewrite <- Ht in *.
  rewrite StepTime_target by lia.
  set (to := Z.min (Z.max (gTimeIndex c + delta) 0) (Z.of_nat (length (gTimes c)) - 1)).
  destruct (Z.eqb_spec to (gTimeIndex c)) as [|Hto]; [done|].
  unfold StartAnimTo.
  rewrite (proj2 (Z.ltb_ge to 0)) by lia.
  rewrite (proj2 (Z.leb_gt _ to)) by lia.
  by rewrite (proj2 (Z.eqb_neq _ _) Hto).
Qed.


(** X11.  Steps do not queue up.  On a loaded list with a valid index, a step made
    while an earlier one is still animating starts again from the index shown:
    it replaces the earlier step, unless it would lead to the index shown
    (a step outwards at an end of the list), in which case it is ignored and
    the earlier animation goes on. *)
Theorem later_step_replaces_earlier (c : TimeCtl) (d1 d2 : Z) (t1 t2 : time_point) :
  gTimes c ≠ [] →
  (0 ≤ gTimeIndex c < Z.of_nat (length (gTimes c)))%Z →
  let last := (Z.of_nat (length (gTimes c)) - 1)%Z in
  let to2 := Z.min (Z.max (gTimeIndex c + d2) 0) last in
  StepTime d2 t2 (StepTime d1 t1 c)
  = (if Z.eqb to2 (gTimeIndex c) then StepTime d1 t1 c
     else mkTimeCtl (gTimes c) (gTimeIndex c) true t2 (gTimeIndex c) to2 (gAnimT c)) ∧
  (to2 ≠ gTimeIndex c → StepTime d2 t2 (StepTime d1 t1 c) = StepTime d2 t2 c) ∧
  gTimeIndex (StepTime d2 t2 (StepTime d1 t1 c)) = gTimeIndex c.
Proof.
  intros Hne Hidx last to2.
  assert (gTimes (StepTime d1 t1 c) = gTimes c ∧
          gTimeIndex (StepTime d1 t1 c) = gTimeIndex c ∧
          gAnimT (StepTime d1 t1 c) = gAnimT c) as (Hts & Hix & HT).
  { rewrite StepTime_spec by done. by destruct (Z.eqb _ _). }
  assert (StepTime d2 t2 (StepTime d1 t1 c)
          = if Z.eqb to2 (gTimeIndex c) then StepTime d1 t1 c
            else mkTimeCtl (gTimes c) (gTimeIndex c) true t2 (gTimeIndex c) to2 (gAnimT c))
    as Heq.
  { rewrite (StepTime_spec d2 t2 (StepTime d1 t1 c)); rewrite ?Hts, ?Hix, ?HT; done. }
  split; [done|]. split.
  - intros Hto. rewrite Heq, (StepTime_spec d2 t2 c) by done. fold last to2.
    by rewrite (proj2 (Z.eqb_neq _ _) Hto).
  - rewrite Heq. by destruct (Z.eqb _ _).
Qed.

Lemma FetchTimes_loop_length fuel js pos out :
  length out ≤ 120 → length (FetchTimes_loop fuel js pos out) ≤ 121.
Proof.
  revert pos out. induction fuel as [|fuel IH]; intros pos out Hlen; simpl; [lia|].
  destruct (find js key_basetime pos) as [b|]; [|lia].
  destruct (find js key_validtime pos) as [v|]; [|lia].
  destruct (find js [quote] (b + 10)) as [bq1|]; [|lia].
  destruct (find js [quote] (next_index (Some bq1))) as [bq2|]; [|lia].
  destruct (find js [quote] (v + 11)) as [vq1|]; [|lia].
  destruct (find js [quote] (next_index (Some vq1))) as [vq2|]; [|lia].
  rewrite length_app. simpl.
  destruct (Nat.ltb_spec 120 (length out + 1)) as [Hfull|Hroom].
  - rewrite length_app. simpl. lia.
  - apply IH. rewrite length_app. simpl. lia.
Qed.

(** X12.  Switching the mode.  [gUseForecast] takes the requested value whether or
    not the download works.  When [FetchTimes] fails (as it does whenever
    [HttpGet] fails), the list, the index and a running animation are left as
    they were; when it succeeds, the new list, which is not empty and has at
    most 121 entries, replaces the old one, the index is 0 and no animation
    runs. *)
Theorem SwitchTimes_keeps_list_on_failure (forecast : bool) (net : WinHttp)
    (c : Viewer) :
  gUseForecast (SwitchTimes forecast net c) = forecast ∧
  ((HttpGet net []).1 = false → (FetchTimes net []).1 = false) ∧
  ((FetchTimes net []).1 = false → nowc (SwitchTimes forecast net c) = nowc c) ∧
  ((FetchTimes net []).1 = true →
   let c' := nowc (SwitchTimes forecast net c) in
   gTimes c' = (FetchTimes net []).2 ∧ gTimes c' ≠ [] ∧ length (gTimes c') ≤ 121 ∧
   gTimeIndex c' = 0%Z ∧ gAnimPlaying c' = false).
Proof.
  split; [|split; [|split]].
  - unfold SwitchTimes. destruct (FetchTimes net []) as [[] t]; done.
  - unfold FetchTimes. destruct (HttpGet net []) as [ok buf]. simpl. by intros ->.
  - unfold SwitchTimes. destruct (FetchTimes net []) as [ok t]. simpl. by intros ->.
  - intros Hok. pose proof (FetchTimes_ok net [] Hok) as Hne.
    assert (length (FetchTimes net []).2 ≤ 121) as Hlen.
    { unfold FetchTimes. destruct (HttpGet net []) as [[] buf]; cbn [negb snd].
      - apply FetchTimes_loop_length. cbn [length]. lia.
      - cbn [length]. lia. }
    unfold SwitchTimes. destruct (FetchTimes net []) as [ok t]. simpl in *.
    by subst ok.
Qed.

(** ** Parsing the time list *)

(** More rounds than 121 are never used. *)
Lemma FetchTimes_loop_fuel fuel js pos out :
  length out ≤ 120 → 121 ≤ fuel + length out →
  FetchTimes_loop (S fuel) js pos out = FetchTimes_loop fuel js pos out.
Proof.
  revert pos out. induction fuel as [|fuel IH]; intros pos out Hlen Hfuel; [lia|].
  change (FetchTimes_loop (S (S fuel)) js pos out) with
    (match find js key_basetime pos, find js key_validtime pos with
     | Some b, Some v =>
         let bq1 := find js [quote] (b + 10) in
         let bq2 := find js [quote] (next_index bq1) in
         let vq1 := find js [quote] (v + 11) in
         let vq2 := find js [quote] (next_index vq1) in
         match bq1, bq2, vq1, vq2 with
         | Some bq1, Some bq2, Some vq1, Some vq2 =>
             let bs := substr js (bq1 + 1) (bq2 - bq1 - 1) in
             let vs := substr js (vq1 + 1) (vq2 - vq1 - 1) in
             let out' :=
               out ++ [mkNowcTime (String.string_of_list_byte bs)
                                  (String.string_of_list_byte vs)] in
             if Nat.ltb 120 (length out') then out'
             else FetchTimes_loop (S fuel) js (vq2 + 1) out'
         | _, _, _, _ => out
         end
     | _, _ => out
     end).
  cbn [FetchTimes_loop].
  destruct (find js key_basetime pos) as [b|]; [|done].
  destruct (find js key_validtime pos) as [v|]; [|done]. cbv zeta.
  destruct (find js [quote] (b + 10)) as [bq1|]; [|done].
  destruct (find js [quote] (next_index (Some bq1))) as [bq2|]; [|done].
  destruct (find js [quote] (v + 11)) as [vq1|]; [|done].
  destruct (find js [quote] (next_index (Some vq1))) as [vq2|]; [|done].
  destruct (Nat.ltb_spec 120 (length (out ++ [mkNowcTime
    (String.string_of_list_byte (substr js (bq1 + 1) (bq2 - bq1 - 1)))
    (String.string_of_list_byte (substr js (vq1 + 1) (vq2 - vq1 - 1)))])))
    as [Hfull|Hroom]; [done|].
  rewrite length_app in Hroom. simpl in Hroom.
  apply IH; rewrite length_app; simpl; lia.
Qed.

(** X13.  The parse loop stops by itself: it yields at most 121 entries, and any
    number of rounds from 121 up gives the same list, so the bound of 121
    rounds is never what ends it. *)
Theorem FetchTimes_loop_stops (fuel : nat) (js : list BYTE) :
  121 ≤ fuel →
  FetchTimes_loop fuel js 0 [] = FetchTimes_loop 121 js 0 [] ∧
  length (FetchTimes_loop fuel js 0 []) ≤ 121.
Proof.
  intros Hfuel. split; [|apply FetchTimes_loop_length; simpl; lia].
  induction Hfuel as [|fuel Hfuel IH]; [done|].
  rewrite FetchTimes_loop_fuel; [done|simpl; lia|simpl; lia].
Qed.

Lemma Byte_eqb_refl c : Byte.eqb c c = true.
Proof. by apply Byte.byte_dec_lb. Qed.

Lemma Byte_eqb_sym a b : Byte.eqb a b = Byte.eqb b a.
Proof.
  destruct (Byte.eqb a b) eqn:Hab.
  - apply Byte.byte_dec_bl in Hab as ->. symmetry. apply Byte_eqb_refl.
  - destruct (Byte.eqb b a) eqn:Hba; [|done].
    apply Byte.byte_dec_bl in Hba as ->. by rewrite Byte_eqb_refl in Hab.
Qed.

Lemma starts_with_app pat s : starts_with pat (pat ++ s) = true.
Proof. induction pat as [|p pat IH]; simpl; [done|]. by rewrite Byte_eqb_refl. Qed.

Lemma find_sub_unfold pat s off :
  find_sub pat s off =
  if starts_with pat s then Some off
  else match s with [] => None | _ :: s' => find_sub pat s' (S off) end.
Proof. by destruct s. Qed.

Lemma find_sub_hit pat s off : find_sub pat (pat ++ s) off = Some off.
Proof. by rewrite find_sub_unfold, starts_with_app. Qed.

Lemma find_sub_skip c2 pat l s off :
  plain_for c2 l = true →
  find_sub (quote :: c2 :: pat) (l ++ s) off
  = find_sub (quote :: c2 :: pat) s (off + length l).
Proof.
  revert off. induction l as [|c l IH]; intros off Hl.
  - simpl. by rewrite Nat.add_0_r.
  - cbn [plain_for] in Hl. apply andb_true_iff in Hl as [Hc Hl].
    change ((c :: l) ++ s) with (c :: (l ++ s)). rewrite find_sub_unfold.
    assert (starts_with (quote :: c2 :: pat) (c :: l ++ s) = false) as ->.
    { cbn [starts_with]. rewrite (Byte_eqb_sym quote c).
      destruct (Byte.eqb c quote); [|done].
      destruct l as [|c' l]; [done|]. cbn [app starts_with].
      rewrite (Byte_eqb_sym c2 c'). apply negb_true_iff in Hc. by rewrite Hc. }
    rewrite IH by done. f_equal. simpl. lia.
Qed.

Lemma find_sub_none c2 pat l off :
  plain_for c2 l = true → find_sub (quote :: c2 :: pat) l off = None.
Proof.
  intros Hl. rewrite <- (app_nil_r l), find_sub_skip by done. done.
Qed.

Lemma is_digit_not_quote c : is_digit c = true → Byte.eqb c quote = false.
Proof. by destruct c. Qed.

Lemma is_digit_not_letter c :
  is_digit c = true → Byte.eqb c Byte.x62 = false ∧ Byte.eqb c Byte.x76 = false.
Proof. by destruct c. Qed.

Lemma find_quote_skip l s off :
  forallb is_digit l = true →
  find_sub [quote] (l ++ s) off = find_sub [quote] s (off + length l).
Proof.
  revert off. induction l as [|c l IH]; intros off Hl.
  - simpl. by rewrite Nat.add_0_r.
  - cbn [forallb] in Hl. apply andb_true_iff in Hl as [Hc Hl].
    change ((c :: l) ++ s) with (c :: (l ++ s)). rewrite find_sub_unfold.
    cbn [starts_with]. rewrite (Byte_eqb_sym quote c), (is_digit_not_quote c Hc).
    cbn [andb]. rewrite IH by done. f_equal. simpl. lia.
Qed.

Lemma plain_for_app c2 l1 l2 :
  plain_for c2 l1 = true → plain_for c2 l2 = true → plain_for c2 (l1 ++ l2) = true.
Proof.
  intros H1 H2. induction l1 as [|c l1 IH]; [done|].
  cbn [plain_for] in H1. apply andb_true_iff in H1 as [Hc H1].
  change ((c :: l1) ++ l2) with (c :: (l1 ++ l2)). cbn [plain_for].
  rewrite IH by done. rewrite andb_true_r.
  destruct (Byte.eqb c quote); [|done]. by destruct l1.
Qed.

(** A quoted run of digits followed by a comma begins no key. *)
Lemma plain_for_value c2 B :
  Byte.eqb quote c2 = false → Byte.eqb Byte.x2c c2 = false →
  (∀ c, is_digit c = true → Byte.eqb c c2 = false) →
  forallb is_digit B = true →
  plain_for c2 (quote :: B ++ [quote; Byte.x2c]) = true.
Proof.
  intros Hq Hcomma Hdig HB.
  assert (plain_for c2 (B ++ [quote; Byte.x2c]) = true) as Hrest.
  { induction B as [|c B IH].
    - cbn [app plain_for]. by rewrite Byte_eqb_refl, Hcomma.
    - cbn [forallb] in HB. apply andb_true_iff in HB as [Hc HB].
      change ((c :: B) ++ [quote; Byte.x2c]) with (c :: (B ++ [quote; Byte.x2c])).
      cbn [plain_for]. rewrite (is_digit_not_quote c Hc). by rewrite IH. }
  cbn [plain_for]. rewrite Byte_eqb_refl, Hrest, andb_true_r.
  destruct B as [|c B]; simpl.
  - by rewrite Hq.
  - cbn [forallb] in HB. apply andb_true_iff in HB as [Hc _]. by rewrite Hdig.
Qed.

Lemma find_at a s js pat p :
  js = a ++ s → p = length a → find js pat p = find_sub pat s p.
Proof.
  intros -> ->. unfold find. rewrite drop_app_length.
  rewrite (proj2 (Nat.leb_le _ _)); [done|]. rewrite length_app. lia.
Qed.

Lemma substr_at a s js p n :
  js = a ++ s → p = length a → substr js p n = take n s.
Proof. intros -> ->. unfold substr. by rewrite drop_app_length. Qed.

Lemma find_basetime_skip l s off :
  plain_for Byte.x62 l = true →
  find_sub key_basetime (l ++ s) off = find_sub key_basetime s (off + length l).
Proof. apply (find_sub_skip Byte.x62). Qed.

Lemma find_validtime_skip l s off :
  plain_for Byte.x76 l = true →
  find_sub key_validtime (l ++ s) off = find_sub key_validtime s (off + length l).
Proof. apply (find_sub_skip Byte.x76). Qed.

Lemma find_quote_after_colon rest p :
  find_sub [quote] (Byte.x3a :: quote :: rest) p = Some (S p).
Proof. reflexivity. Qed.

(** The text from the start of an entry up to its [validtime] key begins no
    [validtime] key. *)
Lemma plain_before_validtime B :
  forallb is_digit B = true →
  plain_for Byte.x76 (key_basetime ++ [Byte.x3a; quote] ++ B ++ [quote; Byte.x2c]) = true.
Proof.
  intros HB.
  change (key_basetime ++ [Byte.x3a; quote] ++ B ++ [quote; Byte.x2c])
    with ((key_basetime ++ [Byte.x3a]) ++ quote :: B ++ [quote; Byte.x2c]).
  apply plain_for_app; [done|].
  apply plain_for_value; [done|done| |done].
  intros c Hc. by destruct (is_digit_not_letter c Hc).
Qed.

(** One round of the loop at the start of the filler before an entry. *)
Lemma FetchTimes_loop_entry fuel pre f0 B V tail out :
  filler f0 = true → forallb is_digit B = true → forallb is_digit V = true →
  let js := pre ++ f0 ++ json_entry B V ++ tail in
  let out' := out ++ [mkNowcTime (String.string_of_list_byte B)
                                 (String.string_of_list_byte V)] in
  FetchTimes_loop (S fuel) js (length pre) out
  = if Nat.ltb 120 (length out') then out'
    else FetchTimes_loop fuel js (length (pre ++ f0 ++ json_entry B V)) out'.
Proof.
  intros Hf0 HB HV js out'.
  apply andb_true_iff in Hf0 as [Hf0b Hf0v].
  set (rest_v := [Byte.x3a; quote] ++ V ++ [quote] ++ tail).
  set (rest_b := [Byte.x3a; quote] ++ B ++ [quote; Byte.x2c] ++ key_validtime ++ rest_v).
  assert (js = pre ++ f0 ++ key_basetime ++ rest_b) as Hjs.
  { unfold js, json_entry, rest_b, rest_v. by rewrite <- !app_assoc. }
  set (b := length pre + length f0).
  set (v := b + 14 + length B).
  assert (find js key_basetime (length pre) = Some b) as Hb.
  { rewrite (find_at pre (f0 ++ key_basetime ++ rest_b)) by done.
    rewrite find_basetime_skip by done. apply find_sub_hit. }
  assert (find js key_validtime (length pre) = Some v) as Hv.
  { rewrite (find_at pre (f0 ++ key_basetime ++ rest_b)) by done.
    rewrite find_validtime_skip by done.
    unfold rest_b.
    replace (key_basetime ++ [Byte.x3a; quote] ++ B ++ [quote; Byte.x2c]
               ++ key_validtime ++ rest_v)
      with ((key_basetime ++ [Byte.x3a; quote] ++ B ++ [quote; Byte.x2c])
              ++ key_validtime ++ rest_v) by (by rewrite <- !app_assoc).
    rewrite find_validtime_skip by by apply plain_before_validtime.
    rewrite find_sub_hit. f_equal. unfold v, b.
    rewrite !length_app. simpl. lia. }
  assert (find js [quote] (b + 10) = Some (b + 11)) as Hbq1.
  { rewrite (find_at (pre ++ f0 ++ key_basetime) rest_b).
    - unfold rest_b. cbn [app]. rewrite find_quote_after_colon. f_equal. lia.
    - rewrite Hjs. by rewrite <- !app_assoc.
    - unfold b. rewrite !length_app. simpl. lia. }
  assert (find js [quote] (S (b + 11)) = Some (b + 12 + length B)) as Hbq2.
  { rewrite (find_at (pre ++ f0 ++ key_basetime ++ [Byte.x3a; quote])
               (B ++ [quote; Byte.x2c] ++ key_validtime ++ rest_v)).
    - rewrite find_quote_skip by done.
      rewrite (find_sub_hit [quote] (Byte.x2c :: key_validtime ++ rest_v)).
      f_equal. lia.
    - rewrite Hjs. unfold rest_b. by rewrite <- !app_assoc.
    - unfold b. rewrite !length_app. simpl. lia. }
  assert (find js [quote] (v + 11) = Some (v + 12)) as Hvq1.
  { rewrite (find_at (pre ++ f0 ++ key_basetime ++ [Byte.x3a; quote] ++ B
                        ++ [quote; Byte.x2c] ++ key_validtime) rest_v).
    - unfold rest_v. cbn [app]. rewrite find_quote_after_colon. f_equal. lia.
    - rewrite Hjs. unfold rest_b. by rewrite <- !app_assoc.
    - unfold v, b. rewrite !length_app. simpl. lia. }
  assert (find js [quote] (S (v + 12)) = Some (v + 13 + length V)) as Hvq2.
  { rewrite (find_at (pre ++ f0 ++ key_basetime ++ [Byte.x3a; quote] ++ B
                        ++ [quote; Byte.x2c] ++ key_validtime ++ [Byte.x3a; quote])
               (V ++ [quote] ++ tail)).
    - rewrite find_quote_skip by done.
      rewrite (find_sub_hit [quote] tail). f_equal. lia.
    - rewrite Hjs. unfold rest_b, rest_v. by rewrite <- !app_assoc.
    - unfold v, b. rewrite !length_app. simpl. lia. }
  assert (substr js (b + 11 + 1) (b + 12 + length B - (b + 11) - 1) = B) as HsB.
  { rewrite (substr_at (pre ++ f0 ++ key_basetime ++ [Byte.x3a; quote])
               (B ++ [quote; Byte.x2c] ++ key_validtime ++ rest_v)).
    - replace (b + 12 + length B - (b + 11) - 1) with (length B) by lia.
      by rewrite take_app_length.
    - rewrite Hjs. unfold rest_b. by rewrite <- !app_assoc.
    - unfold b. rewrite !length_app. simpl. lia. }
  assert (substr js (v + 12 + 1) (v + 13 + length V - (v + 12) - 1) = V) as HsV.
  { rewrite (substr_at (pre ++ f0 ++ key_basetime ++ [Byte.x3a; quote] ++ B
                        ++ [quote; Byte.x2c] ++ key_validtime ++ [Byte.x3a; quote])
               (V ++ [quote] ++ tail)).
    - replace (v + 13 + length V - (v + 12) - 1) with (length V) by lia.
      by rewrite take_app_length.
    - rewrite Hjs. unfold rest_b, rest_v. by rewrite <- !app_assoc.
    - unfold v, b. rewrite !length_app. simpl. lia. }
  assert (v + 13 + length V + 1 = length (pre ++ f0 ++ json_entry B V)) as Hpos.
  { unfold v, b, json_entry. rewrite !length_app. simpl. lia. }
  cbn [FetchTimes_loop]. rewrite Hb, Hv. cbv zeta.
  rewrite Hbq1. cbn [next_index]. rewrite Hbq2, Hvq1. cbn [next_index].
  rewrite Hvq2, HsB, HsV, Hpos. done.
Qed.

Lemma FetchTimes_loop_entries items :
  ∀ fuel pre f0 out,
    filler f0 = true → forallb item_ok items = true →
    length out ≤ 120 → 121 ≤ fuel + length out →
    FetchTimes_loop fuel (pre ++ f0 ++ json_entries items) (length pre) out
    = out ++ take (121 - length out) (item_time <$> items).
Proof.
  induction items as [|[B V after] items IH]; intros fuel pre f0 out Hf0 Hok Hlen Hfuel;
    (destruct fuel as [|fuel]; [lia|]).
  - cbn [json_entries fmap list_fmap]. rewrite take_nil, !app_nil_r.
    cbn [FetchTimes_loop].
    rewrite (find_at pre f0) by done.
    apply andb_true_iff in Hf0 as [Hf0b _].
    replace (find_sub key_basetime f0 (length pre)) with (@None nat); [done|].
    symmetry. by apply (find_sub_none Byte.x62).
  - cbn [forallb] in Hok. apply andb_true_iff in Hok as [Hit Hok].
    unfold item_ok in Hit. cbn [item_base item_valid item_after] in Hit.
    apply andb_true_iff in Hit as [Hit Hafter].
    apply andb_true_iff in Hit as [HB HV].
    cbn [json_entries item_base item_valid item_after].
    rewrite FetchTimes_loop_entry by done. rewrite length_app. cbn [length].
    replace (121 - length out) with (S (120 - length out)) by lia.
    cbn [fmap list_fmap take]. fold (fmap (M := list) item_time items).
    destruct (Nat.ltb_spec 120 (length out + 1)) as [Hfull|Hroom].
    + replace (120 - length out) with 0 by lia. by rewrite take_0.
    + replace (pre ++ f0 ++ json_entry B V ++ after ++ json_entries items)
        with ((pre ++ f0 ++ json_entry B V) ++ after ++ json_entries items)
        by (by rewrite <- !app_assoc).
      rewrite IH; [|done|done|rewrite length_app; simpl; lia..].
      rewrite length_app. cbn [length]. rewrite <- app_assoc.
      do 3 f_equal. lia.
Qed.


(** ** Two fetches for one key *)

Section Duplicate.

Variable LoadPngToD2D : list BYTE → option ID2D1Bitmap.

(** X15.  When two workers hold a job for the same key (the key was requested,
    evicted while pending and requested again) and the entry is pending: if
    the first fetch succeeds, the next call decodes it into a bitmap [b], and
    the second fetch then fails, the failed job erases the entry together with
    [b]; nothing releases [b], before or after. *)
Theorem failed_duplicate_fetch_drops_bitmap (s : Globals) (p : ThreadPool)
    (key : string) (isOverlay : bool) (w1 w2 : nat) (it : Img)
    (net_ok net_fail : WinHttp) (buf : list BYTE) (b : ID2D1Bitmap)
    (now : time_point) :
  gPool s = Some p →
  workers p !! w1 = Some (Some (mkJob key isOverlay)) →
  workers p !! w2 = Some (Some (mkJob key isOverlay)) →
  w1 ≠ w2 →
  gCache s !! key = Some it → bmp it = None →
  HttpGet net_ok [] = (true, buf) →
  LoadPngToD2D buf = Some b →
  (HttpGet net_fail []).1 = false →
  let s1 := run LoadPngToD2D s [WorkerFinish w1 net_ok] in
  let r := GetOrFetchBitmap LoadPngToD2D key now isOverlay s1 in
  let s' := run LoadPngToD2D r.1 [WorkerFinish w2 net_fail] in
  r.2 = (Some b, true) ∧
  gCache r.1 !! key = Some (mkImg [] (Some b) now) ∧
  gCache s' = delete key (gCache s) ∧
  gLog s' = gLog s ++ (if hwnd s then [PostTileReady] else []) ++ [Decode buf] ∧
  Release b ∉ drop (length (gLog s)) (gLog s').
Proof.
  intros Hp Hw1 Hw2 Hne Hit Hbmp Hok Hdec Hfail s1 r s'.
  assert (buf ≠ []) as Hbuf.
  { pose proof (HttpGet_ok net_ok []) as H. rewrite Hok in H.
    by destruct (H eq_refl) as (_ & ? & _). }
  set (p1 := mkPool (<[w1 := None]> (workers p)) (tasks p)).
  assert (s1 = emit (mkGlobals (<[key := mkImg buf None (lastUsed it)]> (gCache s))
                               (Some p1) (hwnd s) (gLog s))
                    (if hwnd s then [PostTileReady] else [])) as Hs1.
  { unfold s1, run. simpl. unfold worker_finish. rewrite Hp, Hw1.
    unfold fetch_job. rewrite Hok. unfold commit_fetch. simpl.
    rewrite Hit. simpl. by rewrite Hbmp. }
  assert (r = (emit (with_cache s1 (<[key := mkImg [] (Some b) now]> (gCache s1)))
                    [Decode buf], (Some b, true))) as Hr.
  { unfold r. rewrite (GetOrFetch_hit _ _ _ _ _ (mkImg buf None (lastUsed it)))
      by (rewrite Hs1; apply lookup_insert_eq).
    unfold touch. simpl. rewrite (bool_decide_eq_false_2 _ Hbuf). simpl.
    by rewrite Hdec. }
  assert (s' = with_cache (with_pool r.1 (mkPool (<[w2 := None]> (workers p1)) (tasks p1)))
                 (delete key (gCache r.1))) as Hs'.
  { unfold s', run. simpl. unfold worker_finish.
    assert (gPool r.1 = Some p1) as -> by (by rewrite Hr, Hs1).
    assert (workers p1 !! w2 = Some (Some (mkJob key isOverlay))) as ->.
    { unfold p1. simpl. by rewrite list_lookup_insert_ne. }
    rewrite fetch_job_failed; [done|done|]. simpl.
    rewrite Hr. simpl. rewrite lookup_insert_eq. eauto. }
  split; [by rewrite Hr|]. split; [rewrite Hr; apply lookup_insert_eq|].
  assert (gLog s' = gLog s ++ (if hwnd s then [PostTileReady] else []) ++ [Decode buf])
    as Hlog.
  { rewrite Hs', Hr, Hs1. simpl. by rewrite <- app_assoc. }
  split; [|split; [done|]].
  - rewrite Hs', Hr, Hs1. simpl.
    by rewrite delete_insert_eq, delete_insert_eq.
  - rewrite Hlog, drop_app_length.
    intros [Hin|Hin]%elem_of_app.
    + destruct (hwnd s); [|by apply elem_of_nil in Hin].
      by apply list_elem_of_singleton in Hin.
    + by apply list_elem_of_singleton in Hin.
Qed.

End Duplicate.

(** ** The time label *)

Lemma format_validtime_defined t :
  is_Some (format_validtime t) ↔ 10 ≤ String.length t.
Proof.
  unfold format_validtime, wsubstr.
  destruct (Nat.leb_spec 4 (String.length t)), (Nat.leb_spec 6 (String.length t)),
    (Nat.leb_spec 8 (String.length t)), (Nat.leb_spec 10 (String.length t));
    csimpl; try lia; try (split; [by intros ?%is_Some_None | lia]).
  split; [intros _; lia | eauto].
Qed.

(** X16.  The label of the time shown.  Formatting a [validtime] works exactly
    when it has at least 10 characters; a shorter one makes [substr] throw.
    For a stamp [YYYYMMDDhhmm...] the label is [MM/DD hh:mm].  With a valid
    index into a loaded list, the time part of the title is therefore defined
    exactly when the [validtime] shown has at least 10 characters. *)
Theorem time_label_needs_ten_characters (c : TimeCtl) (t : NowcTime)
    (y1 y2 y3 y4 m1 m2 d1 d2 h1 h2 n1 n2 : Ascii.ascii) (rest : string) :
  (is_Some (format_validtime (validtime t)) ↔ 10 ≤ String.length (validtime t)) ∧
  format_validtime
    (String y1 (String y2 (String y3 (String y4 (String m1 (String m2
       (String d1 (String d2 (String h1 (String h2 (String n1 (String n2 rest))))))))))))
  = Some (String m1 (String m2 ("/" +:+ String d1 (String d2 (" "
       +:+ String h1 (String h2 (":" +:+ String n1 (String n2 ""))))))))  ∧
  (gTimes c !! Z.to_nat (gTimeIndex c) = Some t → (0 ≤ gTimeIndex c)%Z →
   (is_Some (UpdateTitle_timeStr c) ↔ 10 ≤ String.length (validtime t))).
Proof.
  split; [apply format_validtime_defined|]. split; [by destruct rest|].
  intros Ht Hidx. unfold UpdateTitle_timeStr.
  assert (gTimes c ≠ []) as Hne by (intros Hnil; by rewrite Hnil in Ht).
  apply lookup_lt_Some in Ht as Hlt.
  rewrite (bool_decide_eq_false_2 _ Hne). simpl.
  rewrite (proj2 (Z.leb_le _ _) Hidx). simpl.
  rewrite (proj2 (Z.ltb_lt _ _)) by lia. rewrite Ht.
  rewrite <- format_validtime_defined.
  destruct (format_validtime (validtime t)); simpl; split; eauto.
Qed.

(** ** The map view *)

Lemma clamp_double_cases (v lo hi : R) :
  (lo <= hi)%R →
  (lo <= clamp_double v lo hi <= hi)%R ∧
  ((lo <= v <= hi)%R → clamp_double v lo hi = v).
Proof.
  intros Hle. unfold clamp_double.
  destruct (Rlt_dec v lo), (Rlt_dec hi v); split; intros; lra.
Qed.

Lemma ClampViewToJapan_zoom g : zoom (ClampViewToJapan g) = zoom g.
Proof. done. Qed.

Lemma ClampViewToJapan_in_japan g : view_in_japan (ClampViewToJapan g).
Proof.
  unfold view_in_japan. rewrite ClampViewToJapan_zoom.
  unfold ClampViewToJapan, with_origin, fits. cbn [originWX originWY clientW clientH].
  set (z := Int_part (zoom g)). set (sc := Rpower 2 (zoom g - IZR z)).
  generalize (LonLatToWorldX JAPAN_MIN_LON z) (LonLatToWorldX JAPAN_MAX_LON z)
             (LonLatToWorldY JAPAN_MAX_LAT z) (LonLatToWorldY JAPAN_MIN_LAT z)
             (IZR (clientW g) / sc)%R (IZR (clientH g) / sc)%R.
  intros x0 x1 y0 y1 vw vh.
  destruct (Rge_dec vw (x1 - x0)) as [Hw|Hw], (Rge_dec vh (y1 - y0)) as [Hh|Hh];
    repeat split; intros; try lra;
    try (pose proof (clamp_double_cases (originWX g) x0 (x1 - vw)); lra);
    try (pose proof (clamp_double_cases (originWY g) y0 (y1 - vh)); lra).
Qed.

Lemma Int_part_range (x : R) (lo hi : Z) :
  (IZR lo <= x <= IZR hi)%R → (lo ≤ Int_part x ≤ hi)%Z.
Proof.
  intros [Hlo Hhi]. destruct (base_Int_part x) as [H1 H2]. split.
  - assert (IZR lo - 1 < IZR (Int_part x))%R as H by lra.
    rewrite <- minus_IZR in H. apply lt_IZR in H. lia.
  - apply le_IZR. lra.
Qed.

Lemma Int_part_lower (x : R) (lo : Z) : (IZR lo <= x)%R → (lo ≤ Int_part x)%Z.
Proof.
  intros Hlo. destruct (base_Int_part x) as [H1 H2].
  assert (IZR lo - 1 < IZR (Int_part x))%R as H by lra.
  rewrite <- minus_IZR in H. apply lt_IZR in H. lia.
Qed.

Lemma Rpower_2_pos (x : R) : (0 < Rpower 2 x)%R.
Proof. unfold Rpower. apply exp_pos. Qed.

Lemma IZR_pow2 (z : Z) : (0 ≤ z)%Z → IZR (2 ^ z) = powerRZ 2 z.
Proof.
  intros Hz. destruct z as [|p|p]; [done| |lia].
  apply Zpower_pos_powerRZ.
Qed.

Lemma world_size_rescale (a b : Z) :
  (0 ≤ a)%Z → (0 ≤ b)%Z →
  IZR (TILE_SIZE * 2 ^ b) = (IZR (TILE_SIZE * 2 ^ a) * powerRZ 2 (b - a))%R.
Proof.
  intros Ha Hb. rewrite !mult_IZR, !IZR_pow2 by done.
  rewrite Rmult_assoc, <- powerRZ_add by lra. do 2 f_equal. lia.
Qed.

Lemma clamp_double_range (v lo hi : R) :
  (lo <= hi)%R → (lo <= clamp_double v lo hi <= hi)%R.
Proof. intros. by apply clamp_double_cases. Qed.

Lemma view_in_japan_fixed g : view_in_japan g → ClampViewToJapan g = g.
Proof.
  destruct g as [cw ch zm ox oy dr ds dx dy].
  unfold view_in_japan, ClampViewToJapan, with_origin, fits.
  cbn [originWX originWY clientW clientH zoom dragging dragStart dragStartWX dragStartWY].
  set (z := Int_part zm). set (sc := Rpower 2 (zm - IZR z)).
  generalize (LonLatToWorldX JAPAN_MIN_LON z) (LonLatToWorldX JAPAN_MAX_LON z)
             (LonLatToWorldY JAPAN_MAX_LAT z) (LonLatToWorldY JAPAN_MIN_LAT z)
             (IZR cw / sc)%R (IZR ch / sc)%R.
  intros x0 x1 y0 y1 vw vh [[Hx1 Hx2] [Hy1 Hy2]].
  f_equal.
  - destruct (Rge_dec vw (x1 - x0)) as [Hw|Hw]; [lra|].
    apply clamp_double_cases; lra.
  - destruct (Rge_dec vh (y1 - y0)) as [Hh|Hh]; [lra|].
    apply clamp_double_cases; lra.
Qed.

(** X17.  [ClampViewToJapan] puts the view in place against the box of Japan, on
    each axis: a view shorter than the box lies inside it, any other view
    shares its middle.  It moves exactly the views that are not in place
    already (so it is idempotent) and leaves the zoom and the client size
    alone. *)
Theorem ClampViewToJapan_fits_view (g : App) :
  view_in_japan (ClampViewToJapan g) ∧
  (view_in_japan g ↔ ClampViewToJapan g = g) ∧
  zoom (ClampViewToJapan g) = zoom g ∧
  clientW (ClampViewToJapan g) = clientW g ∧
  clientH (ClampViewToJapan g) = clientH g.
Proof.
  split; [apply ClampViewToJapan_in_japan|]. split; [|done].
  split; [apply view_in_japan_fixed|].
  intros <-. apply ClampViewToJapan_in_japan.
Qed.

(** X18.  After [CenterOnLonLat] the centre of the view that [UpdateTitle] reads
    is the world point of the given longitude and latitude, and the longitude
    shown in the title is the given one; the zoom is untouched. *)
Theorem CenterOnLonLat_centers (lon lat : R) (g : App) :
  (0 <= zoom g)%R →
  let g' := CenterOnLonLat lon lat g in
  let z := Int_part (zoom g) in
  zoom g' = zoom g ∧
  UpdateTitle_center g' = (LonLatToWorldX lon z, LonLatToWorldY lat z) ∧
  UpdateTitle_lon g' = lon.
Proof.
  intros Hz g' z.
  assert (UpdateTitle_center g' = (LonLatToWorldX lon z, LonLatToWorldY lat z)) as Hc.
  { unfold UpdateTitle_center, g', CenterOnLonLat, with_origin.
    cbn [originWX originWY clientW clientH zoom]. fold z.
    pose proof (Rpower_2_pos (zoom g - IZR z)).
    f_equal; field; lra. }
  split; [done|]. split; [done|].
  unfold UpdateTitle_lon. rewrite Hc. cbn [fst].
  change (zoom g') with (zoom g). fold z.
  apply WorldX_round_trip.
  apply Int_part_lower. simpl. lra.
Qed.

(** X19.  The zoom step of [ZoomAtCenter], before the view is clamped: the new
    zoom is the old one plus [delta] cut to [2, 18], and the window pixel
    [(clientW / 2, clientH / 2)] shows the same longitude and latitude as
    before, whether or not the integer zoom level changes. *)
Theorem ZoomAtCenter_rescale_keeps_center (delta : R) (g : App) :
  (0 <= zoom g)%R →
  let g' := ZoomAtCenter_rescale delta g in
  let center_x (a : App) :=
    (originWX a + IZR (Z.quot (clientW a) 2) / Rpower 2 (zoom a - IZR (Int_part (zoom a))))%R in
  let center_y (a : App) :=
    (originWY a + IZR (Z.quot (clientH a) 2) / Rpower 2 (zoom a - IZR (Int_part (zoom a))))%R in
  zoom g' = clamp_double (zoom g + delta) 2 18 ∧
  WorldXToLon (center_x g') (Int_part (zoom g')) = WorldXToLon (center_x g) (Int_part (zoom g)) ∧
  WorldYToLat (center_y g') (Int_part (zoom g')) = WorldYToLat (center_y g) (Int_part (zoom g)).
Proof.
  intros Hz g' center_x center_y.
  assert (zoom g' = clamp_double (zoom g + delta) 2 18) as Hzoom by done.
  split; [done|].
  assert (0 ≤ Int_part (zoom g))%Z as HzO.
  { apply Int_part_lower. simpl. lra. }
  assert (0 ≤ Int_part (zoom g'))%Z as HzN.
  { apply Int_part_lower. rewrite Hzoom.
    pose proof (clamp_double_range (zoom g + delta) 2 18). simpl. lra. }
  pose proof (world_size_pos _ HzO) as HsO.
  pose proof (world_size_pos _ HzN) as HsN.
  pose proof (world_size_rescale _ _ HzO HzN) as Hs.
  pose proof (Rpower_2_pos (zoom g - IZR (Int_part (zoom g)))) as HpO.
  pose proof (Rpower_2_pos (zoom g' - IZR (Int_part (zoom g')))) as HpN.
  assert (center_x g' / IZR (TILE_SIZE * 2 ^ Int_part (zoom g'))
          = center_x g / IZR (TILE_SIZE * 2 ^ Int_part (zoom g)))%R as Hx.
  { unfold center_x. unfold g' at 1 2. unfold ZoomAtCenter_rescale.
    cbn [originWX clientW]. fold g'. change (clamp_double _ _ _) with (zoom g').
    destruct (Z.eq_dec (Int_part (zoom g')) (Int_part (zoom g))) as [He|Hne].
    - rewrite He. rewrite He in HpN. field. lra.
    - rewrite Hs.
      pose proof (powerRZ_lt 2 (Int_part (zoom g') - Int_part (zoom g))) as Hb.
      field. lra. }
  assert (center_y g' / IZR (TILE_SIZE * 2 ^ Int_part (zoom g'))
          = center_y g / IZR (TILE_SIZE * 2 ^ Int_part (zoom g)))%R as Hy.
  { unfold center_y. unfold g' at 1 2. unfold ZoomAtCenter_rescale.
    cbn [originWY clientH]. fold g'. change (clamp_double _ _ _) with (zoom g').
    destruct (Z.eq_dec (Int_part (zoom g')) (Int_part (zoom g))) as [He|Hne].
    - rewrite He. rewrite He in HpN. field. lra.
    - rewrite Hs.
      pose proof (powerRZ_lt 2 (Int_part (zoom g') - Int_part (zoom g))) as Hb.
      field. lra. }
  unfold WorldXToLon, WorldYToLat. cbv zeta. by rewrite Hx, Hy.
Qed.

Lemma zoom_step_quarter (v d : R) (k j : Z) :
  v = (IZR k / 4)%R → d = (IZR j / 4)%R →
  ∃ k' : Z, clamp_double (v + d) (IZR MIN_MAP_ZOOM) (IZR MAX_MAP_ZOOM) = (IZR k' / 4)%R.
Proof.
  intros -> ->. unfold clamp_double, MIN_MAP_ZOOM, MAX_MAP_ZOOM.
  destruct (Rlt_dec _ _); [exists 8%Z; lra|].
  destruct (Rlt_dec _ _); [exists 72%Z; lra|].
  exists (k + j)%Z. rewrite plus_IZR. lra.
Qed.


Lemma ZoomAtCenter_ok (j : Z) (d : R) (g : App) :
  d = (IZR j / 4)%R → (∃ k : Z, zoom g = (IZR k / 4)%R) → view_ok (ZoomAtCenter d g).
Proof.
  intros Hd [k Hk]. split; [apply ClampViewToJapan_in_japan|].
  change (zoom (ZoomAtCenter d g))
    with (clamp_double (zoom g + d) (IZR MIN_MAP_ZOOM) (IZR MAX_MAP_ZOOM)).
  split; [|by apply (zoom_step_quarter _ _ k j)].
  apply clamp_double_range. unfold MIN_MAP_ZOOM, MAX_MAP_ZOOM. lra.
Qed.

Lemma WndProc_view_ok (g : App) (m : view_message) :
  view_ok g → view_ok (WndProc_view g m).
Proof.
  intros (Hv & Hr & Hq). destruct m as [w h|x y|sx sy| |delta|]; cbn [WndProc_view].
  - split; [apply ClampViewToJapan_in_japan|]. done.
  - done.
  - destruct (dragging g); [|done].
    split; [apply ClampViewToJapan_in_japan|]. done.
  - done.
  - destruct (Z.ltb 0 delta).
    + apply (ZoomAtCenter_ok 1); [lra|done].
    + apply (ZoomAtCenter_ok (-1)); [lra|done].
  - apply (ZoomAtCenter_ok 0); [lra|done].
Qed.

Lemma wWinMain_view_ok (w h : Z) : view_ok (wWinMain_view w h).
Proof.
  split; [apply ClampViewToJapan_in_japan|].
  change (zoom (wWinMain_view w h)) with (IZR DEFAULT_ZOOM). unfold DEFAULT_ZOOM.
  split; [lra|]. exists 24%Z. lra.
Qed.

(** X20.  Whatever resizes, drags, wheel turns and resets follow the start of the
    message loop, the view is in place against the box of Japan and the zoom
    is a multiple of 0.25 between 2 and 18. *)
Theorem view_stays_in_japan (w h : Z) (ms : list view_message) :
  let g := foldl WndProc_view (wWinMain_view w h) ms in
  view_in_japan g ∧ (2 <= zoom g <= 18)%R ∧ ∃ k : Z, zoom g = (IZR k / 4)%R.
Proof.
  cbv zeta. change (view_ok (foldl WndProc_view (wWinMain_view w h) ms)).
  induction ms as [|m ms IH] using rev_ind; [apply wWinMain_view_ok|].
  rewrite foldl_app. by apply WndProc_view_ok.
Qed.

Lemma elem_of_int_range (a b t : Z) : t ∈ int_range a b ↔ (a ≤ t ≤ b)%Z.
Proof.
  unfold int_range. rewrite list_elem_of_fmap. split.
  - intros (i & -> & Hi). apply elem_of_seq in Hi. lia.
  - intros Ht. exists (Z.to_nat (t - a)). split; [lia|].
    apply elem_of_seq. lia.
Qed.

Lemma Int_part_mono (x y : R) : (x <= y)%R → (Int_part x ≤ Int_part y)%Z.
Proof.
  intros Hxy. apply Int_part_lower.
  pose proof (base_Int_part x). lra.
Qed.

Lemma Rltb_true (a b : R) : Rltb a b = true ↔ (a < b)%R.
Proof. unfold Rltb. by destruct (Rlt_dec a b). Qed.

(** One axis of a tile loop: the tile under the pixel [p] is one of the loop,
    also with [b] more tiles on either side, and its span holds [p]. *)
Lemma tile_under_pixel (o sc T p len : R) (b : Z) :
  (0 < sc)%R → (0 < T)%R → (0 <= p < len)%R → (0 ≤ b)%Z →
  let t := Int_part ((o + p / sc) / T) in
  (Int_part (o / T) - b ≤ t ≤ Int_part ((o + len / sc) / T) + b)%Z ∧
  ((IZR t * T - o) * sc <= p < (IZR t * T - o) * sc + T * sc)%R.
Proof.
  intros Hsc HT Hp Hb t.
  assert (0 <= p / sc)%R as Hq.
  { apply Rmult_le_pos; [lra|]. apply Rlt_le, Rinv_0_lt_compat, Hsc. }
  assert (p / sc <= len / sc)%R as Hq'.
  { apply Rmult_le_compat_r; [|lra]. apply Rlt_le, Rinv_0_lt_compat, Hsc. }
  assert (o / T <= (o + p / sc) / T)%R as H1.
  { apply Rmult_le_compat_r; [|lra]. apply Rlt_le, Rinv_0_lt_compat, HT. }
  assert ((o + p / sc) / T <= (o + len / sc) / T)%R as H2.
  { apply Rmult_le_compat_r; [|lra]. apply Rlt_le, Rinv_0_lt_compat, HT. }
  split.
  - pose proof (Int_part_mono _ _ H1). pose proof (Int_part_mono _ _ H2). lia.
  - destruct (base_Int_part ((o + p / sc) / T)) as [Hlo Hhi]. fold t in Hlo, Hhi.
    set (u := ((o + p / sc) / T)%R) in *.
    assert (p = (u * T - o) * sc)%R as Hpu by (unfold u; field; lra).
    assert (IZR t * T <= u * T)%R by (apply Rmult_le_compat_r; lra).
    assert (u * T < (IZR t + 1) * T)%R by (apply Rmult_lt_compat_r; lra).
    assert ((IZR t * T - o) * sc <= (u * T - o) * sc)%R
      by (apply Rmult_le_compat_r; lra).
    assert ((u * T - o) * sc < ((IZR t + 1) * T - o) * sc)%R
      by (apply Rmult_lt_compat_r; lra).
    lra.
Qed.

Lemma DrawScene_zDL_range g : (2 ≤ DrawScene_zDL g ≤ 18)%Z.
Proof.
  unfold DrawScene_zDL.
  rewrite clamp_int_min_max; unfold MIN_MAP_ZOOM, MAX_MAP_ZOOM; lia.
Qed.

Lemma current_scale_pos g : (0 < current_scale g)%R.
Proof. apply Rpower_2_pos. Qed.

Lemma tile_nx_range (tx maxT : Z) : (0 < maxT)%Z → (0 ≤ tile_nx tx maxT < maxT)%Z.
Proof.
  intros Hpos. unfold tile_nx.
  assert (- maxT < Z.rem tx maxT < maxT)%Z as Hr.
  { pose proof (Z.rem_bound_abs tx maxT). lia. }
  rewrite Z.rem_mod_nonneg by lia. apply Z.mod_pos_bound. lia.
Qed.

Lemma tile_ny_range (ty maxT : Z) : (0 < maxT)%Z → (0 ≤ tile_ny ty maxT < maxT)%Z.
Proof.
  intros Hpos. unfold tile_ny. rewrite clamp_int_min_max by lia. lia.
Qed.

Lemma on_screen_spec g dst :
  on_screen g dst = true ↔
  (0 < rect_right dst ∧ rect_left dst < IZR (clientW g) ∧
   0 < rect_bottom dst ∧ rect_top dst < IZR (clientH g))%R.
Proof.
  unfold on_screen. rewrite !andb_true_iff, !Rltb_true. tauto.
Qed.

(** ** The tiles of a scene *)


Lemma GetJmaZoomLevel_range (z : Z) : (4 ≤ GetJmaZoomLevel z ≤ 13)%Z.
Proof.
  unfold GetJmaZoomLevel. rewrite clamp_int_min_max; unfold MIN_DL_ZOOM, MAX_DL_ZOOM; lia.
Qed.


Lemma Int_part_ratio (n : Z) (d : positive) :
  Int_part (IZR n / IZR (Zpos d)) = (n / Zpos d)%Z ∧
  (IZR n / IZR (Zpos d) = IZR (n / Zpos d) ↔ (n mod Zpos d = 0)%Z)%R.
Proof.
  pose proof (Z.div_mod n (Zpos d)) as Hdm.
  pose proof (Z.mod_pos_bound n (Zpos d)) as Hr.
  set (f := (n / Zpos d)%Z) in *. set (r := (n mod Zpos d)%Z) in *.
  assert (0 < IZR (Zpos d))%R as Hd by (apply IZR_lt; lia).
  assert (IZR n / IZR (Zpos d) = IZR f + IZR r / IZR (Zpos d))%R as Hq.
  { rewrite Hdm by lia. rewrite plus_IZR, mult_IZR. field. lra. }
  assert (0 <= IZR r / IZR (Zpos d) < 1)%R as Hfr.
  { split.
    - apply Rmult_le_pos; [apply IZR_le; lia|]. apply Rlt_le, Rinv_0_lt_compat, Hd.
    - apply (Rmult_lt_reg_r (IZR (Zpos d))); [done|].
      replace (IZR r / IZR (Zpos d) * IZR (Zpos d))%R with (IZR r) by (field; lra).
      rewrite Rmult_1_l. apply IZR_lt. lia. }
  split.
  - symmetry. apply Int_part_spec. lra.
  - rewrite Hq. split.
    + intros H. assert (IZR r / IZR (Zpos d) = 0)%R as H0 by lra.
      apply (Rmult_eq_compat_r (IZR (Zpos d))) in H0.
      replace (IZR r / IZR (Zpos d) * IZR (Zpos d))%R with (IZR r) in H0 by (field; lra).
      rewrite Rmult_0_l in H0. by apply eq_IZR in H0.
    + intros ->. lra.
Qed.

(** X23.  At a rational zoom [q], the base-map zoom and the overlay zoom that
    [DrawScene] computes from the view are [zDL q] and [zJMA q]: the rule on
    rationals describes the scene at every zoom the view takes. *)
Theorem DrawScene_zoom_of_ratio (q : Q) (g : App) :
  zoom g = (IZR (Qnum q) / IZR (Zpos (Qden q)))%R →
  DrawScene_zDL g = zDL q ∧ DrawScene_zJMA g = zJMA q.
Proof.
  intros Hz. destruct q as [n d]. cbn [Qnum Qden] in Hz.
  destruct (Int_part_ratio n d) as [Hf He].
  unfold DrawScene_zDL, DrawScene_zJMA, zDL, zJMA, zJMA_candidate.
  rewrite Hz, Hf. change (Qfloor (n # d)) with (n / Zpos d)%Z.
  split; [done|]. f_equal.
  pose proof (Z.div_mod n (Zpos d)) as Hdm.
  destruct (Req_dec_T _ _) as [H|H]; destruct (Qeq_bool _ _) eqn:HQ; try done.
  - apply He in H. apply Qeq_bool_neq in HQ. exfalso. apply HQ.
    unfold Qeq. cbn [Qnum Qden inject_Z]. lia.
  - apply Qeq_bool_iff in HQ. unfold Qeq in HQ. cbn [Qnum Qden inject_Z] in HQ.
    exfalso. apply H, He. lia.
Qed.

Lemma live_delete (c : gmap string Img) (k : string) :
  live (delete k c) + has (c !! k) = live c.
Proof.
  unfold live. rewrite map_filter_delete, map_size_delete.
  destruct (filter holds_bitmap c !! k) as [it|] eqn:Hf.
  - assert (size (filter holds_bitmap c) ≠ 0) as Hne.
    { apply map_size_non_empty_iff. intros He. by rewrite He in Hf. }
    apply map_lookup_filter_Some in Hf as [Hk [bm Hbm]]. rewrite Hk.
    destruct it as [b bm' t]. simpl in Hbm. subst bm'. simpl. lia.
  - apply map_lookup_filter_None in Hf as [Hk|Hk]; [rewrite Hk; simpl; lia|].
    destruct (c !! k) as [[b [bm|] t]|] eqn:Hck; simpl; try lia.
    exfalso. apply (Hk _ eq_refl). by eexists.
Qed.

Lemma live_insert (c : gmap string Img) (k : string) (it : Img) :
  live (<[k := it]> c) + has (c !! k) = live c + has (Some it).
Proof.
  rewrite <- (live_delete c k). unfold live at 1.
  destruct it as [b [bm|] t].
  - rewrite map_filter_insert_True by (by eexists).
    rewrite <- insert_delete_eq, <- map_filter_delete.
    rewrite map_size_insert_None.
    + fold (live (delete k c)). simpl. lia.
    + apply map_lookup_filter_None. left. apply lookup_delete_eq.
  - rewrite map_filter_insert_False by (by intros [? ?]).
    fold (live (delete k c)). simpl. lia.
Qed.

Lemma live_empty : live ∅ = 0.
Proof. unfold live. by rewrite map_filter_empty, map_size_empty. Qed.

Lemma released_by_WM_DESTROY (c : gmap string Img) :
  length (filter (λ e, is_Release e = true)
            (map_to_list c ≫= λ kv, SAFE_RELEASE (bmp kv.2))) = live c.
Proof.
  induction c as [|k it c Hk Hfk IH] using map_first_key_ind.
  - by rewrite map_to_list_empty, live_empty.
  - rewrite map_to_list_insert_first_key by done.
    pose proof (live_insert c k it) as Hi. rewrite Hk in Hi.
    rewrite bind_cons, filter_app, length_app, IH.
    destruct it as [b [bm|] t]; simpl in *; lia.
Qed.

Section Accounting.

Variable LoadPngToD2D : list BYTE → option ID2D1Bitmap.

#[local] Abbreviation made := (bitmaps_made LoadPngToD2D).
#[local] Abbreviation in_balance := (balanced LoadPngToD2D).

Lemma made_emit s es :
  made (emit s es)
  = made s + length (filter (λ e, makes_bitmap LoadPngToD2D e = true) es).
Proof. unfold bitmaps_made, emit. simpl. by rewrite filter_app, length_app. Qed.

Lemma releases_emit s es :
  releases (emit s es) = releases s + length (filter (λ e, is_Release e = true) es).
Proof. unfold releases, emit. simpl. by rewrite filter_app, length_app. Qed.

Lemma purge_one_balanced s k n d : in_balance s n d → in_balance (purge_one s k) n d.
Proof.
  unfold balanced, purge_one. intros H.
  pose proof (live_delete (gCache s) k) as Hd.
  destruct (gCache s !! k) as [[b [bm|] t]|] eqn:Hk; [| |done].
  - rewrite made_emit, releases_emit. simpl in *. simpl.
    change (made (with_cache s (delete k (gCache s)))) with (made s).
    change (releases (with_cache s (delete k (gCache s)))) with (releases s). lia.
  - rewrite made_emit, releases_emit. simpl in *. simpl.
    change (made (with_cache s (delete k (gCache s)))) with (made s).
    change (releases (with_cache s (delete k (gCache s)))) with (releases s). lia.
Qed.

Lemma PurgeOldTiles_balanced s n d : in_balance s n d → in_balance (PurgeOldTiles s) n d.
Proof.
  unfold PurgeOldTiles. intros H. destruct (decide _) as [?|_]; [done|]. cbv zeta.
  generalize (take (length (purge_order (gCache s)) - kCacheLimit)
                   (purge_order (gCache s))).*1.
  intros ks. revert s H. induction ks as [|k ks IH]; intros s H; [done|].
  simpl. apply IH. by apply purge_one_balanced.
Qed.

Lemma GetOrFetchBitmap_balanced key now ov s n d :
  in_balance s n d → in_balance (GetOrFetchBitmap LoadPngToD2D key now ov s).1 n d.
Proof.
  intros H. unfold GetOrFetchBitmap.
  destruct (gCache s !! key) as [it|] eqn:Hk.
  - unfold touch. destruct it as [b bm t]. cbn [bmp bytes lastUsed].
    pose proof (live_insert (gCache s) key) as Hi. rewrite Hk in Hi.
    destruct bm as [bm|]; simpl.
    + specialize (Hi (mkImg b (Some bm) now)). unfold balanced in *.
      rewrite made_emit, releases_emit. simpl in *. simpl.
      change (made (with_cache s _)) with (made s).
      change (releases (with_cache s _)) with (releases s). lia.
    + destruct (bool_decide (b = [])) eqn:Hb; simpl.
      * specialize (Hi (mkImg b None now)). unfold balanced in *.
        rewrite made_emit, releases_emit. simpl in *. simpl.
        change (made (with_cache s _)) with (made s).
        change (releases (with_cache s _)) with (releases s). lia.
      * specialize (Hi (mkImg [] (LoadPngToD2D b) now)). unfold balanced in *.
        rewrite made_emit, releases_emit. simpl in *. 
        change (made (with_cache s _)) with (made s).
        change (releases (with_cache s _)) with (releases s).
        rewrite filter_cons, filter_nil.
        destruct (decide _) as [Hm|Hm]; cbn [makes_bitmap] in Hm;
          destruct (LoadPngToD2D b) as [bm|] eqn:HL; simpl in *; try lia.
  - cbv zeta.
    set (s0 := with_cache s (<[key := mkImg [] None now]> (gCache s))).
    assert (in_balance s0 n d) as H0.
    { unfold balanced in *. pose proof (live_insert (gCache s) key (mkImg [] None now)) as Hi.
      rewrite Hk in Hi. simpl in Hi.
      change (made s0) with (made s). change (releases s0) with (releases s).
      unfold s0. simpl. lia. }
    apply PurgeOldTiles_balanced in H0.
    destruct (gPool (PurgeOldTiles s0)) as [p|]; [|done]. simpl.
    unfold balanced in *. unfold bitmaps_made, releases in *. simpl.
    rewrite !filter_app, !length_app. simpl. lia.
Qed.




Lemma commit_fetch_balanced key ok buf s n d :
  in_balance s n d →
  in_balance (commit_fetch key ok buf s) n
    (d + match gCache s !! key with
         | Some it => if ok then 0 else if bmp it is Some _ then 1 else 0
         | None => 0
         end).
Proof.
  unfold balanced, commit_fetch. intros H.
  destruct (gCache s !! key) as [it|] eqn:Hk; [|lia].
  destruct ok.
  - pose proof (live_insert (gCache s) key (mkImg buf (bmp it) (lastUsed it))) as Hi.
    rewrite Hk in Hi. rewrite made_emit, releases_emit.
    change (bitmaps_made LoadPngToD2D (with_cache s _)) with (bitmaps_made LoadPngToD2D s).
    change (releases (with_cache s _)) with (releases s).
    destruct it as [b [bm|] t], (hwnd s); simpl in *; lia.
  - pose proof (live_delete (gCache s) key) as Hd. rewrite Hk in Hd.
    change (bitmaps_made LoadPngToD2D (with_cache s _)) with (bitmaps_made LoadPngToD2D s).
    change (releases (with_cache s _)) with (releases s).
    destruct it as [b [bm|] t]; simpl in *; lia.
Qed.

Lemma step_balanced s e n d :
  in_balance s n d → in_balance (step LoadPngToD2D s e) n (d + drops s e).
Proof.
  intros H. destruct e as [key now ov|w|w net]; cbn [step drops].
  - rewrite Nat.add_0_r. by apply GetOrFetchBitmap_balanced.
  - rewrite Nat.add_0_r. unfold worker_take.
    destruct (gPool s) as [p|]; [|done].
    destruct (workers p !! w) as [[j|]|]; try done.
    destruct (tasks p); done.
  - unfold worker_finish. destruct (gPool s) as [p|]; [|by rewrite Nat.add_0_r].
    destruct (workers p !! w) as [[j|]|]; try by rewrite Nat.add_0_r.
    unfold fetch_job. destruct (HttpGet net []) as [ok buf]. cbn [fst].
    apply (commit_fetch_balanced (job_key j) ok buf
             (with_pool s (mkPool (<[w := None]> (workers p)) (tasks p))) n d H).
Qed.

Lemma run_balanced evs s n d :
  in_balance s n d →
  in_balance (run LoadPngToD2D s evs) n (d + dropped LoadPngToD2D s evs).
Proof.
  revert s d. induction evs as [|e evs IH]; intros s d H; simpl.
  - by rewrite Nat.add_0_r.
  - rewrite Nat.add_assoc. apply IH. by apply step_balanced.
Qed.

Lemma dropped_none evs s :
  (∀ w net, WorkerFinish w net ∈ evs → (HttpGet net []).1 = true) →
  dropped LoadPngToD2D s evs = 0.
Proof.
  revert s. induction evs as [|e evs IH]; intros s Hok; [done|].
  simpl. rewrite IH by (intros w net Hin; apply (Hok w net); by right).
  destruct e as [| |w net]; try done. simpl.
  rewrite (Hok w net) by left.
  destruct (gPool s) as [p|]; [|done].
  destruct (workers p !! w) as [[j|]|]; try done.
  by destruct (gCache s !! job_key j).
Qed.

(** X24.  Where the bitmaps go.  After any run from start-up, every bitmap the
    decoder has made is either released, or held by a cache entry, or was in
    an entry erased by a failed fetch job (dropped).  [WM_DESTROY] empties the
    cache and releases what it held, so in the end every bitmap is released
    or dropped; and none is dropped in a run whose fetches all succeed. *)
Theorem bitmaps_are_released_or_dropped (h : bool) (evs : list event) :
  let s := run LoadPngToD2D (startup h) evs in
  let d := dropped LoadPngToD2D (startup h) evs in
  bitmaps_made LoadPngToD2D s = releases s + live (gCache s) + d ∧
  gCache (WM_DESTROY s) = ∅ ∧
  bitmaps_made LoadPngToD2D (WM_DESTROY s) = releases (WM_DESTROY s) + d ∧
  ((∀ w net, WorkerFinish w net ∈ evs → (HttpGet net []).1 = true) → d = 0).
Proof.
  intros s d.
  assert (in_balance (startup h) 0 0) as H0.
  { unfold balanced. simpl. by rewrite live_empty. }
  apply (run_balanced evs) in H0. fold s d in H0. unfold balanced in H0.
  split; [lia|]. split; [done|]. split; [|apply dropped_none].
  unfold WM_DESTROY, bitmaps_made, releases in *. cbn [gLog].
  rewrite !filter_app, !length_app, released_by_WM_DESTROY.
  assert (filter (λ e, makes_bitmap LoadPngToD2D e = true)
            (map_to_list (gCache s) ≫= λ kv, SAFE_RELEASE (bmp kv.2)) = []) as ->.
  { induction (map_to_list (gCache s)) as [|[k [b [bm|] t]] l IH]; [done| |done].
    rewrite bind_cons, filter_app, IH. done. }
  simpl. lia.
Qed.

End Accounting.

(** ** Instances *)


(** A request for the Tokyo tile on a full cache of 256 row tiles. *)
Lemma miss_evicts_least_recent_full_row :
  let s := sample_globals (row_cache 256) in
  size (gCache (GetOrFetchBitmap sample_decoder tokyo_tile 300 false s).1) = kCacheLimit.
Proof.
  intros s.
  assert (gCache s !! tokyo_tile = None) as Hmiss by (vm_compute; reflexivity).
  assert (size (gCache s) = kCacheLimit) as Hfull by (vm_compute; reflexivity).
  assert (size (gCache s) ≤ kCacheLimit) as Hsz by (rewrite Hfull; lia).
  destruct (miss_evicts_least_recent sample_decoder s tokyo_tile 300 false Hmiss Hsz)
    as [_ Hat].
  destruct (Hat Hfull) as (victim & it & _ & _ & Hsize & _).
  exact Hsize.
Defined.

(** Two requests after start-up. *)
Lemma misses_keep_most_recent_two_tiles :
  let reqs := [(tokyo_tile, 1%Z); (next_tile, 2%Z)] in
  gCache (run sample_decoder (startup true) (requests false reqs))
  = placeholders (drop (length reqs - kCacheLimit) reqs).
Proof.
  intros reqs.
  assert (NoDup reqs.*1) as Hnd.
  { by apply (bool_decide_unpack _). }
  assert (StronglySorted requested_before reqs) as Hsort.
  { repeat constructor. }
  exact (misses_keep_most_recent sample_decoder true false reqs Hnd Hsort).
Defined.

(** The Tokyo tile from the first request to its bitmap. *)
Lemma fetched_tile_is_decoded_on_next_call_tokyo :
  let s1 := run sample_decoder (startup true)
              [Call tokyo_tile 1 false; WorkerTake 0; WorkerFinish 0 http_200_png] in
  (GetOrFetchBitmap sample_decoder tokyo_tile 2 false s1).2
  = (sample_decoder png_header, bool_decide (sample_decoder png_header ≠ None)).
Proof.
  intros s1.
  assert (size (gCache (startup true)) < kCacheLimit) as Hsz by (vm_compute; lia).
  assert (HttpGet http_200_png [] = (true, png_header)) as Hget by (vm_compute; reflexivity).
  destruct (fetched_tile_is_decoded_on_next_call sample_decoder (startup true)
              (new_ThreadPool WORKER_THREADS) tokyo_tile 1 2 false 0 http_200_png
              png_header eq_refl Hsz eq_refl eq_refl eq_refl Hget)
    as (_ & _ & _ & Hr & _).
  exact Hr.
Defined.

(** A response in two chunks. *)
Lemma HttpGet_gathers_chunks_two_chunks :
  let chunks := [(8, png_header); (4, junk_bytes)] in
  HttpGet (mkWinHttp true true true true true 200 (chunk_rounds chunks)) []
  = (negb (bool_decide ([] ++ chunk_bytes chunks = [])), [] ++ chunk_bytes chunks).
Proof.
  intros chunks.
  assert (Forall (λ c : nat * list BYTE, 0 < c.1) chunks) as Hpos.
  { repeat constructor; simpl; lia. }
  assert (chunk_rounds chunks = chunk_rounds chunks ++ []) as Hbody
    by (symmetry; apply app_nil_r).
  destruct (HttpGet_gathers_chunks
              (mkWinHttp true true true true true 200 (chunk_rounds chunks))
              chunks [] [] eq_refl eq_refl Hbody Hpos) as [Hend _].
  exact (Hend (or_introl eq_refl)).
Defined.

(** The column left of column 0 at zoom 6. *)
Lemma tile_index_wraps_zoom_6 :
  tile_nx (-1) (2 ^ 6) = ((-1) mod 2 ^ 6)%Z.
Proof.
  assert (0 ≤ 6)%Z as Hz by lia.
  exact (proj1 (tile_index_wraps 6 (-1) 0 Hz)).
Defined.

(** Zoom 7.25. *)
Lemma overlay_zoom_near_base_zoom_7_25 :
  zDL (29 # 4) = Qfloor (29 # 4).
Proof.
  assert (2 <= 29 # 4)%Q as Hlo by (unfold Qle; simpl; lia).
  assert (29 # 4 <= 18)%Q as Hhi by (unfold Qle; simpl; lia).
  exact (proj1 (overlay_zoom_near_base_zoom (29 # 4) Hlo Hhi)).
Defined.



(** A step back made while the step from 3 to 4 animates. *)
Lemma later_step_replaces_earlier_sample :
  StepTime (-1) 20 (StepTime 1 10 sample_anim) = StepTime (-1) 20 sample_anim.
Proof.
  assert (gTimes sample_anim ≠ []) as Hne by discriminate.
  assert (0 ≤ gTimeIndex sample_anim < Z.of_nat (length (gTimes sample_anim)))%Z as Hidx
    by (simpl; lia).
  destruct (later_step_replaces_earlier sample_anim 1 (-1) 10 20 Hne Hidx)
    as (_ & Hrep & _).
  apply Hrep. simpl. lia.
Defined.

(** 200 rounds on the sample list. *)
Lemma FetchTimes_loop_stops_sample :
  FetchTimes_loop 200 sample_time_list 0 [] = FetchTimes_loop 121 sample_time_list 0 [].
Proof.
  assert (121 ≤ 200) as Hfuel by lia.
  exact (proj1 (FetchTimes_loop_stops 200 sample_time_list Hfuel)).
Defined.


(** The Tokyo tile fetched twice: the first fetch gives a PNG, the second a
    404. *)
Lemma failed_duplicate_fetch_drops_bitmap_tokyo :
  let s := run sample_decoder (startup true) duplicate_fetch_run in
  let s1 := run sample_decoder s [WorkerFinish 0 http_200_png] in
  let r := GetOrFetchBitmap sample_decoder tokyo_tile 400 false s1 in
  let s' := run sample_decoder r.1 [WorkerFinish 1 http_404] in
  r.2 = (Some (D2DBitmap 8), true) ∧
  Release (D2DBitmap 8) ∉ drop (length (gLog s)) (gLog s').
Proof.
  intros s s1 r s'.
  set (j := mkJob tokyo_tile false).
  assert (gPool s = Some (mkPool [Some j; Some j; None; None] [])) as Hp
    by (vm_compute; reflexivity).
  assert (gCache s !! tokyo_tile = Some (mkImg [] None 300)) as Hit
    by (vm_compute; reflexivity).
  assert (HttpGet http_200_png [] = (true, png_header)) as Hok by (vm_compute; reflexivity).
  assert (0 ≠ 1) as Hne by lia.
  destruct (failed_duplicate_fetch_drops_bitmap sample_decoder s
              (mkPool [Some j; Some j; None; None] []) tokyo_tile false 0 1
              (mkImg [] None 300) http_200_png http_404 png_header (D2DBitmap 8) 400
              Hp eq_refl eq_refl Hne Hit eq_refl Hok eq_refl eq_refl)
    as (Hr & _ & _ & _ & Hleak).
  split; [exact Hr | exact Hleak].
Defined.

(** The default view centred on Tokyo station. *)
Lemma CenterOnLonLat_centers_tokyo :
  let g := mkApp 1280 800 (IZR DEFAULT_ZOOM) 0 0 false (0%Z, 0%Z) 0 0 in
  UpdateTitle_lon (CenterOnLonLat 139.767125 35.681236 g) = 139.767125%R.
Proof.
  intros g.
  assert (0 <= zoom g)%R as Hz by (unfold g, DEFAULT_ZOOM; simpl; lra).
  destruct (CenterOnLonLat_centers 139.767125 35.681236 g Hz) as (_ & _ & Hlon).
  exact Hlon.
Defined.

(** One wheel notch up from the default view. *)
Lemma ZoomAtCenter_rescale_keeps_center_default :
  let g := mkApp 1280 800 (IZR DEFAULT_ZOOM) 0 0 false (0%Z, 0%Z) 0 0 in
  zoom (ZoomAtCenter_rescale 0.25 g) = clamp_double (zoom g + 0.25) 2 18.
Proof.
  intros g.
  assert (0 <= zoom g)%R as Hz by (unfold g, DEFAULT_ZOOM; simpl; lra).
  exact (proj1 (ZoomAtCenter_rescale_keeps_center 0.25 g Hz)).
Defined.

(** Zoom 7.25 in the view. *)
Lemma DrawScene_zoom_of_ratio_7_25 :
  let g := mkApp 1280 800 (29 / 4) 0 0 false (0%Z, 0%Z) 0 0 in
  DrawScene_zDL g = zDL (29 # 4) ∧ DrawScene_zJMA g = zJMA (29 # 4).
Proof.
  intros g.
  assert (zoom g = (IZR (Qnum (29 # 4)) / IZR (Zpos (Qden (29 # 4))))%R) as Hz
    by reflexivity.
  exact (DrawScene_zoom_of_ratio (29 # 4) g Hz).
Defined.
